(** * FAL model sync: sanitizer, remote catalog client and reconciliation loop

    A shallow embedding of [src/lib/fal/api-client.ts] and
    [src/lib/services/fal-sync.ts].

    - JavaScript strings are sequences of UTF-16 code units ([list N]).
    - JavaScript numbers are IEEE-754 binary64 values, taken from the
      Standard Library's executable specification ([SpecFloat]).
    - JSON-like value trees are an inductive type; an object is the list of
      its own enumerable properties in [Object.entries] order.
    - Network and store effects are explicit: the network is a sequence of
      replies indexed by request number, the store is an interface
      ([Store]) threaded through the loop together with the mutable
      [SyncResult]. *)

From Stdlib Require Import ZArith NArith List Bool Lia String Ascii QArith Qround Qpower.
From Stdlib Require Import Floats.SpecFloat.
From stdpp Require Import base option list gmap.

Local Open Scope Z_scope.
Local Open Scope list_scope.

(** ** JavaScript data *)

Module JS.

(** A string is its sequence of UTF-16 code units. *)
Definition jsstring := list N.

(** A string literal of the source, one code unit per ASCII character. *)
Definition lit (s : string) : jsstring :=
  List.map N_of_ascii (list_ascii_of_string s).

(** binary64 *)
Definition number := spec_float.
Definition prec : Z := 53.
Definition emax : Z := 1024.

#[warnings="-register-all"]
Inductive value : Type :=
| VUndefined
| VNull
| VBool (b : bool)
| VNumber (x : number)
| VString (s : jsstring)
| VArray (items : list value)
| VObject (props : list (jsstring * value)).

(** Induction principle that reaches below arrays and objects. *)
Section value_rect_nested.
Variable P : value -> Prop.
Hypothesis Hundef : P VUndefined.
Hypothesis Hnull : P VNull.
Hypothesis Hbool : forall b, P (VBool b).
Hypothesis Hnum : forall x, P (VNumber x).
Hypothesis Hstr : forall s, P (VString s).
Hypothesis Harr : forall items, Forall P items -> P (VArray items).
Hypothesis Hobj : forall props, Forall (fun kv => P (snd kv)) props -> P (VObject props).

Fixpoint value_ind_nested (v : value) : P v :=
  match v with
  | VUndefined => Hundef
  | VNull => Hnull
  | VBool b => Hbool b
  | VNumber x => Hnum x
  | VString s => Hstr s
  | VArray items =>
      Harr items
        ((fix go (l : list value) : Forall P l :=
            match l with
            | [] => Forall_nil_2 P
            | x :: l' => Forall_cons_2 P x l' (value_ind_nested x) (go l')
            end) items)
  | VObject props =>
      Hobj props
        ((fix go (l : list (jsstring * value)) : Forall (fun kv => P (snd kv)) l :=
            match l with
            | [] => Forall_nil_2 _
            | kv :: l' =>
                Forall_cons_2 (fun kv => P (snd kv)) kv l' (value_ind_nested (snd kv)) (go l')
            end) props)
  end.
End value_rect_nested.

Definition str_eqb (a b : jsstring) : bool := bool_decide (a = b).

(** [s.startsWith(kw)] and [s.includes(kw)] on code units. *)
Fixpoint startsWith (s kw : jsstring) : bool :=
  match kw, s with
  | [], _ => true
  | k :: kw', c :: s' => N.eqb k c && startsWith s' kw'
  | _ :: _, [] => false
  end.

Fixpoint includes (s kw : jsstring) : bool :=
  startsWith s kw ||
  match s with
  | [] => false
  | _ :: s' => includes s' kw
  end.

(** Surrogate code units: U+D800..U+DFFF; high (leading) U+D800..U+DBFF,
    low (trailing) U+DC00..U+DFFF. *)
Definition is_surrogate (c : N) : bool := (N.leb 0xD800 c && N.leb c 0xDFFF)%N.
Definition is_high (c : N) : bool := (N.leb 0xD800 c && N.leb c 0xDBFF)%N.
Definition is_low (c : N) : bool := (N.leb 0xDC00 c && N.leb c 0xDFFF)%N.

(** [str.replace(/[\uD800-\uDFFF]/g, '')]: the pattern has no [u] flag, so
    it is matched against single code units. *)
Definition replace_surrogates (str : jsstring) : jsstring :=
  List.filter (fun c => negb (is_surrogate c)) str.

(** [obj[key] = v] on a plain object given by its own properties.  The key
    [__proto__] reaches the prototype setter and creates no own property;
    the setter makes [v] the prototype of the object when [v] is an object
    or [null], which a list of own properties does not record: on objects
    that hold this key the lists below agree with the program on the own
    properties only. *)
Fixpoint set_prop (props : list (jsstring * value)) (key : jsstring) (v : value)
  : list (jsstring * value) :=
  match props with
  | [] => [(key, v)]
  | (k, w) :: rest =>
      if str_eqb k key then (k, v) :: rest else (k, w) :: set_prop rest key v
  end.

Definition proto_key : jsstring := lit "__proto__".

Definition assign (props : list (jsstring * value)) (key : jsstring) (v : value)
  : list (jsstring * value) :=
  if str_eqb key proto_key then props else set_prop props key v.

(** *** Numbers: binary64 arithmetic *)

Definition fdiv (x y : number) : number := SFdiv prec emax x y.

Definition zero : number := S754_zero false.
Definition one : number := S754_finite false 4503599627370496 (-52).

(** The float of a non-zero integer of magnitude [n]; exact whenever [n]
    fits in 53 bits, rounded to nearest otherwise. *)
Definition of_pos (s : bool) (n : positive) : number :=
  let d := Zpos (digits2_pos n) in
  if d <=? prec then S754_finite s (Pos.shiftl n (Z.to_N (prec - d))) (d - prec)
  else binary_round prec emax s n 0.

Definition of_Z (n : Z) : number :=
  match n with
  | Z0 => zero
  | Zpos p => of_pos false p
  | Zneg p => of_pos true p
  end.

(** [Math.ceil]: the least integer not below [x], keeping the sign of a
    zero result. *)
Definition Math_ceil (x : number) : number :=
  match x with
  | S754_finite s m e =>
      if 0 <=? e then x
      else
        match - ((- cond_Zopp s (Zpos m)) / 2 ^ (- e)) with
        | Z0 => S754_zero s
        | Zpos p => of_pos false p
        | Zneg p => of_pos true p
        end
  | _ => x
  end.

(** [Math.max(a, b)]: NaN if either is NaN, [+0] above [-0]. *)
Definition Math_max (a b : number) : number :=
  match SFcompare a b with
  | None => S754_nan
  | Some Lt => b
  | Some Gt => a
  | Some Eq => match a with S754_zero true => b | _ => a end
  end.

(** [ToBoolean] on a number: [+0], [-0] and NaN are falsy. *)
Definition number_truthy (x : number) : bool :=
  match x with
  | S754_zero _ | S754_nan => false
  | _ => true
  end.

(** [x === y] on numbers. *)
Definition number_eq (x y : number) : bool := SFeqb x y.

(** The exact rational value of a finite number. *)
Definition number_value (x : number) : option Q :=
  match x with
  | S754_zero _ => Some (0 # 1)%Q
  | S754_finite s m e =>
      Some (if 0 <=? e then inject_Z (cond_Zopp s (Zpos m) * 2 ^ e)
            else Qmake (cond_Zopp s (Zpos m)) (Z.to_pos (2 ^ (- e))))
  | _ => None
  end.

(** The integer a number denotes, when it denotes one. *)
Definition number_to_Z (x : number) : option Z :=
  match x with
  | S754_zero _ => Some 0
  | S754_finite s m e =>
      if 0 <=? e then Some (cond_Zopp s (Zpos m) * 2 ^ e)
      else if (Zpos m) mod 2 ^ (- e) =? 0 then Some (cond_Zopp s (Zpos m / 2 ^ (- e)))
      else None
  | _ => None
  end.

(** A number is positive: a positive finite value or [+Infinity]. *)
Definition positive_number (x : number) : Prop :=
  match x with
  | S754_finite false _ _ | S754_infinity false => True
  | _ => False
  end.

(** A finite number above zero. *)
Definition finite_positive (x : number) : Prop :=
  match x with
  | S754_finite false _ _ => True
  | _ => False
  end.

(** A shifted mantissa that has lost no bit: round and sticky bits clear. *)
Definition exact_record (r : shr_record) : Prop := shr_r r = false /\ shr_s r = false.

(** ToBoolean on a value. *)
Definition value_truthy (v : value) : bool :=
  match v with
  | VUndefined | VNull => false
  | VBool b => b
  | VNumber x => number_truthy x
  | VString [] => false
  | VString (_ :: _) => true
  | VArray _ | VObject _ => true
  end.

(** [s.replace(pat, '')] with a string pattern: the first occurrence goes. *)
Fixpoint remove_first (s pat : jsstring) : jsstring :=
  if startsWith s pat then skipn (length pat) s
  else
    match s with
    | [] => []
    | c :: s' => c :: remove_first s' pat
    end.

(** [s.split(sep).pop()] for a one-unit separator: what follows the last
    separator, all of [s] when there is none. *)
Fixpoint last_segment (sep : N) (s : jsstring) : jsstring :=
  match s with
  | [] => []
  | c :: s' =>
      if N.eqb c sep then last_segment sep s'
      else if existsb (N.eqb sep) s' then last_segment sep s'
      else s
  end.

(** Own properties copied by an object spread. *)
Definition spread (v : value) : list (jsstring * value) :=
  match v with
  | VObject props => props
  | _ => []
  end.

(** *** Built-ins of the runtime that are left uninterpreted *)

Class Builtins := {
  (** [String.prototype.toLowerCase] *)
  toLowerCase : jsstring -> jsstring;
  (** [String(x)] *)
  toStr : value -> jsstring
}.

End JS.
Import JS.

(** ** Specification-side notion: stripping unpaired surrogates only

    A high surrogate immediately followed by a low surrogate encodes one
    valid character; every other surrogate code unit is unpaired. *)
Fixpoint strip_unpaired (s : jsstring) : jsstring :=
  match s with
  | [] => []
  | c :: rest =>
      if is_high c then
        match rest with
        | d :: rest' =>
            if is_low d then c :: d :: strip_unpaired rest'
            else strip_unpaired rest
        | [] => []
        end
      else if is_low c then strip_unpaired rest
      else c :: strip_unpaired rest
  end.

(** ** Shared types ([fal/types]) and effects *)

Module Types.

(** Modelled from the spec: the declarations of [fal/types] are not among
    the sources.  [FalModel] and its metadata carry the fields the code
    reads (data model, RemoteModel); a field that is absent, [null] or
    [undefined] is [None]. *)
Record Metadata := {
  display_name : option jsstring;
  description : option jsstring;
  category : option jsstring;
  status : option jsstring
}.

(** Modelled from the spec: [FalModel] of [fal/types] (see [Metadata]). *)
Record FalModel := {
  endpoint_id : option jsstring;
  metadata : option Metadata;
  openapi : option value
}.

(** Modelled from the spec: [FalPricingItem] of [fal/types] (data model,
    PricingQuote).  [unit] and [currency] are kept as values because the
    code tests their type before sanitizing them; [extra] holds any further
    own properties, which the spread copies. *)
Record FalPricingItem := {
  price_endpoint_id : jsstring;
  unit_price : number;
  price_unit : value;
  currency : value;
  extra : list (jsstring * value)
}.

(** Modelled from the spec: [FalPricingResponse] of [fal/types], the body
    of a pricing response; [prices] is [None] when the field is missing or
    not an array, which the code tests. *)
Record FalPricingResponse := {
  prices : option (list FalPricingItem);
  pricing_next_cursor : option jsstring;
  pricing_has_more : bool
}.

(** Body of one page of the model listing. *)
Record ModelsPage := {
  models : option (list (option FalModel));
  next_cursor : option jsstring;
  has_more : bool
}.

(** What [request] does: resolve with the parsed body, or throw an [Error]
    with a message. *)
Inductive reply (A : Type) : Type :=
| Resolved (body : A)
| Rejected (message : jsstring).
Arguments Resolved {A} body.
Arguments Rejected {A} message.

(** How an async function ends. *)
Inductive completion (A : Type) : Type :=
| Returns (a : A)
| Throws (message : jsstring).
Arguments Returns {A} a.
Arguments Throws {A} message.

(** Observable actions of the client. *)
Inductive event : Type :=
| RequestModels (expand : bool) (cursor : option jsstring)
| RequestPricing (batch : list jsstring)
| Sleep (ms : Z).

(** The client's view of the outside: the number of requests issued so far
    and the actions performed, oldest first. *)
Record io := { sent : nat; trace : list event }.

Definition io0 : io := {| sent := 0; trace := [] |}.

Definition emit (e : event) (w : io) : io :=
  {| sent := sent w; trace := trace w ++ [e] |}.

Definition issue (e : event) (w : io) : io :=
  {| sent := S (sent w); trace := trace w ++ [e] |}.

(** ToBoolean on a nullable string. *)
Definition truthy (s : option jsstring) : bool :=
  match s with
  | Some (_ :: _) => true
  | _ => false
  end.

(** [ids.slice(i, j)] *)
Definition slice {A} (i j : nat) (l : list A) : list A :=
  firstn (j - i) (skipn i l).

End Types.
Import Types.

(** ** The catalog client ([api-client.ts]) *)

Module ApiClient.

(** [private sanitizeString(str: string): string] *)
Definition sanitizeString (str : jsstring) : jsstring := replace_surrogates str.

(** [private sanitizeObject(obj: any): any] *)
Fixpoint sanitizeObject (obj : value) : value :=
  match obj with
  | VString s => VString (sanitizeString s)
  | VArray items => VArray (List.map sanitizeObject items)
  | VObject props =>
      VObject (fold_left (fun sanitized kv => assign sanitized (fst kv) (sanitizeObject (snd kv)))
                 props [])
  | _ => obj
  end.

(** [private sanitizePricingResponse(response)] *)
Definition sanitizeUnit (v : value) : value :=
  match v with
  | VString s => VString (sanitizeString s)
  | _ => v
  end.

Definition sanitizePrice (price : FalPricingItem) : FalPricingItem :=
  {| price_endpoint_id := sanitizeString (price_endpoint_id price);
     unit_price := unit_price price;
     price_unit := sanitizeUnit (price_unit price);
     currency := sanitizeUnit (currency price);
     extra := extra price |}.

Definition sanitizePrices (ps : list FalPricingItem) : list FalPricingItem :=
  List.map sanitizePrice ps.

(** *** [fetchModels] *)

Inductive page_outcome : Type :=
| PagesDone (allModels : list (option FalModel))
| PageThrew (message : jsstring)
| RetryWithoutSchemas.

Section Models.
(** The reply to the n-th request. *)
Variable net : nat -> reply ModelsPage.

(** The [do ... while (cursor)] loop; one unit of fuel per page. *)
Fixpoint page_loop (fuel : nat) (includeSchemas : bool) (cursor : option jsstring)
    (allModels : list (option FalModel)) (w : io) : option (page_outcome * io) :=
  match fuel with
  | O => None
  | S fuel' =>
      let w1 := issue (RequestModels includeSchemas (if truthy cursor then cursor else None)) w in
      match net (sent w) with
      | Resolved response =>
          let allModels1 :=
            match models response with
            | Some ms => allModels ++ ms
            | None => allModels
            end in
          let cursor1 := if has_more response then next_cursor response else None in
          if truthy cursor1 then page_loop fuel' includeSchemas cursor1 allModels1 w1
          else Some (PagesDone allModels1, w1)
      | Rejected message =>
          if includeSchemas && includes message (lit "400")
          then Some (RetryWithoutSchemas, w1)
          else Some (PageThrew message, w1)
      end
  end.

Definition failed_models (message : jsstring) : jsstring :=
  lit "Failed to fetch models: " ++ message.

(** One activation of [fetchModels]: [inr tt] stands for
    [return this.fetchModels(false)]. *)
Definition fetchModels_once (fuel : nat) (includeSchemas : bool) (w : io)
  : option ((completion (list (option FalModel)) + unit) * io) :=
  match page_loop fuel includeSchemas None [] w with
  | None => None
  | Some (PagesDone ms, w') => Some (inl (Returns ms), w')
  | Some (PageThrew m, w') => Some (inl (Throws (failed_models m)), w')
  | Some (RetryWithoutSchemas, w') => Some (inr tt, w')
  end.

(** [async fetchModels(includeSchemas = true)]; the nested call runs with
    the flag off and cannot ask for another restart. *)
Definition fetchModels (fuel : nat) (includeSchemas : bool) (w : io)
  : option (completion (list (option FalModel)) * io) :=
  match fetchModels_once fuel includeSchemas w with
  | None => None
  | Some (inl r, w') => Some (r, w')
  | Some (inr _, w') =>
      match fetchModels_once fuel false w' with
      | Some (inl r, w'') => Some (r, w'')
      | _ => None
      end
  end.
End Models.

(** *** [fetchPricing] *)

Definition batchSize : nat := 50.
Definition maxRetries : nat := 3.

Section Pricing.
Variable net : nat -> reply FalPricingResponse.

Definition is_rate_limit (message : jsstring) : bool :=
  includes message (lit "429") || includes message (lit "Rate limit").

Definition is_not_found (message : jsstring) : bool :=
  includes message (lit "404") || includes message (lit "not found").

(** [while (retries <= maxRetries && !success)]; it is entered with
    [success = false] and every iteration that sets [success] leaves it. *)
Fixpoint retry_loop (fuel : nat) (batch : list jsstring) (retries : nat)
    (allPrices : list FalPricingItem) (w : io)
  : option (completion (list FalPricingItem) * io) :=
  match fuel with
  | O => None
  | S fuel' =>
      if (retries <=? maxRetries)%nat then
        let w1 := issue (RequestPricing batch) w in
        match net (sent w) with
        | Resolved response =>
            match prices response with
            | Some ps => Some (Returns (allPrices ++ sanitizePrices ps), w1)
            | None => retry_loop fuel' batch retries allPrices w1
            end
        | Rejected message =>
            if is_rate_limit message then
              let retries1 := S retries in
              if (retries1 <=? maxRetries)%nat then
                let waitTime := 2 ^ Z.of_nat retries1 * 1000 in
                retry_loop fuel' batch retries1 allPrices (emit (Sleep waitTime) w1)
              else Some (Throws message, w1)
            else if is_not_found message then Some (Returns allPrices, w1)
            else Some (Throws message, w1)
        end
      else Some (Returns allPrices, w)
  end.

(** [for (let i = 0; i < endpointIds.length; i += batchSize)] *)
Fixpoint batch_loop (fuel : nat) (endpointIds : list jsstring) (i : nat)
    (allPrices : list FalPricingItem) (w : io)
  : option (completion (list FalPricingItem) * io) :=
  match fuel with
  | O => None
  | S fuel' =>
      if (i <? length endpointIds)%nat then
        let batch := slice i (i + batchSize) endpointIds in
        match retry_loop fuel batch 0 allPrices w with
        | None => None
        | Some (Throws m, w1) => Some (Throws m, w1)
        | Some (Returns allPrices1, w1) =>
            let w2 :=
              if (i + batchSize <? length endpointIds)%nat
              then emit (Sleep 5000) w1 else w1 in
            batch_loop fuel' endpointIds (i + batchSize) allPrices1 w2
        end
      else Some (Returns allPrices, w)
  end.

Definition failed_pricing (message : jsstring) : jsstring :=
  lit "Failed to fetch pricing: " ++ message.

(** [async fetchPricing(endpointIds: string[])]; the result is the
    [prices] field of the returned response. *)
Definition fetchPricing (fuel : nat) (endpointIds : list jsstring) (w : io)
  : option (completion (list FalPricingItem) * io) :=
  match batch_loop fuel endpointIds 0 [] w with
  | None => None
  | Some (Returns allPrices, w') => Some (Returns allPrices, w')
  | Some (Throws m, w') => Some (Throws (failed_pricing m), w')
  end.
End Pricing.

End ApiClient.

(** ** The sync service ([fal-sync.ts]) *)

Module FalSync.

(** [function sanitizeString(str: string | null | undefined): string | null];
    [None] stands for [null]/[undefined].  [!str] also holds for the empty
    string. *)
Definition sanitizeString (str : option jsstring) : option jsstring :=
  match str with
  | None => None
  | Some [] => None
  | Some s => Some (replace_surrogates s)
  end.

Definition of_nullable (s : option jsstring) : value :=
  match s with
  | Some s => VString s
  | None => VNull
  end.

(** [function sanitizeValue(value: any): any] *)
Fixpoint sanitizeValue (v : value) : value :=
  match v with
  | VString s => of_nullable (sanitizeString (Some s))
  | VArray items => VArray (List.map sanitizeValue items)
  | VObject props =>
      VObject (fold_left (fun sanitized kv => assign sanitized (fst kv) (sanitizeValue (snd kv)))
                 props [])
  | _ => v
  end.


(** Modelled from the spec: [TaskType], [PricingType], the parameter
    descriptor and [SyncResult] are declared in [fal/types], which is not
    among the sources; constructors and fields are those the code uses. *)
Inductive TaskType : Type := IMAGE | VIDEO | AUDIO | TEXT | MULTIMODAL.
Inductive PricingType : Type := free | fixed.

(** Modelled from the spec: the parameter descriptor of [fal/types] (data
    model, Parameter); every field is read as a value. *)
Record ModelParameter := {
  name : value;
  type : value;
  required : value;
  defaultValue : value;
  minValue : value;
  maxValue : value;
  allowedValues : value;
  uiLabel : value;
  uiPlaceholder : value;
  uiHelpText : value;
  uiOrder : value;
  uiGroup : value
}.

(** A thrown value: an [Error] with its message, or anything else. *)
Inductive thrown : Type :=
| ErrorObject (message : jsstring)
| NotAnError (v : value).

(** [{ model, error }] *)
Record SyncError := { model : jsstring; error : jsstring }.

(** Modelled from the spec: [SyncResult] of [fal/types] (data model,
    SyncResult), with the fields the code initializes. *)
Record SyncResult := {
  modelsAdded : nat;
  modelsUpdated : nat;
  parametersAdded : nat;
  pricingUpdated : nat;
  errors : list SyncError;
  duration : Z
}.

Definition emptyResult : SyncResult :=
  {| modelsAdded := 0; modelsUpdated := 0; parametersAdded := 0;
     pricingUpdated := 0; errors := []; duration := 0 |}.

(** *** The store, as the loop sees it *)

Inductive table : Type := models_table | model_parameters | model_pricing.

(** [{ data, error }] of a settled query. *)
Record response := { res_data : value; res_error : option thrown }.

(** An awaited query settles with a response or throws. *)
Inductive answer : Type :=
| Settled (r : response)
| Raised (e : thrown).

Class Store (St : Type) := {
  (** [.from(t).select('id').eq(column, key).single()] *)
  select_single : table -> jsstring -> jsstring -> St -> answer * St;
  (** [.from(t).update(payload).eq(column, key)] *)
  update : table -> value -> jsstring -> jsstring -> St -> answer * St;
  (** [.from(t).insert(payload)] *)
  insert : table -> value -> St -> answer * St;
  (** [.from(t).delete().eq(column, key)] *)
  delete : table -> jsstring -> jsstring -> St -> answer * St;
  (** [new Date().toISOString()] *)
  now : St -> jsstring * St
}.

(** Schema handling used by the loop and left uninterpreted.
    [extractInputSchemaFromOpenAPI] wraps its whole body in [try]/[catch]
    and so always returns a schema or [null]; nothing below depends on
    which.  [parseSchemaToParameters] lives in [fal/schema-parser], which is
    not among the sources; it may return a list or throw. *)
Class SchemaTools := {
  extractInputSchemaFromOpenAPI : value -> value;
  parseSchemaToParameters : value -> thrown + list ModelParameter
}.

Section Sync.
Context {St : Type} {store : Store St} {builtins : Builtins} {schemas : SchemaTools}.

(** [function detectTaskType(modelId: string): TaskType] *)
Definition detectTaskType (modelId : jsstring) : TaskType :=
  let lower := toLowerCase modelId in
  if includes lower (lit "video") then VIDEO
  else if includes lower (lit "audio") || includes lower (lit "sound")
          || includes lower (lit "music") || includes lower (lit "speech") then AUDIO
  else if includes lower (lit "text") || includes lower (lit "caption")
          || includes lower (lit "llm") then TEXT
  else if includes lower (lit "image") || includes lower (lit "flux")
          || includes lower (lit "stable") then IMAGE
  else MULTIMODAL.

(** [model.metadata.category || model.endpoint_id] *)
Definition category_or (cat : option jsstring) (endpoint : jsstring) : jsstring :=
  match cat with
  | Some (c :: s) => c :: s
  | _ => endpoint
  end.

(** *** State and exceptions of the loop

    The store and the result object are mutated in place, so a throw keeps
    what was written before it. *)
Definition M (A : Type) : Type :=
  St * SyncResult -> (thrown + A) * (St * SyncResult).

Definition ret {A} (a : A) : M A := fun s => (inr a, s).

Definition bind {A B} (m : M A) (k : A -> M B) : M B :=
  fun s =>
    match m s with
    | (inl e, s') => (inl e, s')
    | (inr a, s') => k a s'
    end.

Definition throw {A} (e : thrown) : M A := fun s => (inl e, s).

Definition try_catch (body : M unit) (handler : thrown -> M unit) : M unit :=
  fun s =>
    match body s with
    | (inl e, s') => handler e s'
    | (inr a, s') => (inr a, s')
    end.

(** [await] of a store query. *)
Definition await (q : St -> answer * St) : M response :=
  fun s =>
    match q (fst s) with
    | (Settled r, st') => (inr r, (st', snd s))
    | (Raised e, st') => (inl e, (st', snd s))
    end.

Definition clock : M jsstring :=
  fun s => let '(t, st') := now (fst s) in (inr t, (st', snd s)).

Definition update_result (f : SyncResult -> SyncResult) : M unit :=
  fun s => (inr tt, (fst s, f (snd s))).

Definition lift {A} (r : thrown + A) : M A := fun s => (r, s).
End Sync.
Arguments M : clear implicits.

Notation "x <- c1 ;; c2" := (bind c1 (fun x => c2))
  (at level 100, c1 at next level, right associativity).
Notation "c1 ;;; c2" := (bind c1 (fun _ => c2))
  (at level 100, right associativity).

Definition push_error (m e : jsstring) (r : SyncResult) : SyncResult :=
  {| modelsAdded := modelsAdded r; modelsUpdated := modelsUpdated r;
     parametersAdded := parametersAdded r; pricingUpdated := pricingUpdated r;
     errors := errors r ++ [{| model := m; error := e |}]; duration := duration r |}.

Definition incr_modelsAdded (r : SyncResult) : SyncResult :=
  {| modelsAdded := S (modelsAdded r); modelsUpdated := modelsUpdated r;
     parametersAdded := parametersAdded r; pricingUpdated := pricingUpdated r;
     errors := errors r; duration := duration r |}.

Definition incr_modelsUpdated (r : SyncResult) : SyncResult :=
  {| modelsAdded := modelsAdded r; modelsUpdated := S (modelsUpdated r);
     parametersAdded := parametersAdded r; pricingUpdated := pricingUpdated r;
     errors := errors r; duration := duration r |}.

Definition add_parametersAdded (n : nat) (r : SyncResult) : SyncResult :=
  {| modelsAdded := modelsAdded r; modelsUpdated := modelsUpdated r;
     parametersAdded := (parametersAdded r + n)%nat; pricingUpdated := pricingUpdated r;
     errors := errors r; duration := duration r |}.

Definition incr_pricingUpdated (r : SyncResult) : SyncResult :=
  {| modelsAdded := modelsAdded r; modelsUpdated := modelsUpdated r;
     parametersAdded := parametersAdded r; pricingUpdated := S (pricingUpdated r);
     errors := errors r; duration := duration r |}.

(** [function calculateCreditCost(priceUSD: number, creditRate: number): number] *)
Definition calculateCreditCost (priceUSD creditRate : number) : number :=
  Math_max one (Math_ceil (fdiv priceUSD creditRate)).

Definition task_name (t : TaskType) : jsstring :=
  match t with
  | IMAGE => lit "IMAGE"
  | VIDEO => lit "VIDEO"
  | AUDIO => lit "AUDIO"
  | TEXT => lit "TEXT"
  | MULTIMODAL => lit "MULTIMODAL"
  end.

Definition pricing_name (t : PricingType) : jsstring :=
  match t with
  | free => lit "free"
  | fixed => lit "fixed"
  end.

(** A possibly absent string read as a value. *)
Definition field (o : option jsstring) : value :=
  match o with
  | Some s => VString s
  | None => VUndefined
  end.

Definition errorMessage (e : thrown) : jsstring :=
  match e with
  | ErrorObject m => m
  | NotAnError _ => lit "Unknown error"
  end.

(** [pricingMap.set(pricing.endpoint_id, pricing)] for each fetched price. *)
Definition buildPricingMap (fetched : list FalPricingItem) : gmap jsstring FalPricingItem :=
  fold_left (fun m p => <[price_endpoint_id p := p]> m) fetched ∅.

Section Reconcile.
Context {St : Type} {store : Store St} {builtins : Builtins} {schemas : SchemaTools}.
Variable creditRate : number.
Variable pricingMap : gmap jsstring FalPricingItem.

(** The model passes [!model || !model.endpoint_id || !model.metadata]. *)
Definition checked (model : option FalModel) : option (jsstring * Metadata * FalModel) :=
  match model with
  | Some m =>
      match endpoint_id m, metadata m with
      | Some (c :: s), Some md => Some (c :: s, md, m)
      | _, _ => None
      end
  | None => None
  end.

(** [pricing?.unit_price || 0] *)
Definition pricePerCall_of (pricing : option FalPricingItem) : number :=
  match pricing with
  | Some p => if number_truthy (unit_price p) then unit_price p else zero
  | None => zero
  end.

Definition pricingType_of (pricePerCall : number) : PricingType :=
  if number_eq pricePerCall zero then free else fixed.

Definition taskType_of (md : Metadata) (fullModelId : jsstring) : TaskType :=
  detectTaskType (category_or (category md) fullModelId).

Definition displayName_of (md : Metadata) (fullModelId : jsstring) : jsstring :=
  match display_name md with
  | Some (c :: s) => c :: s
  | _ =>
      match last_segment 47%N fullModelId with
      | c :: s => c :: s
      | [] => fullModelId
      end
  end.

Definition modelData_of (fullModelId : jsstring) (md : Metadata) (taskType : TaskType)
    (inputSchema : value) (t : jsstring) : value :=
  sanitizeValue (VObject
    [ (lit "id", VString fullModelId);
      (lit "provider_id", VString (lit "fal-ai"));
      (lit "name", VString (remove_first fullModelId (lit "fal-ai/")));
      (lit "display_name", VString (displayName_of md fullModelId));
      (lit "description", field (description md));
      (lit "task_type", VString (task_name taskType));
      (lit "category", field (category md));
      (lit "input_schema", if value_truthy inputSchema then inputSchema else VObject []);
      (lit "is_active", VBool (bool_decide (status md = Some (lit "active"))));
      (lit "updated_at", VString t) ]).

Definition parameterRecord (fullModelId : jsstring) (param : ModelParameter) : value :=
  sanitizeValue (VObject
    [ (lit "model_id", VString fullModelId);
      (lit "parameter_name", name param);
      (lit "parameter_type", type param);
      (lit "is_required", required param);
      (lit "default_value",
        if value_truthy (defaultValue param) then VString (toStr (defaultValue param)) else VNull);
      (lit "min_value", minValue param);
      (lit "max_value", maxValue param);
      (lit "allowed_values", allowedValues param);
      (lit "ui_label", uiLabel param);
      (lit "ui_placeholder", uiPlaceholder param);
      (lit "ui_help_text", uiHelpText param);
      (lit "ui_order", uiOrder param);
      (lit "ui_group", uiGroup param) ]).

Definition pricingData_of (fullModelId : jsstring) (pricing : option FalPricingItem)
    (pricePerCall creditCost : number) (pricingType : PricingType) (t : jsstring) : value :=
  sanitizeValue (VObject
    [ (lit "model_id", VString fullModelId);
      (lit "price_per_call", VNumber pricePerCall);
      (lit "min_price", VNull);
      (lit "max_price", VNull);
      (lit "pricing_type", VString (pricing_name pricingType));
      (lit "credit_cost", VNumber creditCost);
      (lit "pricing_details",
        match pricing with
        | Some p => VObject [ (lit "unit", price_unit p); (lit "currency", currency p) ]
        | None => VObject []
        end);
      (lit "last_updated", VString t) ]).

(** [{ ...data, created_at: now }] *)
Definition with_created_at (data : value) (t : jsstring) : value :=
  VObject (assign (spread data) (lit "created_at") (VString t)).

(** The statements of the [try] block after the validity check. *)
Definition reconcile_valid (fullModelId : jsstring) (md : Metadata) (m : FalModel)
  : M St unit :=
  let taskType := taskType_of md fullModelId in
  let pricing := pricingMap !! fullModelId in
  let pricePerCall := pricePerCall_of pricing in
  let pricingType := pricingType_of pricePerCall in
  let creditCost := calculateCreditCost pricePerCall creditRate in
  existing <- await (select_single models_table (lit "id") fullModelId) ;;
  let inputSchema :=
    match openapi m with
    | Some o => if value_truthy o then extractInputSchemaFromOpenAPI o else VNull
    | None => VNull
    end in
  t <- clock ;;
  let modelData := modelData_of fullModelId md taskType inputSchema t in
  (if value_truthy (res_data existing) then
     r <- await (update models_table modelData (lit "id") fullModelId) ;;
     match res_error r with
     | Some updateError => throw updateError
     | None => update_result incr_modelsUpdated
     end
   else
     t' <- clock ;;
     r <- await (insert models_table (with_created_at modelData t')) ;;
     match res_error r with
     | Some insertError => throw insertError
     | None => update_result incr_modelsAdded
     end) ;;;
  parameters <-
    (if value_truthy inputSchema then lift (parseSchemaToParameters inputSchema)
     else ret []) ;;
  await (delete model_parameters (lit "model_id") fullModelId) ;;;
  (match parameters with
   | [] => ret tt
   | _ :: _ =>
       let parameterRecords := List.map (parameterRecord fullModelId) parameters in
       r <- await (insert model_parameters (VArray parameterRecords)) ;;
       match res_error r with
       | Some paramsError => throw paramsError
       | None => update_result (add_parametersAdded (length parameters))
       end
   end) ;;;
  t2 <- clock ;;
  let pricingData :=
    pricingData_of fullModelId pricing pricePerCall creditCost pricingType t2 in
  existingPricing <- await (select_single model_pricing (lit "model_id") fullModelId) ;;
  (if value_truthy (res_data existingPricing) then
     await (update model_pricing pricingData (lit "model_id") fullModelId) ;;; ret tt
   else
     t3 <- clock ;;
     await (insert model_pricing (with_created_at pricingData t3)) ;;; ret tt) ;;;
  update_result incr_pricingUpdated.

(** The [try] block. *)
Definition reconcile_body (model : option FalModel) : M St unit :=
  match checked model with
  | None =>
      update_result
        (push_error (lit "unknown") (lit "Model missing endpoint_id or metadata"))
  | Some (fullModelId, md, m) => reconcile_valid fullModelId md m
  end.

(** [model?.endpoint_id || 'unknown'] *)
Definition model_label (model : option FalModel) : jsstring :=
  match model with
  | Some m =>
      match endpoint_id m with
      | Some (c :: s) => c :: s
      | _ => lit "unknown"
      end
  | None => lit "unknown"
  end.

(** One iteration: the [try] block and its [catch]. *)
Definition reconcile (model : option FalModel) : M St unit :=
  try_catch (reconcile_body model)
    (fun e => update_result (push_error (model_label model) (errorMessage e))).

(** [for (const model of models)] *)
Fixpoint processModels (models : list (option FalModel)) : M St unit :=
  match models with
  | [] => ret tt
  | model :: rest => reconcile model ;;; processModels rest
  end.
End Reconcile.

End FalSync.

(** ** An in-memory store and simple built-ins, for running the loop *)

Module InMemory.
Import FalSync.

Record MemStore := {
  model_rows : gmap jsstring value;
  parameter_rows : gmap jsstring (list value);
  pricing_rows : gmap jsstring value;
  (** writes that settle with an error, by table and key *)
  rejects : list (table * jsstring);
  (** queries that throw, by table and key *)
  crashes : list (table * jsstring);
  ticks : nat
}.

Definition table_eqb (a b : table) : bool :=
  match a, b with
  | models_table, models_table
  | model_parameters, model_parameters
  | model_pricing, model_pricing => true
  | _, _ => false
  end.

Definition listed (l : list (table * jsstring)) (t : table) (key : jsstring) : bool :=
  existsb (fun e => table_eqb (fst e) t && str_eqb (snd e) key) l.

Fixpoint get_prop (props : list (jsstring * value)) (key : jsstring) : value :=
  match props with
  | [] => VUndefined
  | (k, v) :: rest => if str_eqb k key then v else get_prop rest key
  end.

Definition string_of (v : value) : jsstring :=
  match v with
  | VString s => s
  | _ => []
  end.

(** The key a payload is written under. *)
Definition payload_key (t : table) (payload : value) : jsstring :=
  match t, payload with
  | models_table, VObject props => string_of (get_prop props (lit "id"))
  | _, VObject props => string_of (get_prop props (lit "model_id"))
  | _, VArray (VObject props :: _) => string_of (get_prop props (lit "model_id"))
  | _, _ => []
  end.

Definition ok (data : value) : answer := Settled {| res_data := data; res_error := None |}.

(** A query the store refuses: the client settles with
    [{ data: null, error: { message, details, hint, code } }], where [error]
    is a plain object and no [Error] instance. *)
Definition failed (message : string) : answer :=
  Settled {| res_data := VNull;
             res_error :=
               Some (NotAnError (VObject [ (lit "message", VString (lit message));
                                           (lit "details", VNull);
                                           (lit "hint", VNull);
                                           (lit "code", VString (lit "42501")) ])) |}.

Definition put (t : table) (key : jsstring) (payload : value) (st : MemStore) : MemStore :=
  match t with
  | models_table =>
      {| model_rows := <[key := payload]> (model_rows st);
         parameter_rows := parameter_rows st; pricing_rows := pricing_rows st;
         rejects := rejects st; crashes := crashes st; ticks := ticks st |}
  | model_parameters =>
      {| model_rows := model_rows st;
         parameter_rows :=
           <[key := (default [] (parameter_rows st !! key)) ++
                    match payload with VArray rows => rows | row => [row] end]>
             (parameter_rows st);
         pricing_rows := pricing_rows st;
         rejects := rejects st; crashes := crashes st; ticks := ticks st |}
  | model_pricing =>
      {| model_rows := model_rows st; parameter_rows := parameter_rows st;
         pricing_rows := <[key := payload]> (pricing_rows st);
         rejects := rejects st; crashes := crashes st; ticks := ticks st |}
  end.

Definition drop (t : table) (key : jsstring) (st : MemStore) : MemStore :=
  match t with
  | models_table =>
      {| model_rows := base.delete key (model_rows st);
         parameter_rows := parameter_rows st; pricing_rows := pricing_rows st;
         rejects := rejects st; crashes := crashes st; ticks := ticks st |}
  | model_parameters =>
      {| model_rows := model_rows st;
         parameter_rows := base.delete key (parameter_rows st);
         pricing_rows := pricing_rows st;
         rejects := rejects st; crashes := crashes st; ticks := ticks st |}
  | model_pricing =>
      {| model_rows := model_rows st; parameter_rows := parameter_rows st;
         pricing_rows := base.delete key (pricing_rows st);
         rejects := rejects st; crashes := crashes st; ticks := ticks st |}
  end.

Definition find_row (t : table) (key : jsstring) (st : MemStore) : option value :=
  match t with
  | models_table => model_rows st !! key
  | model_parameters => VArray <$> (parameter_rows st !! key)
  | model_pricing => pricing_rows st !! key
  end.

Definition crash : answer := Raised (ErrorObject (lit "fetch failed")).

Definition mem_select (t : table) (column key : jsstring) (st : MemStore) : answer * MemStore :=
  if listed (crashes st) t key then (crash, st)
  else
    match find_row t key st with
    | Some row => (ok (VObject [(column, VString key)]), st)
    | None => (failed "JSON object requested, multiple (or no) rows returned", st)
    end.

Definition mem_update (t : table) (payload : value) (column key : jsstring) (st : MemStore)
  : answer * MemStore :=
  if listed (crashes st) t key then (crash, st)
  else if listed (rejects st) t key then (failed "write rejected", st)
  else
    match find_row t key st with
    | Some _ => (ok VNull, put t key payload st)
    | None => (ok VNull, st)
    end.

Definition mem_insert (t : table) (payload : value) (st : MemStore) : answer * MemStore :=
  let key := payload_key t payload in
  if listed (crashes st) t key then (crash, st)
  else if listed (rejects st) t key then (failed "write rejected", st)
  else (ok VNull, put t key payload st).

Definition mem_delete (t : table) (column key : jsstring) (st : MemStore) : answer * MemStore :=
  if listed (crashes st) t key then (crash, st)
  else if listed (rejects st) t key then (failed "write rejected", st)
  else (ok VNull, drop t key st).

Definition mem_now (st : MemStore) : jsstring * MemStore :=
  (lit "2025-01-01T00:00:00.000Z",
   {| model_rows := model_rows st; parameter_rows := parameter_rows st;
      pricing_rows := pricing_rows st; rejects := rejects st; crashes := crashes st;
      ticks := S (ticks st) |}).

#[export] Instance mem_store : Store MemStore := {
  select_single := mem_select;
  update := mem_update;
  insert := mem_insert;
  delete := mem_delete;
  now := mem_now
}.

Definition empty_store (rejects crashes : list (table * jsstring)) : MemStore :=
  {| model_rows := ∅; parameter_rows := ∅; pricing_rows := ∅;
     rejects := rejects; crashes := crashes; ticks := 0 |}.

(** [toLowerCase] on ASCII letters; other code units are kept. *)
Definition ascii_lower (s : jsstring) : jsstring :=
  List.map (fun c => if (N.leb 65 c && N.leb c 90)%N then (c + 32)%N else c) s.

#[export] Instance ascii_builtins : Builtins := {
  toLowerCase := ascii_lower;
  toStr := string_of
}.

Definition parameter_named (k : jsstring) (order : Z) : ModelParameter :=
  {| name := VString k; type := VString (lit "string"); required := VBool false;
     defaultValue := VUndefined; minValue := VUndefined; maxValue := VUndefined;
     allowedValues := VUndefined; uiLabel := VString k; uiPlaceholder := VUndefined;
     uiHelpText := VUndefined; uiOrder := VNumber (of_Z order); uiGroup := VUndefined |}.

Fixpoint number_from (n : Z) (keys : list jsstring) : list ModelParameter :=
  match keys with
  | [] => []
  | k :: rest => parameter_named k n :: number_from (n + 1) rest
  end.

(** Schema tools for runs: the schema is the [schema] property of the
    document, and the parser returns one parameter per entry of its
    [properties], in order. *)
#[export] Instance simple_schemas : SchemaTools := {
  extractInputSchemaFromOpenAPI o :=
    match get_prop (spread o) (lit "schema") with
    | VUndefined => VNull
    | v => v
    end;
  parseSchemaToParameters schema :=
    inr (number_from 0 (List.map fst (spread (get_prop (spread schema) (lit "properties")))))
}.

Definition remote (id : string) (cat : option string) (schema : option value) : option FalModel :=
  Some {| endpoint_id := Some (lit id);
          metadata := Some {| display_name := None; description := None;
                              category := lit <$> cat; status := Some (lit "active") |};
          openapi := schema |}.

Definition prompt_schema : value :=
  VObject [(lit "schema",
            VObject [(lit "properties", VObject [(lit "prompt", VObject [])])])].

End InMemory.

Import ApiClient FalSync InMemory.

(** ** Specification-side definitions used in the statements *)

(** The keyword table of the classifier, in priority order. *)
Definition keyword_groups : list (TaskType * list jsstring) :=
  [ (VIDEO, [lit "video"]);
    (AUDIO, [lit "audio"; lit "sound"; lit "music"; lit "speech"]);
    (TEXT, [lit "text"; lit "caption"; lit "llm"]);
    (IMAGE, [lit "image"; lit "flux"; lit "stable"]) ].

(** First group with a keyword occurring in [s]; MULTIMODAL when none has. *)
Fixpoint first_match (groups : list (TaskType * list jsstring)) (s : jsstring) : TaskType :=
  match groups with
  | [] => MULTIMODAL
  | (t, kws) :: rest => if existsb (includes s) kws then t else first_match rest s
  end.

(** [kw] occurs in [s]: [s] holds the code units of [kw] in a row. *)
Definition occurs (kw s : jsstring) : Prop :=
  exists before after, s = before ++ kw ++ after.

Definition any_occurs (kws : list jsstring) (s : jsstring) : Prop :=
  Exists (fun kw => occurs kw s) kws.

(** [t] is the type of the first group one of whose keywords occurs in
    [s], and MULTIMODAL when no group has one. *)
Fixpoint first_group (groups : list (TaskType * list jsstring)) (s : jsstring) (t : TaskType)
  : Prop :=
  match groups with
  | [] => t = MULTIMODAL
  | (g, kws) :: rest =>
      (any_occurs kws s /\ t = g) \/ (~ any_occurs kws s /\ first_group rest s t)
  end.

(** The number a decimal literal [n/d] denotes: the binary64 value nearest
    to the quotient of two small integers. *)
Definition decimal (n d : Z) : number := fdiv (of_Z n) (of_Z d).

(** *** The catalog client *)

(** The kinds of reply to a pricing request, as [fetchPricing] tells them
    apart: the test for the rate-limit signal comes first. *)
Inductive reply_kind : Type := Success | RateLimit | NotFound | OtherError | Malformed.

Definition classify (r : reply FalPricingResponse) : reply_kind :=
  match r with
  | Resolved response =>
      match prices response with
      | Some _ => Success
      | None => Malformed
      end
  | Rejected message =>
      if ApiClient.is_rate_limit message then RateLimit
      else if ApiClient.is_not_found message then NotFound
      else OtherError
  end.

(** A success, a rate-limit, a not-found or another error: anything but a
    resolved body without a [prices] array. *)
Definition well_formed (r : reply FalPricingResponse) : bool :=
  match classify r with
  | Malformed => false
  | _ => true
  end.

(** The batch is settled by this reply: a success or a not-found. *)
Definition answered (r : reply FalPricingResponse) : bool :=
  match classify r with
  | Success | NotFound => true
  | _ => false
  end.

Definition rate_limited (r : reply FalPricingResponse) : bool :=
  match classify r with
  | RateLimit => true
  | _ => false
  end.

Definition message_of {A} (r : reply A) : jsstring :=
  match r with
  | Rejected message => message
  | Resolved _ => []
  end.

(** The sanitized quotes a reply carries. *)
Definition reply_quotes (r : reply FalPricingResponse) : list FalPricingItem :=
  match r with
  | Resolved response =>
      match prices response with
      | Some ps => ApiClient.sanitizePrices ps
      | None => []
      end
  | Rejected _ => []
  end.

(** The sanitized quotes of the replies to requests [from .. from+count-1]. *)
Definition collected (net : nat -> reply FalPricingResponse) (from count : nat)
  : list FalPricingItem :=
  flat_map reply_quotes (List.map net (seq from count)).

(** ceil(n / 50) *)
Definition batch_count (n : nat) : nat := ((n + 49) / 50)%nat.

(** [count] consecutive slices of 50 ids starting at index [i]. *)
Fixpoint batches_from (count : nat) (ids : list jsstring) (i : nat) : list (list jsstring) :=
  match count with
  | O => []
  | S c => slice i (i + 50) ids :: batches_from c ids (i + 50)
  end.

Definition batches (ids : list jsstring) : list (list jsstring) :=
  batches_from (batch_count (length ids)) ids 0.

(** A batch request followed by the pause between batches. *)
Definition paused (bs : list (list jsstring)) : list event :=
  flat_map (fun b => [RequestPricing b; Sleep 5000]) bs.

(** One request per batch, a 5 s pause between consecutive batches. *)
Fixpoint paced (bs : list (list jsstring)) : list event :=
  match bs with
  | [] => []
  | b :: rest =>
      match rest with
      | [] => [RequestPricing b]
      | _ :: _ => RequestPricing b :: Sleep 5000 :: paced rest
      end
  end.

(** The requests and pauses of a batch that meets four rate-limit signals. *)
Definition backoff (batch : list jsstring) : list event :=
  [ RequestPricing batch; Sleep 2000;
    RequestPricing batch; Sleep 4000;
    RequestPricing batch; Sleep 8000;
    RequestPricing batch ].

Definition page_models (p : ModelsPage) : list (option FalModel) :=
  default [] (models p).

(** The listing requests for a run of pages: each carries the cursor of the
    page before it. *)
Fixpoint page_requests (expand : bool) (cursor : option jsstring) (pages : list ModelsPage)
  : list event :=
  match pages with
  | [] => []
  | p :: rest =>
      RequestModels expand (if truthy cursor then cursor else None)
      :: page_requests expand (next_cursor p) rest
  end.

(** A page that announces a successor. *)
Definition continues (p : ModelsPage) : Prop :=
  has_more p = true /\ truthy (next_cursor p) = true.

(** *** The reconciliation loop *)

Definition models_written (r : SyncResult) : nat := modelsAdded r + modelsUpdated r.

(** [run P m Qok Qerr]: started with a result object satisfying [P], the
    computation [m] leaves one satisfying [Qok] when it completes and one
    satisfying [Qerr] when it throws, whatever the store does. *)
Definition run {St A : Type} (P : SyncResult -> Prop) (m : M St A)
    (Qok : A -> SyncResult -> Prop) (Qerr : SyncResult -> Prop) : Prop :=
  forall (st : St) (r : SyncResult),
    P r ->
    match m (st, r) with
    | (inr a, (_, r')) => Qok a r'
    | (inl _, (_, r')) => Qerr r'
    end.

(** Progress of one model: [n] model writes and [p] pricing records counted
    since [r0], the error list untouched. *)
Definition progress (r0 : SyncResult) (n p : nat) (r : SyncResult) : Prop :=
  errors r = errors r0 /\
  pricingUpdated r = (pricingUpdated r0 + p)%nat /\
  models_written r = (models_written r0 + n)%nat /\
  (parametersAdded r0 <= parametersAdded r)%nat.

(** The result object when the [try] block is left by a throw. *)
Definition interrupted (r0 r : SyncResult) : Prop :=
  progress r0 0 0 r \/ progress r0 1 0 r.

(** The reading of "the counts reflect only the models that completed
    successfully": each of the model and pricing counts equals the number
    of models without an error entry. *)
Definition counts_reflect_only_successes (models : list (option FalModel)) (r : SyncResult)
  : Prop :=
  let successes := (length models - length (errors r))%nat in
  (modelsAdded r + modelsUpdated r)%nat = successes /\ pricingUpdated r = successes.

(** Three fetched models, the first two with a one-property schema. *)
Definition catalog3 : list (option FalModel) :=
  [ remote "fal-ai/flux" (Some "image"%string) (Some prompt_schema);
    remote "demo/text-gen" None (Some prompt_schema);
    remote "b/video" None None ].

(** A store that rejects the parameter rows of the second model. *)
Definition store3 : MemStore :=
  empty_store [(model_parameters, lit "demo/text-gen")] [].

(** A store whose pricing table cannot be reached for the second model:
    the lookup of its pricing row throws. *)
Definition store3_pricing_down : MemStore :=
  empty_store [] [(model_pricing, lit "demo/text-gen")].

(** *** The writes of a pass and what the counters say of them *)

(** How a write ended: the store did it, the store refused it (the query
    settled with an error), or the query threw. *)
Inductive outcome : Type := Done | Refused | Threw.

Definition outcome_of (a : answer) : outcome :=
  match a with
  | Settled r =>
      match res_error r with
      | None => Done
      | Some _ => Refused
      end
  | Raised _ => Threw
  end.

Inductive write_kind : Type := Inserted | Updated.

(** One write sent to the store: an insert or an update, its table, the
    number of rows in its payload and how it ended. *)
Record write := {
  w_kind : write_kind;
  w_table : table;
  w_rows : nat;
  w_outcome : outcome
}.

Definition rows_of (payload : value) : nat :=
  match payload with
  | VArray items => length items
  | _ => 1%nat
  end.

(** Any store, with a journal of the writes sent to it and how each ended;
    the answers and the state of the store are those of the store itself. *)
#[export] Instance journal_store {St : Type} {store : Store St} : Store (St * list write) := {
  select_single t column key s :=
    let '(a, st') := select_single t column key (fst s) in (a, (st', snd s));
  update t payload column key s :=
    let '(a, st') := update t payload column key (fst s) in
    (a, (st', snd s ++ [{| w_kind := Updated; w_table := t; w_rows := rows_of payload;
                           w_outcome := outcome_of a |}]));
  insert t payload s :=
    let '(a, st') := insert t payload (fst s) in
    (a, (st', snd s ++ [{| w_kind := Inserted; w_table := t; w_rows := rows_of payload;
                           w_outcome := outcome_of a |}]));
  delete t column key s :=
    let '(a, st') := delete t column key (fst s) in (a, (st', snd s));
  now s := let '(x, st') := now (fst s) in (x, (st', snd s))
}.

(** A state of the journalled store without its journal. *)
Definition erase {St : Type} (s : (St * list write) * SyncResult) : St * SyncResult :=
  (fst (fst s), snd s).

Definition tally (f : write -> nat) (ws : list write) : nat := list_sum (List.map f ws).

(** A model row inserted. *)
Definition model_inserted (w : write) : nat :=
  match w_kind w, w_table w, w_outcome w with
  | Inserted, models_table, Done => 1%nat
  | _, _, _ => 0%nat
  end.

(** A model row updated. *)
Definition model_updated (w : write) : nat :=
  match w_kind w, w_table w, w_outcome w with
  | Updated, models_table, Done => 1%nat
  | _, _, _ => 0%nat
  end.

(** The parameter rows inserted. *)
Definition parameters_inserted (w : write) : nat :=
  match w_kind w, w_table w, w_outcome w with
  | Inserted, model_parameters, Done => w_rows w
  | _, _, _ => 0%nat
  end.

(** A pricing write that did not throw, whether the store did it or
    refused it. *)
Definition pricing_settled (w : write) : nat :=
  match w_table w, w_outcome w with
  | model_pricing, (Done | Refused) => 1%nat
  | _, _ => 0%nat
  end.

(** The counters of [r] are those of [r0] plus what the writes [ws] amount
    to: one model added per model row inserted, one model updated per model
    row updated, the parameter rows inserted, and one pricing update per
    pricing write that did not throw. *)
Definition counted (ws : list write) (r0 r : SyncResult) : Prop :=
  modelsAdded r = (modelsAdded r0 + tally model_inserted ws)%nat
  /\ modelsUpdated r = (modelsUpdated r0 + tally model_updated ws)%nat
  /\ parametersAdded r = (parametersAdded r0 + tally parameters_inserted ws)%nat
  /\ pricingUpdated r = (pricingUpdated r0 + tally pricing_settled ws)%nat.

(** [audit j0 P m Qok Qerr]: run on a journalled store whose journal
    extends [j0] by writes that, with the result object, satisfy [P], the
    computation [m] leaves a journal extending [j0] by writes satisfying
    [Qok] when it completes and [Qerr] when it throws. *)
Definition audit {St A : Type} {store : Store St} (j0 : list write)
    (P : list write -> SyncResult -> Prop) (m : M (St * list write) A)
    (Qok : A -> list write -> SyncResult -> Prop) (Qerr : list write -> SyncResult -> Prop)
  : Prop :=
  forall (st : St) (r : SyncResult) (ws : list write),
    P ws r ->
    match m ((st, j0 ++ ws), r) with
    | (inr a, ((_, j'), r')) => exists ws', j' = j0 ++ ws' /\ Qok a ws' r'
    | (inl _, ((_, j'), r')) => exists ws', j' = j0 ++ ws' /\ Qerr ws' r'
    end.

(** The computation on the journalled store does to the store and to the
    result object what the computation on the store itself does. *)
Definition mirrors {St A : Type} (mj : M (St * list write) A) (m : M St A) : Prop :=
  forall s, m (erase s) = (fst (mj s), erase (snd (mj s))).

(** The parameters the loop reads from a fetched model. *)
Definition parameter_count {schemas : SchemaTools} (fetched : option FalModel) : nat :=
  match fetched with
  | Some m =>
      match openapi m with
      | Some o =>
          let inputSchema := if value_truthy o then extractInputSchemaFromOpenAPI o else VNull in
          if value_truthy inputSchema then
            match parseSchemaToParameters inputSchema with
            | inr parameters => length parameters
            | inl _ => 0%nat
            end
          else 0%nat
      | None => 0%nat
      end
  | None => 0%nat
  end.

(** The model has no error entry. *)
Definition completed (r : SyncResult) (fetched : option FalModel) : bool :=
  negb (existsb (fun e => str_eqb (model e) (model_label fetched)) (errors r)).

(** The reading of "the counts reflect only the models that completed
    successfully" for the parameter count: it is the number of parameters
    of the models without an error entry. *)
Definition parameters_reflect_only_successes {schemas : SchemaTools}
    (models : list (option FalModel)) (r : SyncResult) : Prop :=
  parametersAdded r = list_sum (List.map parameter_count (List.filter (completed r) models)).

(** Some high surrogate of [s] is immediately followed by a low one. *)
Fixpoint has_pair (s : jsstring) : bool :=
  match s with
  | [] => false
  | c :: rest =>
      match rest with
      | d :: _ => (is_high c && is_low d) || has_pair rest
      | [] => false
      end
  end.

(** U+1F600 as a valid surrogate pair. *)
Definition grin : jsstring := [0xD83D; 0xDE00]%N.

(** Own-property lists as the rebuilt objects have them: distinct keys,
    none of them [__proto__]. *)
Definition keys_ok (l : list (jsstring * value)) : Prop :=
  NoDup (List.map fst l) /\ proto_key ∉ List.map fst l.

(** The property-copy loop shared by both sanitizers. *)
Definition rebuild (f : value -> value) (props acc : list (jsstring * value))
  : list (jsstring * value) :=
  fold_left (fun sanitized kv => assign sanitized (fst kv) (f (snd kv))) props acc.


(** ** Further definitions

    The remaining functions of the two modules, and the notions their
    properties are stated with. *)

From Stdlib Require DecimalString.

(** *** Value trees *)

(** No string value of the tree holds a surrogate code unit; property names
    are not looked at. *)
Fixpoint surrogate_free (v : value) : bool :=
  match v with
  | VString s => forallb (fun c => negb (is_surrogate c)) s
  | VArray items => forallb surrogate_free items
  | VObject props => forallb (fun kv => surrogate_free (snd kv)) props
  | _ => true
  end.

(** No object of the tree has an own property named [__proto__]. *)
Fixpoint proto_free (v : value) : bool :=
  match v with
  | VArray items => forallb proto_free items
  | VObject props =>
      forallb (fun kv => negb (str_eqb (fst kv) proto_key) && proto_free (snd kv)) props
  | _ => true
  end.

(** Every object of the tree lists distinct property names, none of them
    [__proto__]: the shape of an object built by assignments. *)
Fixpoint well_keyed (v : value) : Prop :=
  match v with
  | VArray items => fold_right (fun x acc => well_keyed x /\ acc) True items
  | VObject props =>
      keys_ok props /\ fold_right (fun kv acc => well_keyed (snd kv) /\ acc) True props
  | _ => True
  end.

(** The tree with every empty string value replaced by [null]. *)
Fixpoint blank_to_null (v : value) : value :=
  match v with
  | VString [] => VNull
  | VArray items => VArray (List.map blank_to_null items)
  | VObject props => VObject (List.map (fun kv => (fst kv, blank_to_null (snd kv))) props)
  | _ => v
  end.

(** *** Store operations as the loop issues them *)

(** One store round trip: the operation, its table and the key it is
    filtered by (an insert carries its payload instead). *)
Inductive store_op : Type :=
| OpSelect (t : table) (key : jsstring)
| OpUpdate (t : table) (key : jsstring)
| OpInsert (t : table)
| OpDelete (t : table) (key : jsstring).

(** Any store, with a log of the operations sent to it; an operation is
    logged whether it settles or throws. *)
#[export] Instance logged_store {St : Type} {store : Store St} : Store (St * list store_op) := {
  select_single t column key s :=
    let '(a, st') := select_single t column key (fst s) in
    (a, (st', snd s ++ [OpSelect t key]));
  update t payload column key s :=
    let '(a, st') := update t payload column key (fst s) in
    (a, (st', snd s ++ [OpUpdate t key]));
  insert t payload s :=
    let '(a, st') := insert t payload (fst s) in
    (a, (st', snd s ++ [OpInsert t]));
  delete t column key s :=
    let '(a, st') := delete t column key (fst s) in
    (a, (st', snd s ++ [OpDelete t key]));
  now s := let '(x, st') := now (fst s) in (x, (st', snd s))
}.

(** The store operations of one completed model, in order: [updated] and
    [priced] tell whether the model and pricing rows existed, [described]
    whether there were parameters to insert. *)
Definition reconcile_ops (id : jsstring) (updated described priced : bool)
  : list store_op :=
  [ OpSelect models_table id;
    (if updated then OpUpdate models_table id else OpInsert models_table);
    OpDelete model_parameters id ]
  ++ (if described then [OpInsert model_parameters] else [])
  ++ [ OpSelect model_pricing id;
       (if priced then OpUpdate model_pricing id else OpInsert model_pricing) ].

(** [track log0 P m Qok Qerr]: run on a logged store whose log extends
    [log0] by operations satisfying [P], the computation [m] leaves a log
    extending [log0] by operations satisfying [Qok] when it completes and
    [Qerr] when it throws. *)
Definition track {St A : Type} (log0 : list store_op) (P : list store_op -> Prop)
    (m : M (St * list store_op) A)
    (Qok : A -> list store_op -> Prop) (Qerr : list store_op -> Prop) : Prop :=
  forall (st : St) (r : SyncResult) (ops : list store_op),
    P ops ->
    match m ((st, log0 ++ ops), r) with
    | (inr a, ((_, log'), _)) => exists ops', log' = log0 ++ ops' /\ Qok a ops'
    | (inl _, ((_, log'), _)) => exists ops', log' = log0 ++ ops' /\ Qerr ops'
    end.

(** The operations of an interrupted model: a non-empty initial part of the
    operations of a completed one. *)
Definition cut_short (id : jsstring) (ops : list store_op) : Prop :=
  exists updated described priced n,
    (0 < n)%nat /\ ops = firstn n (reconcile_ops id updated described priced).

(** *** [request] of the catalog client *)

Module ApiRequest.

(** What [fetch] hands back: a network failure with its message, a
    response whose body cannot be read, or a response with its status,
    status text and body; [parsed] is the body read by [JSON.parse], [None]
    when that throws. *)
Inductive exchange : Type :=
| NetworkFailure (message : jsstring)
| BodyFailure (status : nat) (message : jsstring)
| Http (status : nat) (statusText text : jsstring) (parsed : option value).

(** [${n}] for a status code. *)
Definition decimal_digits (n : nat) : jsstring :=
  lit (DecimalString.NilEmpty.string_of_uint (Nat.to_uint n)).

(** [response.ok] *)
Definition ok (status : nat) : bool := (200 <=? status)%nat && (status <=? 299)%nat.

Section Request.
Context {builtins : Builtins}.
(** Messages the engine gives to its own errors: a body that is not JSON,
    a property read on [null], an object that cannot be turned into a
    string. *)
Variable syntax_error_message : jsstring.
Variable null_read_message : jsstring.
Variable conversion_error_message : jsstring.
(** The string an object or array turns into, through its own [toString]
    and [valueOf] when it has them; [None] when the conversion throws. *)
Variable object_text : value -> option jsstring.

(** [${x}] *)
Definition interpolate (v : value) : option jsstring :=
  match v with
  | VString s => Some s
  | VObject _ | VArray _ => object_text v
  | _ => Some (toStr v)
  end.

(** [errorData.message || errorData.code]; [None] when reading a property
    of [errorData] throws. *)
Definition message_or_code (errorData : value) : option value :=
  match errorData with
  | VNull | VUndefined => None
  | VObject props =>
      let message := get_prop props (lit "message") in
      Some (if value_truthy message then message else get_prop props (lit "code"))
  | _ => Some VUndefined
  end.

(** [errorData]: the parsed body, or the fallback built when parsing
    throws. *)
Definition error_data (status : nat) (statusText text : jsstring)
    (parsed : option value) : value :=
  match parsed with
  | Some v => v
  | None =>
      VObject [ (lit "code", VString (lit "HTTP_" ++ decimal_digits status));
                (lit "message", VString (match text with [] => statusText | _ => text end)) ]
  end.

(** [${errorData.message || errorData.code}]: the text, or the message of
    the [TypeError] thrown while producing it. *)
Definition error_text (errorData : value) : jsstring + jsstring :=
  match message_or_code errorData with
  | Some v =>
      match interpolate v with
      | Some t => inr t
      | None => inl conversion_error_message
      end
  | None => inl null_read_message
  end.

(** The message of the error thrown for a response that is not ok. *)
Definition failure_message (status : nat) (statusText text : jsstring)
    (parsed : option value) : jsstring :=
  match error_text (error_data status statusText text parsed) with
  | inr t => lit "FAL API Error (" ++ decimal_digits status ++ lit "): " ++ t
  | inl message => message
  end.

(** [private async request<T>(endpoint, options)]: the parsed body, or an
    error with its message. *)
Definition request (x : exchange) : reply value :=
  match x with
  | NetworkFailure message => Rejected message
  | BodyFailure _ message => Rejected message
  | Http status statusText text parsed =>
      if ok status then
        match parsed with
        | Some data => Resolved data
        | None => Rejected syntax_error_message
        end
      else Rejected (failure_message status statusText text parsed)
  end.
End Request.

End ApiRequest.

(** *** Runs of the model listing *)

(** The cursor held after a run of pages. *)
Definition cursor_after (cursor : option jsstring) (pages : list ModelsPage)
  : option jsstring :=
  fold_left (fun _ p => next_cursor p) pages cursor.

(** An outcome reached after [n] earlier requests and the actions [tr]. *)
Definition after {A} (n : nat) (tr : list event) (r : A * io) : A * io :=
  (fst r, {| sent := n + sent (snd r); trace := tr ++ trace (snd r) |}).

(** *** Runs of the pricing fetch *)

(** The requests and waits of a batch that meets [r] rate-limit signals
    after [retries] earlier ones and is then settled. *)
Fixpoint retried (batch : list jsstring) (retries r : nat) : list event :=
  match r with
  | O => [RequestPricing batch]
  | S r' =>
      RequestPricing batch :: Sleep (2 ^ Z.of_nat (S retries) * 1000)
      :: retried batch (S retries) r'
  end.

(** The actions of a run in which the i-th batch meets [rs !! i] rate-limit
    signals: a 5 s pause between consecutive batches. *)
Fixpoint schedule (bs : list (list jsstring)) (rs : list nat) : list event :=
  match bs, rs with
  | b :: bs', r :: rs' =>
      retried b 0 r ++
      match bs' with
      | [] => []
      | _ :: _ => Sleep 5000 :: schedule bs' rs'
      end
  | _, _ => []
  end.

(** The replies from request [from] on settle one batch after the other,
    the i-th after [rs !! i] rate-limit signals, none more than three. *)
Fixpoint settles (net : nat -> reply FalPricingResponse) (from : nat) (rs : list nat) : Prop :=
  match rs with
  | [] => True
  | r :: rs' =>
      (r <= 3)%nat
      /\ (forall n, (n < r)%nat -> rate_limited (net (from + n)%nat) = true)
      /\ answered (net (from + r)%nat) = true
      /\ settles net (from + r + 1)%nat rs'
  end.

(** One request per attempt. *)
Definition attempts (rs : list nat) : nat := list_sum (List.map S rs).






(** *** One pass of [syncFalModels] *)

Module SyncPass.

(** [process.env]: the three variables the pass reads. *)
Record Env := {
  FAL_KEY : option jsstring;
  NEXT_PUBLIC_SUPABASE_URL : option jsstring;
  SUPABASE_SERVICE_ROLE_KEY : option jsstring
}.

(** What the pass asks of its host besides the three tables. *)
Class Host (St : Type) := {
  (** [.from('credit_pricing_config').select('cost_per_credit_usd')
       .eq('is_active', true).single()] *)
  select_active_config : St -> answer * St;
  (** [Date.now()] *)
  Date_now : St -> Z * St
}.

(** The literal [0.025]. *)
Definition default_rate : number := decimal 25 1000.

Definition set_duration (d : Z) (r : SyncResult) : SyncResult :=
  {| modelsAdded := modelsAdded r; modelsUpdated := modelsUpdated r;
     parametersAdded := parametersAdded r; pricingUpdated := pricingUpdated r;
     errors := errors r; duration := d |}.

Section Pass.
Context {St : Type} {store : Store St} {host : Host St}
        {builtins : Builtins} {schemas : SchemaTools}.
Variable env : Env.
(** The replies to the n-th request, read as a page of the listing or as a
    pricing response. *)
Variable models_net : nat -> reply ModelsPage.
Variable pricing_net : nat -> reply FalPricingResponse.
(** Message of the [TypeError] of [creditRate.toFixed(4)] for a rate that
    is not a number. *)
Variable toFixed_error : value -> jsstring.
(** The text of an id that is absent from its model, in the query string. *)
Variable absent_id : jsstring.

(** [async function getActiveCreditRate(supabase): Promise<number>]; the
    column is returned as it is read. *)
Definition getActiveCreditRate (st : St) : value * St :=
  match select_active_config st with
  | (Settled r, st') =>
      match res_error r with
      | Some _ => (VNumber default_rate, st')
      | None =>
          if value_truthy (res_data r) then
            (match res_data r with
             | VObject props => get_prop props (lit "cost_per_credit_usd")
             | _ => VUndefined
             end, st')
          else (VNumber default_rate, st')
      end
  | (Raised _, st') => (VNumber default_rate, st')
  end.

(** [new FalApiClient()] and [createClient(getSupabaseUrl(),
    getSupabaseServiceKey())]: the first variable that is missing or empty
    throws; [createClient], of [@supabase/supabase-js], is taken to return
    when it is given both. *)
Definition configuration : option jsstring :=
  if negb (truthy (FAL_KEY env)) then
    Some (lit "FAL_KEY is required. Set it in environment variables or pass to constructor.")
  else if negb (truthy (NEXT_PUBLIC_SUPABASE_URL env)) then
    Some (lit "NEXT_PUBLIC_SUPABASE_URL is required in environment variables")
  else if negb (truthy (SUPABASE_SERVICE_ROLE_KEY env)) then
    Some (lit "SUPABASE_SERVICE_ROLE_KEY is required in environment variables")
  else None.

(** [async testConnection(): Promise<boolean>] *)
Definition testConnection (fuel : nat) (w : io) : option (bool * io) :=
  match fetchModels models_net fuel true w with
  | None => None
  | Some (Returns _, w') => Some (true, w')
  | Some (Throws _, w') => Some (false, w')
  end.

(** [models.map(m => m.endpoint_id)]; [None] when an entry is [null] and
    reading its id throws. *)
Fixpoint endpointIds_of (models : list (option FalModel)) : option (list jsstring) :=
  match models with
  | [] => Some []
  | None :: _ => None
  | Some m :: rest =>
      match endpointIds_of rest with
      | Some ids => Some (default absent_id (endpoint_id m) :: ids)
      | None => None
      end
  end.

(** The inner [try] around the pricing fetch: the map stays empty when
    anything in it throws. *)
Definition pricingMap_of (fuel : nat) (models : list (option FalModel)) (w : io)
  : option (gmap jsstring FalPricingItem * io) :=
  match endpointIds_of models with
  | None => Some (∅, w)
  | Some endpointIds =>
      match fetchPricing pricing_net fuel endpointIds w with
      | None => None
      | Some (Returns fetched, w') => Some (buildPricingMap fetched, w')
      | Some (Throws _, w') => Some (∅, w')
      end
  end.

(** [export async function syncFalModels(): Promise<SyncResult>] *)
Definition syncFalModels (fuel : nat) (st : St) (w : io)
  : option ((thrown + SyncResult) * St * io) :=
  let '(startTime, st0) := Date_now st in
  match configuration with
  | Some message => Some (inl (ErrorObject message), st0, w)
  | None =>
      match testConnection fuel w with
      | None => None
      | Some (false, w1) => Some (inl (ErrorObject (lit "Failed to connect to FAL API")), st0, w1)
      | Some (true, w1) =>
          let '(creditRate, st1) := getActiveCreditRate st0 in
          match creditRate with
          | VNumber rate =>
              match fetchModels models_net fuel true w1 with
              | None => None
              | Some (Throws message, w2) => Some (inl (ErrorObject message), st1, w2)
              | Some (Returns models, w2) =>
                  match pricingMap_of fuel models w2 with
                  | None => None
                  | Some (pricingMap, w3) =>
                      match processModels rate pricingMap models (st1, emptyResult) with
                      | (inl e, (st2, _)) => Some (inl e, st2, w3)
                      | (inr _, (st2, result)) =>
                          let '(endTime, st3) := Date_now st2 in
                          Some (inr (set_duration (endTime - startTime) result), st3, w3)
                      end
                  end
              end
          | other => Some (inl (ErrorObject (toFixed_error other)), st1, w1)
          end
      end
  end.
End Pass.

End SyncPass.


(** The requests from [from] on are answered with [pages], in order. *)
Definition served (net : nat -> reply ModelsPage) (from : nat) (pages : list ModelsPage)
  : Prop :=
  forall i p, pages !! i = Some p -> net (from + i)%nat = Resolved p.

(** A host for runs: the configuration query answers [config], the clock
    advances by a second per reading. *)
Definition mem_host (config : answer) : SyncPass.Host MemStore := {|
  SyncPass.select_active_config st := (config, st);
  SyncPass.Date_now st := (1735689600000 + 1000 * Z.of_nat (ticks st), snd (mem_now st))
|}.

(** A configured environment, a one-page catalog and an active rate of
    0.025, for runs of the pass. *)
Definition sample_env : SyncPass.Env :=
  {| SyncPass.FAL_KEY := Some (lit "key");
     SyncPass.NEXT_PUBLIC_SUPABASE_URL := Some (lit "https://db.example");
     SyncPass.SUPABASE_SERVICE_ROLE_KEY := Some (lit "role") |}.


Definition sample_config : answer :=
  ok (VObject [(lit "cost_per_credit_usd", VNumber (decimal 25 1000))]).
(** ** The sanitizer *)

Lemma replace_surrogates_idempotent (s : jsstring) :
  replace_surrogates (replace_surrogates s) = replace_surrogates s.
Proof.
  unfold replace_surrogates. induction s as [|c s IH]; simpl; [reflexivity|].
  destruct (is_surrogate c) eqn:E; simpl; [assumption|].
  rewrite E. simpl. now rewrite IH.
Qed.

Lemma replace_surrogates_clean (s : jsstring) :
  forallb (fun c => negb (is_surrogate c)) (replace_surrogates s) = true.
Proof.
  unfold replace_surrogates. induction s as [|c s IH]; simpl; [reflexivity|].
  destruct (is_surrogate c) eqn:E; simpl; [assumption|].
  rewrite E. simpl. assumption.
Qed.

Lemma is_surrogate_high_or_low (c : N) : is_surrogate c = is_high c || is_low c.
Proof.
  unfold is_surrogate, is_high, is_low.
  destruct (N.leb_spec 0xD800 c), (N.leb_spec c 0xDFFF), (N.leb_spec c 0xDBFF),
    (N.leb_spec 0xDC00 c); simpl; try reflexivity; lia.
Qed.

(** On a string without a valid pair the pattern removes exactly the
    unpaired surrogates; the two only differ on valid pairs. *)
Lemma replace_surrogates_without_pairs (s : jsstring) :
  has_pair s = false -> replace_surrogates s = strip_unpaired s.
Proof.
  unfold replace_surrogates.
  induction s as [|c rest IH]; [reflexivity|].
  intros Hp. cbn [has_pair] in Hp. cbn [List.filter strip_unpaired].
  rewrite is_surrogate_high_or_low.
  destruct rest as [|d rest'].
  - destruct (is_high c), (is_low c); reflexivity.
  - apply orb_false_iff in Hp as [Hcd Hrest]. specialize (IH Hrest).
    destruct (is_high c) eqn:Hc; cbn [orb negb].
    + cbn [andb] in Hcd. rewrite Hcd. exact IH.
    + destruct (is_low c); cbn [negb]; [exact IH|]. now rewrite IH.
Qed.

Lemma set_prop_fresh l k v :
  k ∉ List.map fst l -> set_prop l k v = l ++ [(k, v)].
Proof.
  induction l as [|[k' w] l IH]; simpl; intros Hk; [reflexivity|].
  unfold str_eqb. case_bool_decide as E.
  - subst. exfalso. apply Hk. left.
  - rewrite IH; [reflexivity|]. intros Hin. apply Hk. now right.
Qed.

Lemma set_prop_keys l k v :
  k ∈ List.map fst l -> List.map fst (set_prop l k v) = List.map fst l.
Proof.
  induction l as [|[k' w] l IH]; simpl; intros Hk.
  - inversion Hk.
  - unfold str_eqb. case_bool_decide as E; simpl; [reflexivity|].
    rewrite IH; [reflexivity|]. inversion Hk; subst; [congruence|assumption].
Qed.

Lemma set_prop_values (Q : value -> Prop) l k v :
  Forall (fun kv => Q (snd kv)) l -> Q v -> Forall (fun kv => Q (snd kv)) (set_prop l k v).
Proof.
  induction l as [|[k' w] l IH]; simpl; intros Hl Hv.
  - constructor; [assumption|constructor].
  - inversion Hl; subst. unfold str_eqb. case_bool_decide; constructor; auto.
Qed.

Lemma assign_keys_ok l k v : keys_ok l -> keys_ok (assign l k v).
Proof.
  unfold assign, str_eqb, keys_ok. intros [Hnd Hp]. case_bool_decide as E; [auto|].
  destruct (decide (k ∈ List.map fst l)) as [Hin|Hin].
  - rewrite set_prop_keys by assumption. auto.
  - rewrite set_prop_fresh by assumption. rewrite map_app. simpl. split.
    + apply NoDup_app. repeat split; auto.
      * intros x Hx Hx'. apply list_elem_of_singleton in Hx'. subst. auto.
      * apply NoDup_singleton.
    + intros Hx. apply elem_of_app in Hx as [Hx|Hx]; [auto|].
      apply list_elem_of_singleton in Hx. congruence.
Qed.

Lemma assign_values (Q : value -> Prop) l k v :
  Forall (fun kv => Q (snd kv)) l -> Q v -> Forall (fun kv => Q (snd kv)) (assign l k v).
Proof.
  unfold assign. intros. destruct (str_eqb k proto_key); [assumption|].
  now apply set_prop_values.
Qed.

Section Rebuild.
Variable f : value -> value.

Lemma rebuild_keys_ok props acc : keys_ok acc -> keys_ok (rebuild f props acc).
Proof.
  revert acc. induction props as [|kv props IH]; simpl; intros acc H; [assumption|].
  apply IH. now apply assign_keys_ok.
Qed.

Lemma rebuild_values (Q : value -> Prop) props acc :
  Forall (fun kv => Q (snd kv)) acc ->
  Forall (fun kv => Q (f (snd kv))) props ->
  Forall (fun kv => Q (snd kv)) (rebuild f props acc).
Proof.
  revert acc. induction props as [|kv props IH]; simpl; intros acc Ha Hp; [assumption|].
  inversion Hp; subst. apply IH; [|assumption]. now apply assign_values.
Qed.

Lemma rebuild_fixed props acc :
  keys_ok (acc ++ props) ->
  Forall (fun kv => f (snd kv) = snd kv) props ->
  rebuild f props acc = acc ++ props.
Proof.
  revert acc. induction props as [|[k v] props IH]; simpl; intros acc Hok Hfix.
  - now rewrite app_nil_r.
  - inversion Hfix as [|? ? Hv Hrest]; subst. simpl in Hv. rewrite Hv.
    destruct Hok as [Hnd Hp].
    rewrite map_app in Hnd, Hp. simpl in Hnd, Hp.
    apply NoDup_app in Hnd as (Hna & Hdisj & Hnp).
    assert (Hk : k ∉ List.map fst acc).
    { intros Hin. apply (Hdisj k Hin). left. }
    assert (Hkp : k <> proto_key).
    { intros ->. apply Hp. apply elem_of_app. right. left. }
    unfold assign, str_eqb. rewrite bool_decide_eq_false_2 by assumption.
    rewrite set_prop_fresh by assumption.
    rewrite IH.
    + now rewrite <- app_assoc.
    + rewrite <- app_assoc. simpl. split.
      * rewrite map_app. simpl. apply NoDup_app. repeat split; auto.
      * rewrite map_app. simpl. assumption.
    + assumption.
Qed.
End Rebuild.

(** The client's sanitizer is idempotent on every value tree. *)
Lemma sanitizeObject_idempotent (x : value) :
  ApiClient.sanitizeObject (ApiClient.sanitizeObject x) = ApiClient.sanitizeObject x.
Proof.
  induction x as [| | | | s | items IH | props IH] using value_ind_nested; simpl; try reflexivity.
  - unfold ApiClient.sanitizeString. now rewrite replace_surrogates_idempotent.
  - f_equal. rewrite List.map_map. apply List.map_ext_Forall. assumption.
  - f_equal.
    change (rebuild ApiClient.sanitizeObject (rebuild ApiClient.sanitizeObject props []) []
            = rebuild ApiClient.sanitizeObject props []).
    apply (rebuild_fixed ApiClient.sanitizeObject _ []).
    + simpl. apply rebuild_keys_ok. split; [constructor|]. intros H; inversion H.
    + apply (rebuild_values ApiClient.sanitizeObject
               (fun v => ApiClient.sanitizeObject v = v)); [constructor|assumption].
Qed.

(** C1 (evaluation at the failing input): the string made of the valid
    surrogate pair U+D83D U+DE00 contains no unpaired surrogate, yet both
    sanitizers delete it, and the sync service's [sanitizeValue] applied a
    second time turns the resulting empty string into [null]. *)
Theorem sanitize_deletes_valid_pair_and_is_not_idempotent :
  strip_unpaired grin = grin /\
  ApiClient.sanitizeObject (VString grin) = VString [] /\
  FalSync.sanitizeValue (VString grin) = VString [] /\
  FalSync.sanitizeValue (FalSync.sanitizeValue (VString grin)) = VNull.
Proof. repeat split; reflexivity. Qed.

(** ** Task-type inference *)

Lemma startsWith_nil (s : jsstring) : startsWith s [] = true.
Proof. destruct s; reflexivity. Qed.

Lemma startsWith_app (kw rest : jsstring) : startsWith (kw ++ rest) kw = true.
Proof.
  induction kw as [|k kw IH]; [apply startsWith_nil|].
  cbn [app startsWith]. now rewrite N.eqb_refl, IH.
Qed.

Lemma includes_prefix (kw rest : jsstring) : includes (kw ++ rest) kw = true.
Proof.
  destruct (kw ++ rest) eqn:E; cbn [includes]; rewrite <- E, startsWith_app; reflexivity.
Qed.

Lemma includes_app_r (a s kw : jsstring) :
  includes s kw = true -> includes (a ++ s) kw = true.
Proof.
  intros H. induction a as [|c a IH]; [exact H|].
  cbn [app includes]. rewrite IH. apply orb_true_r.
Qed.

Lemma includes_inside (a kw b : jsstring) : includes (a ++ kw ++ b) kw = true.
Proof. apply includes_app_r, includes_prefix. Qed.

(** [String.prototype.includes] finds exactly the occurrences. *)
Lemma startsWith_inv (s kw : jsstring) :
  startsWith s kw = true -> exists rest, s = kw ++ rest.
Proof.
  revert s. induction kw as [|k kw IH]; intros s H; [exists s; reflexivity|].
  destruct s as [|c s]; [discriminate H|]. cbn [startsWith] in H.
  apply andb_true_iff in H as [Hc Hs]. apply N.eqb_eq in Hc. subst c.
  destruct (IH s Hs) as [rest ->]. exists rest. reflexivity.
Qed.

Lemma includes_occurs (s kw : jsstring) : includes s kw = true <-> occurs kw s.
Proof.
  split.
  - induction s as [|c s IH]; cbn [includes]; intros H.
    + rewrite orb_false_r in H. destruct (startsWith_inv _ _ H) as [rest E].
      exists [], rest. exact E.
    + apply orb_true_iff in H as [H|H].
      * destruct (startsWith_inv _ _ H) as [rest E]. exists [], rest. exact E.
      * destruct (IH H) as (a & b & ->). exists (c :: a), b. reflexivity.
  - intros (a & b & ->). apply includes_inside.
Qed.

Lemma existsb_any_occurs (kws : list jsstring) (s : jsstring) :
  existsb (includes s) kws = true <-> any_occurs kws s.
Proof.
  unfold any_occurs. rewrite existsb_exists, List.Exists_exists.
  split; intros (kw & Hin & H); exists kw; (split; [exact Hin|]);
    now apply includes_occurs.
Qed.

Lemma first_match_first_group (groups : list (TaskType * list jsstring)) (s : jsstring) :
  first_group groups s (first_match groups s).
Proof.
  induction groups as [|[g kws] rest IH]; [reflexivity|].
  cbn [first_match first_group].
  destruct (existsb (includes s) kws) eqn:E.
  - left. split; [now apply existsb_any_occurs|reflexivity].
  - right. split; [|exact IH]. intros H. apply existsb_any_occurs in H. congruence.
Qed.

Section TaskTypes.
Context {builtins : Builtins}.

Lemma detectTaskType_first_match (s : jsstring) :
  detectTaskType s = first_match keyword_groups (toLowerCase s).
Proof.
  unfold detectTaskType, keyword_groups. simpl.
  repeat match goal with
         | |- context [includes ?a ?b] => destruct (includes a b); simpl
         end; reflexivity.
Qed.

(** C9: the task type of a reconciled model is decided by the keywords
    that occur in the lower-cased category-or-endpoint-id string [s], the
    groups being tried in the order video, audio (audio, sound, music,
    speech), text (text, caption, llm), image (image, flux, stable): it is
    the type of the first group one of whose keywords occurs in [s], and
    MULTIMODAL when none occurs.  "Occurs" is the property of the string
    itself, not the outcome of the program's search. *)
Theorem task_type_by_keyword_priority (md : Metadata) (fullModelId : jsstring) :
  let s := toLowerCase (category_or (category md) fullModelId) in
  let t := taskType_of md fullModelId in
  t = first_match keyword_groups s
  /\ first_group keyword_groups s t
  /\ (occurs (lit "video") s -> t = VIDEO)
  /\ (~ occurs (lit "video") s ->
      occurs (lit "audio") s \/ occurs (lit "sound") s \/ occurs (lit "music") s
      \/ occurs (lit "speech") s ->
      t = AUDIO)
  /\ (~ any_occurs [lit "video"; lit "audio"; lit "sound"; lit "music"; lit "speech"] s ->
      occurs (lit "text") s \/ occurs (lit "caption") s \/ occurs (lit "llm") s ->
      t = TEXT)
  /\ (~ any_occurs [lit "video"; lit "audio"; lit "sound"; lit "music"; lit "speech";
                    lit "text"; lit "caption"; lit "llm"] s ->
      occurs (lit "image") s \/ occurs (lit "flux") s \/ occurs (lit "stable") s ->
      t = IMAGE)
  /\ (~ any_occurs [lit "video"; lit "audio"; lit "sound"; lit "music"; lit "speech";
                    lit "text"; lit "caption"; lit "llm";
                    lit "image"; lit "flux"; lit "stable"] s ->
      t = MULTIMODAL).
Proof.
  intros s t.
  assert (E : t = first_match keyword_groups s)
    by (unfold t, taskType_of; apply detectTaskType_first_match).
  split; [exact E|]. split; [rewrite E; apply first_match_first_group|].
  pose proof (first_match_first_group keyword_groups s) as H. rewrite <- E in H.
  unfold keyword_groups in H. cbn [first_group] in H. unfold any_occurs in *.
  repeat split.
  - intros Hv. destruct H as [[_ ->]|[Hn _]]; [reflexivity|].
    destruct Hn. constructor. exact Hv.
  - intros Hnv Ha.
    destruct H as [[Hv _]|[_ [[_ ->]|[Hn _]]]]; [|reflexivity|].
    + inversion Hv as [? ? Hv'|? ? Hv']; subst; [contradiction|inversion Hv'].
    + destruct Hn. rewrite !Exists_cons. tauto.
  - intros Hn Ht. rewrite !Exists_cons, Exists_nil in Hn.
    destruct H as [[Hv _]|[_ [[Ha _]|[_ [[_ ->]|[Hnt _]]]]]]; [| |reflexivity|].
    + rewrite !Exists_cons, Exists_nil in Hv. tauto.
    + rewrite !Exists_cons, Exists_nil in Ha. tauto.
    + destruct Hnt. rewrite !Exists_cons. tauto.
  - intros Hn Hi. rewrite !Exists_cons, Exists_nil in Hn.
    destruct H as [[Hv _]|[_ [[Ha _]|[_ [[Ht _]|[_ [[_ ->]|[Hni _]]]]]]]]; [| | |reflexivity|].
    + rewrite !Exists_cons, Exists_nil in Hv. tauto.
    + rewrite !Exists_cons, Exists_nil in Ha. tauto.
    + rewrite !Exists_cons, Exists_nil in Ht. tauto.
    + destruct Hni. rewrite !Exists_cons. tauto.
  - intros Hn. rewrite !Exists_cons, Exists_nil in Hn.
    destruct H as [[Hv _]|[_ [[Ha _]|[_ [[Ht _]|[_ [[Hi _]|[_ ->]]]]]]]]; [| | | |reflexivity].
    + rewrite !Exists_cons, Exists_nil in Hv. tauto.
    + rewrite !Exists_cons, Exists_nil in Ha. tauto.
    + rewrite !Exists_cons, Exists_nil in Ht. tauto.
    + rewrite !Exists_cons, Exists_nil in Hi. tauto.
Qed.

(** C10: a non-empty category alone decides the task type, so a category
    without any keyword gives MULTIMODAL whatever the endpoint id holds;
    the endpoint id is read only when the category is absent or empty. *)
Theorem task_type_reads_category_first (md : Metadata) (fullModelId : jsstring) :
  match category md with
  | Some (c :: s) =>
      taskType_of md fullModelId = detectTaskType (c :: s) /\
      (first_match keyword_groups (toLowerCase (c :: s)) = MULTIMODAL ->
       taskType_of md fullModelId = MULTIMODAL)
  | _ => taskType_of md fullModelId = detectTaskType fullModelId
  end.
Proof.
  unfold taskType_of, category_or.
  destruct (category md) as [[|c s]|]; try reflexivity.
  split; [reflexivity|]. intros Hno. now rewrite detectTaskType_first_match.
Qed.
End TaskTypes.

(** A category without keywords hides a video endpoint id. *)
Lemma task_type_reads_category_first_witness :
  taskType_of
    {| display_name := None; description := None;
       category := Some (lit "Utilities"); status := None |}
    (lit "fal-ai/fast-video") = MULTIMODAL
  /\ detectTaskType (lit "fal-ai/fast-video") = VIDEO.
Proof.
  split; [|reflexivity].
  pose proof (task_type_reads_category_first
                {| display_name := None; description := None;
                   category := Some (lit "Utilities"); status := None |}
                (lit "fal-ai/fast-video")) as H.
  simpl in H. apply H. reflexivity.
Defined.

(** An endpoint id that holds keywords of two groups, in upper case: the
    audio group is tried before the image group. *)
Lemma task_type_by_keyword_priority_witness :
  let md := {| display_name := None; description := None;
               category := None; status := None |} in
  taskType_of md (lit "fal-ai/Stable-AUDIO-open") = AUDIO
  /\ occurs (lit "stable") (lit "fal-ai/stable-audio-open")
  /\ occurs (lit "audio") (lit "fal-ai/stable-audio-open")
  /\ ~ occurs (lit "video") (lit "fal-ai/stable-audio-open").
Proof.
  intros md.
  assert (Hnv : ~ occurs (lit "video") (lit "fal-ai/stable-audio-open")).
  { intros H. apply includes_occurs in H. vm_compute in H. discriminate H. }
  assert (Ha : occurs (lit "audio") (lit "fal-ai/stable-audio-open")).
  { exists (lit "fal-ai/stable-"), (lit "-open"). reflexivity. }
  split; [|split; [|split]].
  - destruct (task_type_by_keyword_priority md (lit "fal-ai/Stable-AUDIO-open"))
      as (_ & _ & _ & Haudio & _).
    apply Haudio; [exact Hnv|]. left. exact Ha.
  - exists (lit "fal-ai/"), (lit "-audio-open"). reflexivity.
  - exact Ha.
  - exact Hnv.
Defined.
(** ** Credit cost *)

Lemma digits2_pos_bounds (p : positive) :
  2 ^ (Zpos (digits2_pos p) - 1) <= Zpos p < 2 ^ Zpos (digits2_pos p).
Proof.
  induction p as [p IH|p IH|]; simpl digits2_pos.
  - rewrite Pos2Z.inj_succ. replace (Z.succ (Zpos (digits2_pos p)) - 1) with (Z.succ (Zpos (digits2_pos p) - 1)) by lia.
    rewrite !Z.pow_succ_r by lia. lia.
  - rewrite Pos2Z.inj_succ. replace (Z.succ (Zpos (digits2_pos p)) - 1) with (Z.succ (Zpos (digits2_pos p) - 1)) by lia.
    rewrite !Z.pow_succ_r by lia. lia.
  - simpl. lia.
Qed.

Lemma bounded_mantissa m e :
  bounded prec emax m e = true -> Zpos m < 2 ^ 53.
Proof.
  unfold bounded, canonical_mantissa, fexp, emin, prec, emax.
  intros H. apply andb_true_iff in H as [H _]. apply Z.eqb_eq in H.
  pose proof (digits2_pos_bounds m) as [_ Hb].
  assert (Zpos (digits2_pos m) <= 53) by lia.
  eapply Z.lt_le_trans; [exact Hb|]. apply Z.pow_le_mono_r; lia.
Qed.

Lemma Zpos_shiftl (p : positive) (n : N) :
  Zpos (Pos.shiftl p n) = Zpos p * 2 ^ Z.of_N n.
Proof.
  destruct n as [|n]; [change (Z.pos p = Z.pos p * 2 ^ 0); rewrite Z.pow_0_r; lia|].
  change (Z.of_N (N.pos n)) with (Z.pos n). unfold Pos.shiftl. apply Pos.iter_ind.
  - simpl. lia.
  - intros q a IH. rewrite Pos2Z.inj_succ, Z.pow_succ_r by lia.
    rewrite Pos2Z.inj_xO, IH. ring.
Qed.

Lemma binary_round_aux_sign sx mx ex lx :
  match binary_round_aux prec emax sx mx ex lx with
  | S754_zero s | S754_infinity s | S754_finite s _ _ => s = sx
  | S754_nan => True
  end.
Proof.
  unfold binary_round_aux.
  destruct (shr_fexp prec emax mx ex lx) as [mrs' e'].
  destruct (shr_fexp prec emax _ e' loc_Exact) as [mrs'' e''].
  destruct (shr_m mrs''); [reflexivity| |exact I].
  destruct (_ <=? _); reflexivity.
Qed.

Lemma fdiv_positive_sign price rate :
  positive_number price -> positive_number rate ->
  match fdiv price rate with
  | S754_zero s | S754_infinity s | S754_finite s _ _ => s = false
  | S754_nan => True
  end.
Proof.
  destruct price as [| [] | | [] m e]; simpl; try contradiction; intros _;
  destruct rate as [| [] | | [] m' e']; simpl; try contradiction; intros _; try reflexivity; try exact I.
  unfold fdiv, SFdiv.
  destruct (SFdiv_core_binary prec emax (Z.pos m) e (Z.pos m') e') as [[mz ez] lz].
  apply binary_round_aux_sign.
Qed.

(** The ceiling of a positive quotient by a power of two. *)
Lemma ceil_pos_quotient (m : positive) (k : Z) :
  0 < k -> 1 <= - ((- Zpos m) / 2 ^ k) /\ (Zpos m < 2 ^ 53 -> - ((- Zpos m) / 2 ^ k) <= 2 ^ 52).
Proof.
  intros Hk. assert (Hp : 0 < 2 ^ k) by (apply Z.pow_pos_nonneg; lia).
  split.
  - assert ((- Zpos m) / 2 ^ k < 0); [|lia].
    apply Z.div_lt_upper_bound; lia.
  - intros Hm.
    assert (2 ^ 1 <= 2 ^ k) by (apply Z.pow_le_mono_r; lia).
    assert (- 2 ^ 52 <= (- Zpos m) / 2 ^ k); [|lia].
    apply Z.div_le_lower_bound; [lia|]. 
    change (2 ^ 53) with (2 ^ 52 * 2) in Hm. change (2 ^ 1) with 2 in H. nia.
Qed.

Lemma of_pos_exact (s : bool) (p : positive) :
  Zpos p <= 2 ^ 52 ->
  exists m e, of_pos s p = S754_finite s m e /\ -52 <= e <= 0 /\
              Zpos m = Zpos p * 2 ^ (- e) /\ (e = -52 -> p = 1%positive).
Proof.
  intros Hp. unfold of_pos, prec.
  pose proof (digits2_pos_bounds p) as [Hlo Hhi].
  set (d := Zpos (digits2_pos p)) in *.
  assert (Hd : 1 <= d <= 53).
  { split; [unfold d; lia|].
    destruct (Z_le_gt_dec d 53) as [|Hgt]; [assumption|exfalso].
    assert (2 ^ 53 <= 2 ^ (d - 1)) by (apply Z.pow_le_mono_r; lia).
    change (2 ^ 53) with (2 ^ 52 * 2) in H. lia. }
  destruct (Z.leb_spec d 53) as [_|]; [|lia].
  eexists _, _. split; [reflexivity|]. split; [lia|]. split.
  - rewrite Zpos_shiftl. rewrite Z2N.id by lia. f_equal. f_equal. lia.
  - intros He. assert (d = 1) by lia. 
    assert (Zpos p < 2 ^ 1) by (rewrite <- H; assumption). change (2^1) with 2 in H0. lia.
Qed.

Lemma Qceiling_quotient (a : Z) (k : Z) :
  0 <= k -> Qceiling (Qmake a (Z.to_pos (2 ^ k))) = - ((- a) / 2 ^ k).
Proof.
  intros Hk. unfold Qceiling, Qfloor. simpl.
  rewrite Z2Pos.id; [reflexivity|]. apply Z.pow_pos_nonneg; lia.
Qed.

Lemma number_to_Z_one : number_to_Z one = Some 1.
Proof. reflexivity. Qed.


Lemma Math_max_one_above (m : positive) (e : Z) :
  -52 < e -> Math_max one (S754_finite false m e) = S754_finite false m e.
Proof.
  intros He. unfold Math_max, one, SFcompare.
  rewrite (proj2 (Z.compare_lt_iff (-52) e)) by assumption. reflexivity.
Qed.

Lemma number_to_Z_integer (m : positive) (e : Z) :
  0 <= e -> number_to_Z (S754_finite false m e) = Some (Zpos m * 2 ^ e).
Proof.
  intros He. unfold number_to_Z. destruct (Z.leb_spec 0 e); [reflexivity|lia].
Qed.

Lemma number_to_Z_scaled (m p : positive) (e : Z) :
  e < 0 -> Zpos m = Zpos p * 2 ^ (- e) ->
  number_to_Z (S754_finite false m e) = Some (Zpos p).
Proof.
  intros He Hm. unfold number_to_Z. destruct (Z.leb_spec 0 e); [lia|].
  assert (2 ^ (- e) <> 0) by (apply Z.pow_nonzero; lia).
  rewrite Hm, Z.mod_mul by assumption. rewrite Z.eqb_refl.
  rewrite Z.div_mul by assumption. reflexivity.
Qed.

Lemma credit_cost_of_quotient (q : number) :
  match q with S754_zero s | S754_infinity s | S754_finite s _ _ => s = false | S754_nan => True end ->
  valid_binary prec emax q = true ->
  match number_value q with
  | Some v => number_to_Z (Math_max one (Math_ceil q)) = Some (Z.max 1 (Qceiling v))
  | None => Math_max one (Math_ceil q) = q
  end.
Proof.
  destruct q as [s|s| |s m e]; intros Hs Hv; subst; try reflexivity.
  unfold number_value, Math_ceil, valid_binary in *.
  change (cond_Zopp false (Z.pos m)) with (Z.pos m).
  destruct (Z.leb_spec 0 e) as [He|He].
  - (* an integer already *)
    rewrite Math_max_one_above by lia. rewrite number_to_Z_integer by assumption.
    f_equal. unfold Qceiling, Qfloor, inject_Z, Qopp, Qnum, Qden.
    rewrite Z.div_1_r.
    assert (0 < 2 ^ e) by (apply Z.pow_pos_nonneg; lia). nia.
  - pose proof (bounded_mantissa _ _ Hv) as Hm.
    rewrite Qceiling_quotient by lia.
    pose proof (ceil_pos_quotient m (- e) ltac:(lia)) as [Hlo Hhi]. specialize (Hhi Hm).
    destruct (- (- Z.pos m / 2 ^ (- e))) as [|p|p] eqn:En; try lia.
    destruct (of_pos_exact false p Hhi) as (m' & e' & -> & He' & Hm' & Hone).
    destruct (Z.eq_dec e' (-52)) as [->|Hne].
    + rewrite (Hone eq_refl) in *. 
      change (Z.pos 1 * 2 ^ (- (-52))) with (Z.pos 4503599627370496) in Hm'.
      injection Hm' as ->. reflexivity.
    + rewrite Math_max_one_above by lia.
      destruct (Z.eq_dec e' 0) as [->|Hne0].
      * rewrite number_to_Z_integer by lia. f_equal.
        change (2 ^ (- 0)) with 1 in Hm'. change (2 ^ 0) with 1. lia.
      * rewrite (number_to_Z_scaled m' p e') by (assumption || lia). f_equal. lia.
Qed.

(** *** Division rounds between the integers that enclose the quotient *)

Lemma Zdigits2_upper (m d : Z) : 0 <= m < 2 ^ d -> 0 <= d -> Zdigits2 m <= d.
Proof.
  intros [Hm Hlt] Hd. destruct m as [|p|p]; [simpl; lia| |lia].
  simpl. pose proof (digits2_pos_bounds p) as [Hlo _].
  destruct (Z_le_gt_dec (Zpos (digits2_pos p)) d) as [|Hgt]; [assumption|exfalso].
  assert (2 ^ d <= 2 ^ (Zpos (digits2_pos p) - 1)) by (apply Z.pow_le_mono_r; lia).
  lia.
Qed.

Lemma iter_pos_nat {A} (f : A -> A) (p : positive) (x : A) :
  SpecFloat.iter_pos f p x = Nat.iter (Pos.to_nat p) f x.
Proof.
  revert x. induction p as [p IH|p IH|]; intros x; cbn [SpecFloat.iter_pos].
  - rewrite !IH, Pos2Nat.inj_xI. cbn [Nat.iter Nat.mul].
    replace (S (Pos.to_nat p + (Pos.to_nat p + 0)))%nat
      with (Pos.to_nat p + S (Pos.to_nat p))%nat by lia.
    rewrite Nat.iter_add. cbn [Nat.iter]. f_equal.
    now rewrite <- Nat.iter_succ_r.
  - rewrite !IH, Pos2Nat.inj_xO.
    replace (2 * Pos.to_nat p)%nat with (Pos.to_nat p + Pos.to_nat p)%nat by lia.
    now rewrite Nat.iter_add.
  - reflexivity.
Qed.

Lemma shr_1_m (r : shr_record) : 0 <= shr_m r -> shr_m (shr_1 r) = shr_m r / 2.
Proof.
  destruct r as [m r s]. cbn [shr_m]. intros Hm. unfold shr_1.
  destruct m as [|[p|p|]|p]; cbn [shr_m]; try lia; rewrite <- Z.div2_div; reflexivity.
Qed.

Lemma shr_1_exact (r : shr_record) :
  0 <= shr_m r -> exact_record r -> shr_m r mod 2 = 0 -> exact_record (shr_1 r).
Proof.
  destruct r as [m r s]. cbn [shr_m]. intros Hm [Hr Hs] Heven. cbn in Hr, Hs. subst.
  unfold shr_1, exact_record.
  destruct m as [|[p|p|]|p]; cbn; try (split; reflexivity); try lia.
  - rewrite Pos2Z.inj_xI in Heven.
    replace (2 * Z.pos p + 1) with (1 + Z.pos p * 2) in Heven by lia.
    rewrite Z.mod_add in Heven by lia. discriminate Heven.
  - discriminate Heven.
Qed.

Lemma shr_iter_m (n : nat) (r : shr_record) :
  0 <= shr_m r ->
  shr_m (Nat.iter n shr_1 r) = shr_m r / 2 ^ Z.of_nat n.
Proof.
  intros Hm. induction n as [|n IH].
  - cbn. now rewrite Z.div_1_r.
  - change (Nat.iter (S n) shr_1 r) with (shr_1 (Nat.iter n shr_1 r)). rewrite shr_1_m.
    + rewrite IH, Nat2Z.inj_succ, Z.pow_succ_r by lia.
      rewrite Z.div_div by (try apply Z.pow_pos_nonneg; lia). f_equal. lia.
    + rewrite IH. apply Z.div_pos; [lia|apply Z.pow_pos_nonneg; lia].
Qed.

Lemma shr_iter_exact (n : nat) (r : shr_record) :
  0 <= shr_m r -> exact_record r -> shr_m r mod 2 ^ Z.of_nat n = 0 ->
  exact_record (Nat.iter n shr_1 r).
Proof.
  intros Hm Hex. induction n as [|n IH]; intros Hdiv; [exact Hex|].
  change (Nat.iter (S n) shr_1 r) with (shr_1 (Nat.iter n shr_1 r)).
  assert (Hp : 0 < 2 ^ Z.of_nat n) by (apply Z.pow_pos_nonneg; lia).
  rewrite Nat2Z.inj_succ, Z.pow_succ_r in Hdiv by lia.
  apply Z.mod_divide in Hdiv; [|lia]. destruct Hdiv as [k Hk].
  assert (Hn : shr_m r mod 2 ^ Z.of_nat n = 0).
  { apply Z.mod_divide; [lia|]. exists (k * 2). lia. }
  apply shr_1_exact.
  - rewrite shr_iter_m by assumption. apply Z.div_pos; lia.
  - apply IH. exact Hn.
  - rewrite shr_iter_m by assumption. rewrite Hk.
    replace (k * (2 * 2 ^ Z.of_nat n)) with ((k * 2) * 2 ^ Z.of_nat n) by lia.
    rewrite Z.div_mul by lia. apply Z.mod_mul. lia.
Qed.

Lemma loc_of_record_of_loc (m : Z) (l : location) :
  loc_of_shr_record (shr_record_of_loc m l) = l.
Proof. destruct l as [|[]]; reflexivity. Qed.

Lemma exact_record_loc (r : shr_record) : exact_record r -> loc_of_shr_record r = loc_Exact.
Proof. destruct r as [m r s]. intros [H1 H2]. cbn in *. subst. reflexivity. Qed.

(** [shr_fexp]: the mantissa is divided by the power of two that brings
    the exponent to its canonical place, and an exact mantissa that this
    power divides stays exact. *)
Lemma shr_fexp_spec (m e : Z) (l : location) :
  0 <= m ->
  let n := Z.max 0 (fexp prec emax (Zdigits2 m + e) - e) in
  let '(r, e1) := shr_fexp prec emax m e l in
  e1 = e + n /\ shr_m r = m / 2 ^ n /\
  (l = loc_Exact -> m mod 2 ^ n = 0 -> loc_of_shr_record r = loc_Exact).
Proof.
  intros Hm n. unfold shr_fexp, shr. subst n.
  destruct (fexp prec emax (Zdigits2 m + e) - e) as [|p|p] eqn:En.
  - cbn [Z.max]. rewrite Z.add_0_r, Z.pow_0_r, Z.div_1_r.
    repeat split.
    + destruct l as [|[]]; reflexivity.
    + intros -> _. reflexivity.
  - rewrite Z.max_r by lia. rewrite iter_pos_nat.
    assert (Hr : 0 <= shr_m (shr_record_of_loc m l)) by (destruct l as [|[]]; exact Hm).
    assert (Em : shr_m (shr_record_of_loc m l) = m) by (destruct l as [|[]]; reflexivity).
    repeat split.
    + rewrite shr_iter_m by exact Hr. now rewrite positive_nat_Z, Em.
    + intros -> Hdiv. apply exact_record_loc. apply shr_iter_exact.
      * exact Hm.
      * split; reflexivity.
      * rewrite positive_nat_Z. exact Hdiv.
  - rewrite Z.max_l by lia. rewrite Z.add_0_r, Z.pow_0_r, Z.div_1_r.
    repeat split.
    + destruct l as [|[]]; reflexivity.
    + intros -> _. reflexivity.
Qed.

Lemma round_nearest_even_between (m : Z) (l : location) :
  m <= round_nearest_even m l <= m + 1 /\ (l = loc_Exact -> round_nearest_even m l = m).
Proof.
  destruct l as [|[]]; cbn; try (destruct (Z.even m)); repeat split; try lia; intros H;
    discriminate H.
Qed.

Lemma fexp_nonpos (d : Z) : d <= 53 -> fexp prec emax d <= 0.
Proof. unfold fexp, emin, prec, emax. lia. Qed.

Lemma digits_below (m e bound : Z) :
  0 <= m -> e <= 0 -> m <= bound * 2 ^ (- e) -> bound <= 2 ^ 52 ->
  Zdigits2 m + e <= 53.
Proof.
  intros Hm He Hle Hb.
  assert (Hp : 0 < 2 ^ (- e)) by (apply Z.pow_pos_nonneg; lia).
  assert (Zdigits2 m <= 53 - e); [|lia].
  apply Zdigits2_upper; [|lia]. split; [exact Hm|].
  replace (53 - e) with (53 + - e) by lia. rewrite Z.pow_add_r by lia.
  change (2 ^ 53) with (2 * 2 ^ 52). nia.
Qed.

(** Rounding a truncated quotient [q * 2^e'] that lies between two
    integers [lo] and [hi] gives a number between them; [hi] is reached
    from below only, and kept when the quotient is [hi] exactly. *)
Lemma round_aux_between (q e' : Z) (lz : location) (lo hi : Z) :
  0 <= q -> e' <= 0 -> 0 <= lo -> hi <= 2 ^ 52 ->
  lo * 2 ^ (- e') <= q ->
  (q < hi * 2 ^ (- e') \/ (q = hi * 2 ^ (- e') /\ lz = loc_Exact)) ->
  match binary_round_aux prec emax false q e' lz with
  | S754_zero false => lo = 0
  | S754_finite false m E => E <= 0 /\ lo * 2 ^ (- E) <= Zpos m <= hi * 2 ^ (- E)
  | _ => False
  end.
Proof.
  intros Hq He' Hlo Hhi Hlow Hup.
  assert (Hqle : q <= hi * 2 ^ (- e')) by (destruct Hup as [H|[H _]]; lia).
  unfold binary_round_aux.
  pose proof (shr_fexp_spec q e' lz Hq) as H1. cbv zeta in H1.
  destruct (shr_fexp prec emax q e' lz) as [r1 E]. destruct H1 as (HE & Hm1 & Hex1).
  set (n := Z.max 0 (fexp prec emax (Zdigits2 q + e') - e')) in *.
  assert (Hn : 0 <= n) by (unfold n; lia).
  assert (HE0 : E <= 0).
  { pose proof (fexp_nonpos _ (digits_below q e' hi Hq He' Hqle Hhi)). unfold n in HE. lia. }
  assert (Hpow : 2 ^ (- e') = 2 ^ (- E) * 2 ^ n).
  { rewrite <- Z.pow_add_r by lia. f_equal. lia. }
  set (A := 2 ^ (- E)) in *. set (P := 2 ^ n) in *.
  assert (HA : 0 < A) by (apply Z.pow_pos_nonneg; lia).
  assert (HP : 0 < P) by (apply Z.pow_pos_nonneg; lia).
  rewrite Hpow in Hlow, Hup, Hqle.
  set (t := shr_m r1) in *.
  assert (Ht : lo * A <= t).
  { rewrite Hm1. apply Z.div_le_lower_bound; [exact HP|]. lia. }
  pose proof (round_nearest_even_between t (loc_of_shr_record r1)) as [[Hr1 Hr2] Hr3].
  set (m1 := round_nearest_even t (loc_of_shr_record r1)) in *.
  assert (Hm1up : m1 <= hi * A).
  { destruct Hup as [Hlt|[Heq Hex]].
    - assert (t < hi * A); [|lia].
      rewrite Hm1. apply Z.div_lt_upper_bound; [exact HP|]. lia.
    - assert (Et : t = hi * A).
      { rewrite Hm1, Heq. replace (hi * (A * P)) with (hi * A * P) by lia.
        apply Z.div_mul. lia. }
      rewrite Hr3; [lia|]. apply Hex1; [exact Hex|].
      rewrite Heq. replace (hi * (A * P)) with (hi * A * P) by lia. apply Z.mod_mul. lia. }
  assert (Hm1lo : lo * A <= m1) by lia.
  assert (Hm1pos : 0 <= m1) by nia.
  pose proof (shr_fexp_spec m1 E loc_Exact Hm1pos) as H2. cbv zeta in H2.
  destruct (shr_fexp prec emax m1 E loc_Exact) as [r2 E2]. destruct H2 as (HE2 & Hm2 & _).
  set (n2 := Z.max 0 (fexp prec emax (Zdigits2 m1 + E) - E)) in *.
  assert (Hn2 : 0 <= n2) by (unfold n2; lia).
  assert (HE20 : E2 <= 0).
  { assert (Hle : m1 <= hi * 2 ^ (- E)) by exact Hm1up.
    pose proof (fexp_nonpos _ (digits_below m1 E hi Hm1pos HE0 Hle Hhi)). unfold n2 in HE2. lia. }
  assert (Hpow2 : A = 2 ^ (- E2) * 2 ^ n2).
  { unfold A. rewrite <- Z.pow_add_r by lia. f_equal. lia. }
  set (B := 2 ^ (- E2)) in *. set (P2 := 2 ^ n2) in *.
  assert (HB : 0 < B) by (apply Z.pow_pos_nonneg; lia).
  assert (HP2 : 0 < P2) by (apply Z.pow_pos_nonneg; lia).
  assert (Hm2lo : lo * B <= shr_m r2).
  { rewrite Hm2. apply Z.div_le_lower_bound; [exact HP2|]. nia. }
  assert (Hm2up : shr_m r2 <= hi * B).
  { rewrite Hm2. apply Z.div_le_upper_bound; [exact HP2|]. nia. }
  destruct (shr_m r2) as [|m|m].
  - nia.
  - unfold prec, emax. destruct (Z.leb_spec E2 (1024 - 53)); [|lia].
    split; [exact HE20|]. split; assumption.
  - nia.
Qed.

Lemma new_location_zero (steps : Z) : new_location steps 0 = loc_Exact.
Proof. unfold new_location, new_location_even, new_location_odd. now destruct (Z.even steps). Qed.

Lemma SFdiv_core_spec (mx my : positive) (ex ey : Z) :
  let e' := Z.min (fexp prec emax (Zdigits2 (Zpos mx) + ex - (Zdigits2 (Zpos my) + ey)))
                  (ex - ey) in
  let a := Zpos mx * 2 ^ (ex - ey - e') in
  SFdiv_core_binary prec emax (Zpos mx) ex (Zpos my) ey =
  (a / Zpos my, e', new_location (Zpos my) (a mod Zpos my)).
Proof.
  intros e' a. unfold SFdiv_core_binary. fold e'.
  assert (Hs : 0 <= ex - ey - e') by (unfold e'; lia).
  assert (Em : match ex - ey - e' with
               | Z0 => Zpos mx
               | Zpos _ => Z.shiftl (Zpos mx) (ex - ey - e')
               | Zneg _ => 0
               end = a).
  { unfold a. destruct (ex - ey - e') as [|p|p] eqn:E.
    - rewrite Z.pow_0_r. lia.
    - rewrite Z.shiftl_mul_pow2 by lia. reflexivity.
    - lia. }
  rewrite Em. unfold Z.div, Z.modulo. destruct (Z.div_eucl a (Zpos my)). reflexivity.
Qed.

(** The rational value of a finite number, as mantissa times a power of
    two. *)
Lemma number_value_finite (m : positive) (e : Z) :
  exists v, number_value (S754_finite false m e) = Some v
            /\ (v == inject_Z (Zpos m) * (2 # 1) ^ e)%Q.
Proof.
  unfold number_value. cbn [cond_Zopp].
  destruct (Z.leb_spec 0 e) as [He|He]; eexists; (split; [reflexivity|]).
  - rewrite inject_Z_mult. rewrite Zpower_Qpower by assumption. reflexivity.
  - assert (Hp : 0 < 2 ^ (- e)) by (apply Z.pow_pos_nonneg; lia).
    assert (E : ((2 # 1) ^ e == / inject_Z (Zpos (Z.to_pos (2 ^ (- e)))))%Q).
    { rewrite Z2Pos.id by exact Hp. rewrite Zpower_Qpower by lia.
      rewrite <- Qpower_opp. now replace (- - e) with e by lia. }
    rewrite E. apply Qmake_Qdiv.
Qed.

Lemma Qpow2_pos (e : Z) : (0 < (2 # 1) ^ e)%Q.
Proof. apply Qpower_0_lt. reflexivity. Qed.

(** Comparing a multiple of one finite number with another, on integers. *)
Lemma scaled_value (m : positive) (e w : Z) (v : Q) :
  (v == inject_Z (Zpos m) * (2 # 1) ^ e)%Q -> 0 <= e + w ->
  (v * (2 # 1) ^ w == inject_Z (Zpos m * 2 ^ (e + w)))%Q.
Proof.
  intros -> Hw. rewrite inject_Z_mult, Zpower_Qpower by assumption.
  rewrite Qpower_plus by discriminate. change (inject_Z 2) with (2 # 1). ring.
Qed.

Lemma le_scaled (mx my : positive) (ex ey k u w : Z) (vp vr : Q) :
  (vp == inject_Z (Zpos mx) * (2 # 1) ^ ex)%Q ->
  (vr == inject_Z (Zpos my) * (2 # 1) ^ ey)%Q ->
  0 <= u -> 0 <= w -> u - w = ex - ey ->
  ((vp <= inject_Z k * vr)%Q <-> Zpos mx * 2 ^ u <= k * Zpos my * 2 ^ w)
  /\ ((inject_Z k * vr <= vp)%Q <-> k * Zpos my * 2 ^ w <= Zpos mx * 2 ^ u).
Proof.
  intros Hp Hr Hu Hw Huw.
  pose proof (scaled_value mx ex (u - ex) vp Hp ltac:(lia)) as Ep.
  pose proof (scaled_value my ey (w - ey) vr Hr ltac:(lia)) as Er.
  replace (ex + (u - ex)) with u in Ep by lia.
  replace (ey + (w - ey)) with w in Er by lia.
  replace (w - ey) with (u - ex) in Er by lia.
  pose proof (Qpow2_pos (u - ex)) as Hc.
  split.
  - rewrite <- (Qmult_le_r _ _ _ Hc).
    replace (k * Zpos my * 2 ^ w) with (k * (Zpos my * 2 ^ w)) by lia.
    rewrite Zle_Qle, (inject_Z_mult k), <- Ep, <- Er.
    split; intros H; [rewrite <- Qmult_assoc in H|rewrite <- Qmult_assoc]; exact H.
  - rewrite <- (Qmult_le_r _ _ _ Hc).
    replace (k * Zpos my * 2 ^ w) with (k * (Zpos my * 2 ^ w)) by lia.
    rewrite Zle_Qle, (inject_Z_mult k), <- Ep, <- Er.
    split; intros H; [rewrite <- Qmult_assoc in H|rewrite <- Qmult_assoc]; exact H.
Qed.

(** The binary64 quotient of two positive finite numbers whose exact
    quotient lies between the integers [lo] and [hi], [hi] at most 2^52,
    lies between them as well. *)
Lemma fdiv_between (mx my : positive) (ex ey lo hi : Z) (vp vr : Q) :
  (vp == inject_Z (Zpos mx) * (2 # 1) ^ ex)%Q ->
  (vr == inject_Z (Zpos my) * (2 # 1) ^ ey)%Q ->
  0 <= lo -> hi <= 2 ^ 52 ->
  (inject_Z lo * vr <= vp)%Q -> (vp <= inject_Z hi * vr)%Q ->
  match fdiv (S754_finite false mx ex) (S754_finite false my ey) with
  | S754_zero false => lo = 0
  | S754_finite false m E => E <= 0 /\ lo * 2 ^ (- E) <= Zpos m <= hi * 2 ^ (- E)
  | _ => False
  end.
Proof.
  intros Hp Hr Hlo Hhi Hlow Hup.
  unfold fdiv, SFdiv. cbn [xorb].
  pose proof (SFdiv_core_spec mx my ex ey) as Hcore. cbv zeta in Hcore.
  set (e' := Z.min (fexp prec emax (Zdigits2 (Zpos mx) + ex - (Zdigits2 (Zpos my) + ey)))
                   (ex - ey)) in *.
  set (a := Zpos mx * 2 ^ (ex - ey - e')) in *.
  rewrite Hcore.
  assert (He' : e' <= 0).
  { destruct (Z_le_gt_dec (ex - ey) 0) as [H|H]; [unfold e'; lia|].
    assert (Hz : Zpos mx * 2 ^ (ex - ey) <= hi * Zpos my * 2 ^ 0).
    { apply (proj1 (le_scaled mx my ex ey hi (ex - ey) 0 vp vr Hp Hr
                      ltac:(lia) ltac:(lia) ltac:(lia))). exact Hup. }
    rewrite Z.pow_0_r, Z.mul_1_r in Hz.
    pose proof (digits2_pos_bounds mx) as [Hd1 _].
    pose proof (digits2_pos_bounds my) as [_ Hd2].
    cbn [Zdigits2] in e'.
    set (d1 := Zpos (digits2_pos mx)) in *. set (d2 := Zpos (digits2_pos my)) in *.
    assert (Hd : d1 + ex - (d2 + ey) <= 53).
    { destruct (Z_le_gt_dec (d1 + ex - (d2 + ey)) 53) as [|Hgt]; [assumption|exfalso].
      assert (Hpow : 2 ^ (d1 - 1) * 2 ^ (ex - ey) <= 2 ^ 52 * 2 ^ d2).
      { assert (0 < 2 ^ (ex - ey)) by (apply Z.pow_pos_nonneg; lia).
        assert (0 < 2 ^ d2) by (apply Z.pow_pos_nonneg; unfold d2; lia).
        assert (0 < Zpos my) by lia. nia. }
      rewrite <- !Z.pow_add_r in Hpow by (unfold d1, d2; lia).
      apply Z.pow_le_mono_r_iff in Hpow; [|lia|unfold d2; lia]. lia. }
    pose proof (fexp_nonpos _ Hd). unfold e'. lia. }
  assert (Hs : 0 <= ex - ey - e') by (unfold e'; lia).
  destruct (le_scaled mx my ex ey hi (ex - ey - e') (- e') vp vr Hp Hr Hs ltac:(lia)
              ltac:(lia)) as [Hup' _].
  destruct (le_scaled mx my ex ey lo (ex - ey - e') (- e') vp vr Hp Hr Hs ltac:(lia)
              ltac:(lia)) as [_ Hlow'].
  apply Hup' in Hup. apply Hlow' in Hlow. fold a in Hup, Hlow.
  assert (Hpw : 0 < 2 ^ (- e')) by (apply Z.pow_pos_nonneg; lia).
  assert (Ha : 0 <= a) by (unfold a; assert (0 < 2 ^ (ex - ey - e'))
                             by (apply Z.pow_pos_nonneg; lia); lia).
  apply round_aux_between.
  - apply Z.div_pos; lia.
  - exact He'.
  - exact Hlo.
  - exact Hhi.
  - apply Z.div_le_lower_bound; [lia|]. lia.
  - destruct (Z_lt_le_dec a (hi * 2 ^ (- e') * Zpos my)) as [Hlt|Hge].
    + left. apply Z.div_lt_upper_bound; [lia|]. lia.
    + right. assert (Ea : a = hi * 2 ^ (- e') * Zpos my) by lia.
      split.
      * rewrite Ea. apply Z.div_mul. lia.
      * rewrite Ea, Z.mod_mul by lia. apply new_location_zero.
Qed.

(** The same bounds on the rational value of the quotient. *)
Lemma fdiv_value_between (price rate : number) (lo hi : Z) (vp vr : Q) :
  match price, rate with
  | S754_finite false _ _, S754_finite false _ _ => True
  | _, _ => False
  end ->
  number_value price = Some vp -> number_value rate = Some vr ->
  0 <= lo -> hi <= 2 ^ 52 ->
  (inject_Z lo * vr <= vp)%Q -> (vp <= inject_Z hi * vr)%Q ->
  exists v,
    number_value (fdiv price rate) = Some v
    /\ (inject_Z lo <= v)%Q /\ (v <= inject_Z hi)%Q
    /\ match fdiv price rate with
       | S754_zero s | S754_finite s _ _ => s = false
       | _ => False
       end.
Proof.
  destruct price as [| | |[] mx ex]; try contradiction.
  destruct rate as [| | |[] my ey]; try contradiction.
  intros _ Hvp Hvr Hlo Hhi Hlow Hup.
  destruct (number_value_finite mx ex) as (vp' & Ep & Hp).
  destruct (number_value_finite my ey) as (vr' & Er & Hr).
  rewrite Ep in Hvp. rewrite Er in Hvr. injection Hvp as <-. injection Hvr as <-.
  pose proof (fdiv_between mx my ex ey lo hi vp' vr' Hp Hr Hlo Hhi Hlow Hup) as H.
  assert (Hhi0 : 0 <= hi).
  { destruct (Z_le_gt_dec 0 hi) as [|Hneg]; [assumption|exfalso].
    assert (Hvpos : (0 < vp')%Q).
    { rewrite Hp. apply Qmult_lt_0_compat; [reflexivity|apply Qpow2_pos]. }
    assert (Hvrpos : (0 < vr')%Q).
    { rewrite Hr. apply Qmult_lt_0_compat; [reflexivity|apply Qpow2_pos]. }
    assert (Hh : (inject_Z hi * vr' <= 0)%Q).
    { rewrite <- (Qmult_0_l vr'). apply Qmult_le_compat_r; [|now apply Qlt_le_weak].
      change 0%Q with (inject_Z 0). rewrite <- Zle_Qle. lia. }
    apply (Qlt_irrefl 0%Q). eapply Qlt_le_trans; [exact Hvpos|].
    eapply Qle_trans; [exact Hup|exact Hh]. }
  destruct (fdiv (S754_finite false mx ex) (S754_finite false my ey)) as [[]|[]| |[] m E];
    try contradiction.
  - subst lo. exists (inject_Z 0). split; [reflexivity|].
    split; [apply Qle_refl|]. split; [|reflexivity].
    rewrite <- Zle_Qle. exact Hhi0.
  - destruct H as (HE & Hml & Hmu).
    unfold number_value. cbn [cond_Zopp].
    destruct (Z.leb_spec 0 E) as [HE0|HE0].
    + assert (E = 0) by lia. subst E.
      change (2 ^ (- 0)) with 1 in Hml, Hmu. rewrite Z.mul_1_r in Hml, Hmu.
      exists (inject_Z (Zpos m * 2 ^ 0)). rewrite Z.pow_0_r, Z.mul_1_r.
      split; [reflexivity|]. split; [|split; [|reflexivity]]; rewrite <- Zle_Qle; lia.
    + assert (Hpw : 0 < 2 ^ (- E)) by (apply Z.pow_pos_nonneg; lia).
      exists (Zpos m # Z.to_pos (2 ^ (- E)))%Q.
      split; [reflexivity|]. split; [|split; [|reflexivity]].
      * unfold Qle, inject_Z, Qnum, Qden. rewrite Z2Pos.id by exact Hpw. lia.
      * unfold Qle, inject_Z, Qnum, Qden. rewrite Z2Pos.id by exact Hpw. lia.
Qed.

Lemma credit_cost_of_small_quotient (q : number) (v : Q) (hi : Z) :
  match q with S754_zero s | S754_finite s _ _ => s = false | _ => False end ->
  number_value q = Some v -> (v <= inject_Z hi)%Q -> hi <= 2 ^ 52 ->
  number_to_Z (Math_max one (Math_ceil q)) = Some (Z.max 1 (Qceiling v)).
Proof.
  destruct q as [s|s| |s m e]; intros Hs Hv Hle Hhi; try contradiction; subst s.
  - injection Hv as <-. reflexivity.
  - assert (Hc : Qceiling v <= 2 ^ 52).
    { apply Z.le_trans with (m := hi); [|exact Hhi].
      rewrite <- (Qceiling_Z hi). now apply Qceiling_resp_le. }
    unfold number_value in Hv. unfold Math_ceil. cbn [cond_Zopp] in *.
    destruct (Z.leb_spec 0 e) as [He|He]; injection Hv as <-.
    + rewrite Math_max_one_above by lia. rewrite number_to_Z_integer by assumption.
      f_equal. unfold Qceiling, Qfloor, inject_Z, Qopp, Qnum, Qden.
      rewrite Z.div_1_r.
      assert (0 < 2 ^ e) by (apply Z.pow_pos_nonneg; lia). nia.
    + rewrite Qceiling_quotient in * by lia.
      pose proof (ceil_pos_quotient m (- e) ltac:(lia)) as [Hlo _].
      destruct (- (- Z.pos m / 2 ^ (- e))) as [|p|p] eqn:En; try lia.
      destruct (of_pos_exact false p Hc) as (m' & e' & -> & He' & Hm' & Hone).
      destruct (Z.eq_dec e' (-52)) as [->|Hne].
      * rewrite (Hone eq_refl) in *.
        change (Z.pos 1 * 2 ^ (- (-52))) with (Z.pos 4503599627370496) in Hm'.
        injection Hm' as ->. reflexivity.
      * rewrite Math_max_one_above by lia.
        destruct (Z.eq_dec e' 0) as [->|Hne0].
        -- rewrite number_to_Z_integer by lia. f_equal.
           change (2 ^ (- 0)) with 1 in Hm'. change (2 ^ 0) with 1. lia.
        -- rewrite (number_to_Z_scaled m' p e') by (assumption || lia). f_equal. lia.
Qed.

Lemma finite_positive_value (x : number) :
  finite_positive x -> exists v, number_value x = Some v /\ (0 < v)%Q.
Proof.
  destruct x as [| | |[] m e]; try contradiction. intros _.
  destruct (number_value_finite m e) as (v & E & Hv). exists v. split; [exact E|].
  rewrite Hv. apply Qmult_lt_0_compat; [reflexivity|apply Qpow2_pos].
Qed.

Lemma cost_near_exact_ceiling (price rate : number) (vp vr : Q) :
  finite_positive price -> finite_positive rate ->
  number_value price = Some vp -> number_value rate = Some vr ->
  Qceiling (vp / vr) <= 2 ^ 52 ->
  exists n,
    number_to_Z (calculateCreditCost price rate) = Some n
    /\ (n = Z.max 1 (Qceiling (vp / vr)) \/ n = Z.max 1 (Qceiling (vp / vr) - 1))
    /\ (forall k, (vp == inject_Z k * vr)%Q -> n = Z.max 1 k).
Proof.
  intros Hfp Hfr Hvp Hvr Hc.
  destruct (finite_positive_value price Hfp) as (vp' & Ep & Hppos).
  destruct (finite_positive_value rate Hfr) as (vr' & Er & Hrpos).
  rewrite Ep in Hvp. rewrite Er in Hvr. injection Hvp as ->. injection Hvr as ->.
  assert (Hfin : match price, rate with
                 | S754_finite false _ _, S754_finite false _ _ => True
                 | _, _ => False
                 end).
  { destruct price as [| | |[] ? ?]; try contradiction.
    destruct rate as [| | |[] ? ?]; try contradiction. exact I. }
  assert (Hnz : ~ (vr == 0)%Q) by (intros E; rewrite E in Hrpos; discriminate Hrpos).
  set (c := Qceiling (vp / vr)) in *.
  assert (Hx : (vp == vp / vr * vr)%Q) by (symmetry; rewrite Qmult_comm; apply Qmult_div_r; exact Hnz).
  assert (Hup : (vp <= inject_Z c * vr)%Q).
  { rewrite Hx at 1. apply Qmult_le_compat_r; [apply Qle_ceiling|now apply Qlt_le_weak]. }
  assert (Hlow : (inject_Z (c - 1) * vr <= vp)%Q).
  { rewrite Hx at 1. apply Qmult_le_compat_r; [|now apply Qlt_le_weak].
    apply Qlt_le_weak. apply Qceiling_lt. }
  assert (Hc1 : 1 <= c).
  { assert (Hpos : (0 < vp / vr)%Q).
    { apply Qlt_shift_div_l; [exact Hrpos|]. now rewrite Qmult_0_l. }
    assert (H0 : (inject_Z 0 < inject_Z c)%Q).
    { eapply Qlt_le_trans; [exact Hpos|apply Qle_ceiling]. }
    rewrite <- Zlt_Qlt in H0. lia. }
  destruct (fdiv_value_between price rate (c - 1) c vp vr Hfin Ep Er ltac:(lia) Hc Hlow Hup)
    as (v & Ev & Hvlo & Hvhi & Hsign).
  exists (Z.max 1 (Qceiling v)). split.
  { unfold calculateCreditCost. apply (credit_cost_of_small_quotient _ v c); assumption. }
  assert (Hcv : c - 1 <= Qceiling v <= c).
  { split.
    - rewrite <- (Qceiling_Z (c - 1)). now apply Qceiling_resp_le.
    - rewrite <- (Qceiling_Z c). now apply Qceiling_resp_le. }
  split.
  - destruct (Z.eq_dec (Qceiling v) c) as [->|Hne]; [now left|right].
    replace (Qceiling v) with (c - 1) by lia. reflexivity.
  - intros k Hk.
    assert (Ek : c = k).
    { unfold c. rewrite Hk. rewrite Qdiv_mult_l by exact Hnz. apply Qceiling_Z. }
    assert (Hlowk : (inject_Z k * vr <= vp)%Q) by (rewrite Hk; apply Qle_refl).
    assert (Hupk : (vp <= inject_Z k * vr)%Q) by (rewrite Hk; apply Qle_refl).
    destruct (fdiv_value_between price rate k k vp vr Hfin Ep Er ltac:(lia) ltac:(lia)
                Hlowk Hupk) as (v' & Ev' & Hvlo' & Hvhi' & _).
    rewrite Ev in Ev'. injection Ev' as <-.
    f_equal. apply Z.le_antisymm.
    + rewrite <- (Qceiling_Z k). now apply Qceiling_resp_le.
    + rewrite <- (Qceiling_Z k) at 1. now apply Qceiling_resp_le.
Qed.

(** C8: a zero price costs exactly one credit at every positive rate.  For
    positive price and rate the cost is the integer max(1, ceil(q)), where q
    is the quotient price / rate as the program computes it in binary64;
    when that quotient is not finite (overflow to Infinity, or
    Infinity / Infinity) it is returned unchanged, as max and ceil do.
    Against the exact quotient x of the two finite positive numbers, with
    ceil(x) at most 2^52: the cost is an integer, it is ceil(x) or
    max(1, ceil(x) - 1), and it is x itself when x is an integer. *)
Theorem credit_cost_minimum_and_ceiling :
  (forall (s : bool) (rate : number),
      positive_number rate -> calculateCreditCost (S754_zero s) rate = one)
  /\
  (forall price rate : number,
      positive_number price -> positive_number rate ->
      valid_binary prec emax (fdiv price rate) = true ->
      match number_value (fdiv price rate) with
      | Some quotient =>
          number_to_Z (calculateCreditCost price rate) = Some (Z.max 1 (Qceiling quotient))
      | None => calculateCreditCost price rate = fdiv price rate
      end)
  /\
  (forall (price rate : number) (p r : Q),
      finite_positive price -> finite_positive rate ->
      number_value price = Some p -> number_value rate = Some r ->
      Qceiling (p / r) <= 2 ^ 52 ->
      exists n : Z,
        number_to_Z (calculateCreditCost price rate) = Some n
        /\ (n = Z.max 1 (Qceiling (p / r)) \/ n = Z.max 1 (Qceiling (p / r) - 1))
        /\ (forall k : Z, (p == inject_Z k * r)%Q -> n = Z.max 1 k)).
Proof.
  split; [|split].
  - intros s [| [] | | [] m e]; simpl; try contradiction; intros _; reflexivity.
  - intros price rate Hp Hr Hv. unfold calculateCreditCost.
    apply credit_cost_of_quotient; [|assumption].
    now apply fdiv_positive_sign.
  - apply cost_near_exact_ceiling.
Qed.

Lemma credit_cost_minimum_and_ceiling_witness :
  calculateCreditCost zero (decimal 25 1000) = one /\
  number_to_Z (calculateCreditCost (decimal 2 1000) (decimal 1 1000)) = Some 2 /\
  (exists n : Z,
      number_to_Z (calculateCreditCost (decimal 5 100) (decimal 1 1000)) = Some n
      /\ (n = 51 \/ n = 50)) /\
  (exists n : Z,
      number_to_Z (calculateCreditCost (decimal 3 4) (decimal 1 4)) = Some n /\ n = 3).
Proof.
  destruct credit_cost_minimum_and_ceiling as (Hzero & Hceil & Hexact). split; [|split; [|split]].
  - apply Hzero. vm_compute. exact I.
  - pose proof (Hceil (decimal 2 1000) (decimal 1 1000)) as H.
    assert (Hp : positive_number (decimal 2 1000)) by (vm_compute; exact I).
    assert (Hr : positive_number (decimal 1 1000)) by (vm_compute; exact I).
    assert (Hv : valid_binary prec emax (fdiv (decimal 2 1000) (decimal 1 1000)) = true)
      by (vm_compute; reflexivity).
    specialize (H Hp Hr Hv).
    assert (Hq : number_value (fdiv (decimal 2 1000) (decimal 1 1000)) = Some (4503599627370496 # 2251799813685248)%Q)
      by (vm_compute; reflexivity).
    rewrite Hq in H. exact H.
  - destruct (Hexact (decimal 5 100) (decimal 1 1000)
                (7205759403792794 # 144115188075855872)%Q
                (4611686018427388 # 4611686018427387904)%Q) as (n & Hn & Hnear & _).
    + vm_compute. exact I.
    + vm_compute. exact I.
    + vm_compute. reflexivity.
    + vm_compute. reflexivity.
    + vm_compute. discriminate.
    + exists n. split; [exact Hn|]. exact Hnear.
  - destruct (Hexact (decimal 3 4) (decimal 1 4)
                (6755399441055744 # 9007199254740992)%Q
                (4503599627370496 # 18014398509481984)%Q) as (n & Hn & _ & Hk).
    + vm_compute. exact I.
    + vm_compute. exact I.
    + vm_compute. reflexivity.
    + vm_compute. reflexivity.
    + vm_compute. discriminate.
    + exists n. split; [exact Hn|]. apply (Hk 3). vm_compute. reflexivity.
Defined.

(** The cost can be one credit below the ceiling of the exact quotient: the
    numbers written 0.05 and 0.001 have an exact quotient just above 50,
    whose ceiling is 51; their binary64 quotient is 50 and so is the cost. *)
Lemma credit_cost_below_exact_ceiling :
  let price := decimal 5 100 in
  let rate := decimal 1 1000 in
  number_to_Z (calculateCreditCost price rate) = Some 50 /\
  match number_value price, number_value rate with
  | Some p, Some r => Qceiling (p / r) = 51 /\ (inject_Z 50 < p / r)%Q
  | _, _ => False
  end.
Proof. repeat split; vm_compute; reflexivity. Qed.

(** The quotient is rounded to binary64 before the ceiling is taken: for
    price = 3 + 2^-50 and rate = 1 + 2^-52 the exact quotient lies strictly
    above 3, the binary64 quotient is 3, and the cost is 3. *)
Lemma credit_cost_rounds_before_ceiling :
  let price := S754_finite false (3 * 2 ^ 51 + 2) (-51) in
  let rate := S754_finite false (2 ^ 52 + 1) (-52) in
  number_to_Z (calculateCreditCost price rate) = Some 3 /\
  match number_value price, number_value rate with
  | Some p, Some r => (inject_Z 3 * r < p)%Q
  | _, _ => False
  end.
Proof. split; vm_compute; reflexivity. Qed.
(** ** The pricing fetch *)

Open Scope nat_scope.

Section PricingFacts.
Variable net : nat -> reply FalPricingResponse.

Lemma io_eta (w : io) : {| sent := sent w; trace := trace w |} = w.
Proof. destruct w; reflexivity. Qed.

(** A settling reply ends the retry loop at once. *)
Lemma retry_answered (fuel : nat) (batch : list jsstring) (acc : list FalPricingItem) (w : io) :
  answered (net (sent w)) = true ->
  retry_loop net (S fuel) batch 0 acc w =
  Some (Returns (acc ++ reply_quotes (net (sent w))), issue (RequestPricing batch) w).
Proof.
  unfold answered, classify. simpl.
  destruct (net (sent w)) as [response|message]; simpl.
  - destruct (prices response); [reflexivity|discriminate].
  - destruct (is_rate_limit message); [discriminate|].
    destruct (is_not_found message); [|discriminate].
    now rewrite app_nil_r.
Qed.

Lemma rate_limited_inv (r : reply FalPricingResponse) :
  rate_limited r = true -> r = Rejected (message_of r) /\ is_rate_limit (message_of r) = true.
Proof.
  unfold rate_limited, classify. destruct r as [response|message]; simpl.
  - destruct (prices response); discriminate.
  - destruct (is_rate_limit message); [auto|]. destruct (is_not_found message); discriminate.
Qed.

(** Four rate-limit signals in a row: three waits, then the throw. *)
Lemma retry_rate_limited (fuel : nat) (batch : list jsstring) (acc : list FalPricingItem)
    (w : io) :
  (forall n, (n < 4)%nat -> rate_limited (net (sent w + n)) = true) ->
  retry_loop net (4 + fuel) batch 0 acc w =
  Some (Throws (message_of (net (sent w + 3))),
        {| sent := sent w + 4; trace := trace w ++ backoff batch |}).
Proof.
  intros H.
  destruct (rate_limited_inv _ (H 0%nat ltac:(lia))) as [E0 R0].
  destruct (rate_limited_inv _ (H 1%nat ltac:(lia))) as [E1 R1].
  destruct (rate_limited_inv _ (H 2%nat ltac:(lia))) as [E2 R2].
  destruct (rate_limited_inv _ (H 3%nat ltac:(lia))) as [E3 R3].
  rewrite Nat.add_0_r in E0, R0.
  replace (sent w + 1)%nat with (S (sent w)) in * by lia.
  replace (sent w + 2)%nat with (S (S (sent w))) in * by lia.
  replace (sent w + 3)%nat with (S (S (S (sent w)))) in * by lia.
  simpl. rewrite E0, R0. simpl. rewrite E1, R1. simpl. rewrite E2, R2. simpl.
  rewrite E3, R3. simpl.
  replace (sent w + 4)%nat with (S (S (S (S (sent w))))) by lia.
  unfold issue, emit, backoff. cbn [sent trace]. rewrite <- !app_assoc. reflexivity.
Qed.

Lemma batch_count_zero (n : nat) : batch_count n = 0%nat <-> n = 0%nat.
Proof.
  unfold batch_count. split; intros H; [|subst; reflexivity].
  destruct n; [reflexivity|exfalso].
  assert (1 <= (S n + 49) / 50)%nat; [|lia].
  apply Nat.div_le_lower_bound; lia.
Qed.

Lemma batch_count_step (n : nat) : (0 < n)%nat -> batch_count n = S (batch_count (n - 50)).
Proof.
  unfold batch_count. intros Hn.
  destruct (Nat.le_gt_cases 50 n) as [H|H].
  - replace (n + 49)%nat with ((n - 50 + 49) + 1 * 50)%nat by lia.
    rewrite Nat.div_add by lia. lia.
  - replace (n - 50)%nat with 0%nat by lia.
    change ((0 + 49) / 50)%nat with 0%nat.
    assert ((n + 49) / 50 < 2)%nat by (apply Nat.Div0.div_lt_upper_bound; lia).
    assert (1 <= (n + 49) / 50)%nat by (apply Nat.div_le_lower_bound; lia).
    lia.
Qed.

(** While batches are settled at the first attempt, the loop moves on by
    one request and one pause per batch. *)
Lemma batch_loop_prefix (ids : list jsstring) (j : nat) :
  forall (fuel i : nat) (acc : list FalPricingItem) (w : io),
    (i + 50 * j < length ids)%nat ->
    (forall n, (n < j)%nat -> answered (net (sent w + n)) = true) ->
    batch_loop net (j + fuel) ids i acc w =
    batch_loop net fuel ids (i + 50 * j) (acc ++ collected net (sent w) j)
      {| sent := sent w + j; trace := trace w ++ paused (batches_from j ids i) |}.
Proof.
  induction j as [|j IH]; intros fuel i acc w Hlen Hans.
  - unfold collected, paused. simpl. rewrite !app_nil_r, !Nat.add_0_r.
    now rewrite io_eta.
  - change (S j + fuel)%nat with (S (j + fuel)).
    cbn [batch_loop].
    destruct (Nat.ltb_spec i (length ids)) as [_|]; [|lia].
    rewrite retry_answered by (rewrite <- (Nat.add_0_r (sent w)); apply Hans; lia).
    unfold batchSize.
    destruct (Nat.ltb_spec (i + 50) (length ids)) as [_|]; [|lia].
    rewrite IH.
    + f_equal.
      * lia.
      * unfold collected. cbn [seq List.map flat_map]. cbn [issue emit sent].
        now rewrite <- app_assoc.
      * unfold issue, emit, paused. cbn [sent trace batches_from flat_map].
        f_equal; [lia|]. rewrite <- !app_assoc. reflexivity.
    + lia.
    + intros n Hn. cbn [issue emit sent].
      replace (S (sent w) + n)%nat with (sent w + S n)%nat by lia. apply Hans. lia.
Qed.

Lemma batch_loop_done (ids : list jsstring) (fuel i : nat) (acc : list FalPricingItem) (w : io) :
  (length ids <= i)%nat -> batch_loop net (S fuel) ids i acc w = Some (Returns acc, w).
Proof.
  intros H. cbn [batch_loop]. destruct (Nat.ltb_spec i (length ids)); [lia|reflexivity].
Qed.

(** The last batch, settled at the first attempt: no pause follows. *)
Lemma batch_loop_last (ids : list jsstring) (fuel i : nat) (acc : list FalPricingItem) (w : io) :
  (i < length ids)%nat -> (length ids <= i + 50)%nat -> (2 <= fuel)%nat ->
  answered (net (sent w)) = true ->
  batch_loop net fuel ids i acc w =
  Some (Returns (acc ++ reply_quotes (net (sent w))),
        issue (RequestPricing (slice i (i + 50) ids)) w).
Proof.
  intros Hi Hlast Hfuel Hans.
  destruct fuel as [|[|fuel]]; try lia.
  change (batch_loop net (S (S fuel)) ids i acc w) with
    (if (i <? length ids)%nat then
       match retry_loop net (S (S fuel)) (slice i (i + batchSize) ids) 0 acc w with
       | None => None
       | Some (Throws m, w1) => Some (Throws m, w1)
       | Some (Returns allPrices1, w1) =>
           batch_loop net (S fuel) ids (i + batchSize) allPrices1
             (if (i + batchSize <? length ids)%nat then emit (Sleep 5000) w1 else w1)
       end
     else Some (Returns acc, w)).
  destruct (Nat.ltb_spec i (length ids)) as [_|]; [|lia].
  rewrite retry_answered by assumption. unfold batchSize.
  destruct (Nat.ltb_spec (i + 50) (length ids)) as [|_]; [lia|].
  apply batch_loop_done. lia.
Qed.

Lemma batch_index_in_range (n j : nat) : (j < batch_count n)%nat -> (50 * j < n)%nat.
Proof.
  unfold batch_count. intros H.
  pose proof (Nat.div_mod_eq (n + 49) 50) as E.
  pose proof (Nat.mod_upper_bound (n + 49) 50 ltac:(lia)). lia.
Qed.

Lemma batch_count_covers (n : nat) : (n <= 50 * batch_count n)%nat.
Proof.
  unfold batch_count.
  pose proof (Nat.div_mod_eq (n + 49) 50) as E.
  pose proof (Nat.mod_upper_bound (n + 49) 50 ltac:(lia)). lia.
Qed.

Lemma paced_snoc (ids : list jsstring) (j : nat) :
  forall i,
    paced (batches_from (S j) ids i) =
    paused (batches_from j ids i) ++ [RequestPricing (slice (i + 50 * j) (i + 50 * j + 50) ids)].
Proof.
  induction j as [|j IH]; intros i.
  - simpl. now rewrite !Nat.add_0_r.
  - change (batches_from (S (S j)) ids i)
      with (slice i (i + 50) ids :: batches_from (S j) ids (i + 50)).
    cbn [paced]. change (batches_from (S j) ids (i + 50))
      with (slice (i + 50) (i + 50 + 50) ids :: batches_from j ids (i + 50 + 50)) at 1.
    cbv iota.
    change (slice (i + 50) (i + 50 + 50) ids :: batches_from j ids (i + 50 + 50))
      with (batches_from (S j) ids (i + 50)).
    rewrite IH. unfold paused. cbn [batches_from flat_map app].
    replace (i + 50 * S j)%nat with (i + 50 + 50 * j)%nat by lia. reflexivity.
Qed.

Lemma length_batches_from (ids : list jsstring) (c : nat) :
  forall i, length (batches_from c ids i) = c.
Proof. induction c; intros i; simpl; [reflexivity|]. now rewrite IHc. Qed.

Lemma firstn_plus {A} (a b : nat) (l : list A) :
  firstn (a + b) l = firstn a l ++ firstn b (skipn a l).
Proof.
  revert l. induction a as [|a IH]; intros l; [reflexivity|].
  destruct l as [|x l]; simpl.
  - now destruct b.
  - now rewrite IH.
Qed.

Lemma concat_batches_from (ids : list jsstring) (c : nat) :
  forall i, concat (batches_from c ids i) = slice i (i + 50 * c) ids.
Proof.
  induction c as [|c IH]; intros i.
  - unfold slice. simpl. now replace (i + 0 - i)%nat with 0%nat by lia.
  - cbn [batches_from concat]. rewrite IH. unfold slice.
    replace (i + 50 - i)%nat with 50%nat by lia.
    replace (i + 50 + 50 * c - (i + 50))%nat with (50 * c)%nat by lia.
    replace (i + 50 * S c - i)%nat with (50 + 50 * c)%nat by lia.
    rewrite firstn_plus. f_equal. f_equal.
    rewrite skipn_skipn. f_equal. lia.
Qed.

Lemma batches_sizes (ids : list jsstring) (c : nat) :
  forall i, Forall (fun b => (length b <= 50)%nat) (batches_from c ids i).
Proof.
  induction c as [|c IH]; intros i; constructor; [|apply IH].
  unfold slice. rewrite length_firstn. lia.
Qed.

Lemma collected_snoc (from count : nat) :
  collected net from (S count) = collected net from count ++ reply_quotes (net (from + count)).
Proof.
  unfold collected. rewrite seq_S, List.map_app, flat_map_app. simpl.
  now rewrite app_nil_r.
Qed.
End PricingFacts.

(** C6: when every batch is settled by the reply to its first request (a
    price list or a not-found signal), the pricing fetch returns after
    exactly ceil(N/50) requests, one per slice of at most 50 consecutive ids
    in list order, with a 5 s pause between batches; the result holds the
    sanitized quotes of the replies in order, a not-found reply adding none. *)
Theorem pricing_one_request_per_batch
    (net : nat -> reply FalPricingResponse) (endpointIds : list jsstring) (fuel : nat) :
  (forall n, (n < batch_count (length endpointIds))%nat -> answered (net n) = true) ->
  (batch_count (length endpointIds) < fuel)%nat ->
  fetchPricing net fuel endpointIds io0 =
    Some (Returns (collected net 0 (batch_count (length endpointIds))),
          {| sent := batch_count (length endpointIds);
             trace := paced (batches endpointIds) |})
  /\ length (batches endpointIds) = batch_count (length endpointIds)
  /\ concat (batches endpointIds) = endpointIds
  /\ Forall (fun b => (length b <= 50)%nat) (batches endpointIds).
Proof.
  intros Hans Hfuel. unfold batches. repeat split.
  - unfold fetchPricing.
    destruct (batch_count (length endpointIds)) as [|j] eqn:Ek.
    + apply (proj1 (batch_count_zero _)) in Ek. apply (proj1 (length_zero_iff_nil _)) in Ek. subst.
      destruct fuel as [|fuel]; [lia|]. reflexivity.
    + assert (Hj : (50 * j < length endpointIds)%nat)
        by (apply batch_index_in_range; lia).
      pose proof (batch_count_covers (length endpointIds)) as Hcov. rewrite Ek in Hcov.
      replace fuel with (j + S (fuel - j - 1))%nat by lia.
      rewrite batch_loop_prefix by (simpl; auto with lia).
      rewrite batch_loop_last.
      * rewrite collected_snoc, (paced_snoc endpointIds j 0).
        unfold issue, io0. cbn [sent trace app Nat.add]. repeat f_equal; lia.
      * cbn [Nat.add]. lia.
      * cbn [Nat.add]. lia.
      * lia.
      * unfold io0. cbn [sent Nat.add]. apply Hans. lia.
  - apply length_batches_from.
  - rewrite concat_batches_from. unfold slice. simpl.
    rewrite Nat.sub_0_r. apply firstn_all2. apply batch_count_covers.
  - apply batches_sizes.
Qed.

Lemma pricing_one_request_per_batch_witness :
  let net := fun n : nat =>
    match n with
    | 0%nat => Rejected (lit "FAL API Error (404): Endpoint not found")
    | _ => Resolved {| prices := Some []; pricing_next_cursor := None;
                       pricing_has_more := false |}
    end in
  fetchPricing net 3 (repeat (lit "fal-ai/flux") 51) io0 =
    Some (Returns [],
          {| sent := 2;
             trace := [ RequestPricing (repeat (lit "fal-ai/flux") 50); Sleep 5000;
                        RequestPricing [lit "fal-ai/flux"] ] |}).
Proof.
  intros net.
  assert (Hans : forall n, (n < batch_count (length (repeat (lit "fal-ai/flux") 51)))%nat ->
                           answered (net n) = true).
  { intros [|n] _; reflexivity. }
  assert (Hfuel : (batch_count (length (repeat (lit "fal-ai/flux") 51)) < 3)%nat)
    by (vm_compute; lia).
  destruct (pricing_one_request_per_batch net (repeat (lit "fal-ai/flux") 51) 3 Hans Hfuel)
    as [Hrun _].
  exact Hrun.
Defined.

(** C5: a batch whose request meets the rate-limit signal four times in a
    row is retried after waits of exactly 2000, 4000 and 8000 ms, in that
    order, and the fourth signal ends the whole pricing fetch with that
    failure; this holds for the batch at any position [j], once the batches
    before it have been settled. *)
Theorem rate_limit_backoff_schedule
    (net : nat -> reply FalPricingResponse) (endpointIds : list jsstring) (j fuel : nat) :
  (j < batch_count (length endpointIds))%nat ->
  (forall n, (n < j)%nat -> answered (net n) = true) ->
  (forall n, (n < 4)%nat -> rate_limited (net (j + n)) = true) ->
  (j + 4 <= fuel)%nat ->
  fetchPricing net fuel endpointIds io0 =
    Some (Throws (failed_pricing (message_of (net (j + 3)))),
          {| sent := j + 4;
             trace := paused (batches_from j endpointIds 0)
                      ++ backoff (slice (50 * j) (50 * j + 50) endpointIds) |}).
Proof.
  intros Hj Hans Hrl Hfuel. apply batch_index_in_range in Hj.
  unfold fetchPricing.
  replace fuel with (j + S (3 + (fuel - j - 4)))%nat by lia.
  rewrite batch_loop_prefix by (simpl; auto with lia).
  cbn [batch_loop]. unfold io0. cbn [sent trace Nat.add app].
  destruct (Nat.ltb_spec (50 * j) (length endpointIds)) as [_|]; [|lia].
  change (S (S (S (S (fuel - j - 4))))) with (4 + (fuel - j - 4))%nat.
  rewrite retry_rate_limited by (cbn [sent]; assumption).
  cbn [sent trace]. unfold batchSize. rewrite <- ?app_assoc. reflexivity.
Qed.

Lemma rate_limit_backoff_schedule_witness :
  let net := fun _ : nat =>
    @Rejected FalPricingResponse (lit "FAL API Error (429): Rate limit exceeded") in
  fetchPricing net 4 [lit "fal-ai/flux"; lit "fal-ai/veo"] io0 =
    Some (Throws (lit "Failed to fetch pricing: FAL API Error (429): Rate limit exceeded"),
          {| sent := 4;
             trace := [ RequestPricing [lit "fal-ai/flux"; lit "fal-ai/veo"]; Sleep 2000;
                        RequestPricing [lit "fal-ai/flux"; lit "fal-ai/veo"]; Sleep 4000;
                        RequestPricing [lit "fal-ai/flux"; lit "fal-ai/veo"]; Sleep 8000;
                        RequestPricing [lit "fal-ai/flux"; lit "fal-ai/veo"] ] |}).
Proof.
  intros net.
  apply (rate_limit_backoff_schedule net [lit "fal-ai/flux"; lit "fal-ai/veo"] 0 4).
  - vm_compute. lia.
  - intros n Hn. lia.
  - intros n _. reflexivity.
  - lia.
Defined.

Section PricingTotal.
Variable net : nat -> reply FalPricingResponse.
Hypothesis net_well_formed : forall n, well_formed (net n) = true.

Lemma collected_app (from a b : nat) :
  collected net from (a + b) = collected net from a ++ collected net (from + a) b.
Proof.
  unfold collected. now rewrite seq_app, List.map_app, flat_map_app.
Qed.

Lemma collected_one_empty (n : nat) :
  reply_quotes (net n) = [] -> forall m, collected net n (S m) = collected net (S n) m.
Proof.
  intros H m. unfold collected. cbn [seq List.map flat_map]. now rewrite H.
Qed.

Lemma collected_one (n : nat) : collected net n 1 = reply_quotes (net n).
Proof. unfold collected. simpl. apply app_nil_r. Qed.

(** The retry loop ends within four requests. *)
Lemma retry_loop_total (batch : list jsstring) (k : nat) :
  forall (retries : nat) (acc : list FalPricingItem) (w : io),
    (retries + k = 3)%nat ->
    exists res w',
      (forall fuel, (S k <= fuel)%nat ->
                    retry_loop net fuel batch retries acc w = Some (res, w'))
      /\ (sent w < sent w')%nat
      /\ (forall ps, res = Returns ps ->
                     ps = acc ++ collected net (sent w) (sent w' - sent w)).
Proof.
  induction k as [|k IH]; intros retries acc w Hk.
  - (* the last attempt *)
    assert (retries = 3%nat) by lia. subst retries.
    pose proof (net_well_formed (sent w)) as Hwf. unfold well_formed, classify in Hwf.
    destruct (net (sent w)) as [response|message] eqn:En.
    + destruct (prices response) as [ps|] eqn:Ep; [|discriminate].
      exists (Returns (acc ++ sanitizePrices ps)), (issue (RequestPricing batch) w).
      repeat split.
      * intros [|fuel] Hf; [lia|]. cbn [retry_loop]. rewrite En, Ep. reflexivity.
      * cbn [issue sent]. lia.
      * intros ps' [= <-]. cbn [issue sent].
        replace (S (sent w) - sent w)%nat with 1%nat by lia.
        rewrite collected_one, En. cbn [reply_quotes]. now rewrite Ep.
    + destruct (is_rate_limit message) eqn:Er.
      * exists (Throws message), (issue (RequestPricing batch) w). repeat split.
        -- intros [|fuel] Hf; [lia|]. cbn [retry_loop]. rewrite En, Er. reflexivity.
        -- cbn [issue sent]. lia.
        -- discriminate.
      * destruct (is_not_found message) eqn:Ef.
        -- exists (Returns acc), (issue (RequestPricing batch) w). repeat split.
           ++ intros [|fuel] Hf; [lia|]. cbn [retry_loop]. rewrite En, Er, Ef. reflexivity.
           ++ cbn [issue sent]. lia.
           ++ intros ps' [= <-]. cbn [issue sent].
              replace (S (sent w) - sent w)%nat with 1%nat by lia.
              rewrite collected_one, En. cbn [reply_quotes]. now rewrite app_nil_r.
        -- exists (Throws message), (issue (RequestPricing batch) w). repeat split.
           ++ intros [|fuel] Hf; [lia|]. cbn [retry_loop]. rewrite En, Er, Ef. reflexivity.
           ++ cbn [issue sent]. lia.
           ++ discriminate.
  - assert (Hr : (retries <= 2)%nat) by lia.
    pose proof (net_well_formed (sent w)) as Hwf. unfold well_formed, classify in Hwf.
    assert (Hguard : (retries <=? maxRetries)%nat = true)
      by (apply Nat.leb_le; unfold maxRetries; lia).
    assert (Hguard1 : (S retries <=? maxRetries)%nat = true)
      by (apply Nat.leb_le; unfold maxRetries; lia).
    destruct (net (sent w)) as [response|message] eqn:En.
    + destruct (prices response) as [ps|] eqn:Ep; [|discriminate].
      exists (Returns (acc ++ sanitizePrices ps)), (issue (RequestPricing batch) w).
      repeat split.
      * intros [|fuel] Hf; [lia|]. cbn [retry_loop]. rewrite Hguard, En, Ep. reflexivity.
      * cbn [issue sent]. lia.
      * intros ps' [= <-]. cbn [issue sent].
        replace (S (sent w) - sent w)%nat with 1%nat by lia.
        rewrite collected_one, En. cbn [reply_quotes]. now rewrite Ep.
    + destruct (is_rate_limit message) eqn:Er.
      * destruct (IH (S retries) acc
                    (emit (Sleep (2 ^ Z.of_nat (S retries) * 1000))
                       (issue (RequestPricing batch) w)) ltac:(lia))
          as (res & w' & Hrun & Hsent & Hres).
        cbn [emit issue sent] in Hsent, Hres.
        exists res, w'. repeat split.
        -- intros [|fuel] Hf; [lia|]. cbn [retry_loop].
           rewrite Hguard, En, Er, Hguard1. apply Hrun. lia.
        -- lia.
        -- intros ps Hps. rewrite (Hres ps Hps). f_equal.
           replace (sent w' - sent w)%nat with (S (sent w' - S (sent w))) by lia.
           symmetry. apply collected_one_empty. now rewrite En.
      * destruct (is_not_found message) eqn:Ef.
        -- exists (Returns acc), (issue (RequestPricing batch) w). repeat split.
           ++ intros [|fuel] Hf; [lia|]. cbn [retry_loop].
              rewrite Hguard, En, Er, Ef. reflexivity.
           ++ cbn [issue sent]. lia.
           ++ intros ps' [= <-]. cbn [issue sent].
              replace (S (sent w) - sent w)%nat with 1%nat by lia.
              rewrite collected_one, En. cbn [reply_quotes]. now rewrite app_nil_r.
        -- exists (Throws message), (issue (RequestPricing batch) w). repeat split.
           ++ intros [|fuel] Hf; [lia|]. cbn [retry_loop].
              rewrite Hguard, En, Er, Ef. reflexivity.
           ++ cbn [issue sent]. lia.
           ++ discriminate.
Qed.

(** The batch loop ends: at most four requests per remaining batch. *)
Lemma batch_loop_total (ids : list jsstring) (c : nat) :
  forall (i : nat) (acc : list FalPricingItem) (w : io),
    (length ids <= i + 50 * c)%nat ->
    exists res w',
      (forall fuel, (c + 4 <= fuel)%nat ->
                    batch_loop net fuel ids i acc w = Some (res, w'))
      /\ (sent w <= sent w')%nat
      /\ (forall ps, res = Returns ps ->
                     ps = acc ++ collected net (sent w) (sent w' - sent w)).
Proof.
  induction c as [|c IH]; intros i acc w Hlen.
  - exists (Returns acc), w. repeat split.
    + intros [|fuel] Hf; [lia|]. apply batch_loop_done. lia.
    + lia.
    + intros ps [= <-]. rewrite Nat.sub_diag. unfold collected. simpl. now rewrite app_nil_r.
  - destruct (Nat.le_gt_cases (length ids) i) as [Hdone|Hi].
    + exists (Returns acc), w. repeat split.
      * intros [|fuel] Hf; [lia|]. apply batch_loop_done. lia.
      * lia.
      * intros ps [= <-]. rewrite Nat.sub_diag. unfold collected. simpl.
        now rewrite app_nil_r.
    + destruct (retry_loop_total (slice i (i + batchSize) ids) 3 0 acc w eq_refl)
        as (res1 & w1 & Hrun1 & Hsent1 & Hres1).
      destruct res1 as [acc1|m].
      * set (w2 := if (i + batchSize <? length ids)%nat then emit (Sleep 5000) w1 else w1).
        assert (Hs2 : sent w2 = sent w1) by (unfold w2; destruct (_ <? _)%nat; reflexivity).
        destruct (IH (i + batchSize)%nat acc1 w2 ltac:(unfold batchSize; lia))
          as (res & w' & Hrun & Hsent & Hres).
        exists res, w'. repeat split.
        -- intros [|fuel] Hf; [lia|]. cbn [batch_loop].
           destruct (Nat.ltb_spec i (length ids)) as [_|]; [|lia].
           rewrite Hrun1 by lia. apply Hrun. lia.
        -- lia.
        -- intros ps Hps. rewrite (Hres ps Hps), (Hres1 acc1 eq_refl), Hs2.
           rewrite <- app_assoc. f_equal.
           replace (sent w' - sent w)%nat
             with ((sent w1 - sent w) + (sent w' - sent w1))%nat by lia.
           rewrite collected_app. do 2 f_equal. lia.
      * exists (Throws m), w1. repeat split.
        -- intros [|fuel] Hf; [lia|]. cbn [batch_loop].
           destruct (Nat.ltb_spec i (length ids)) as [_|]; [|lia].
           rewrite Hrun1 by lia. reflexivity.
        -- lia.
        -- discriminate.
Qed.
End PricingTotal.

Section RetryFacts.
Variable net : nat -> reply FalPricingResponse.

(** Rate-limit signals within the allowance, then a settling reply. *)
Lemma retry_loop_recovers (batch : list jsstring) (r : nat) :
  forall (fuel retries : nat) (acc : list FalPricingItem) (w : io),
    retries + r <= 3 ->
    (forall n, n < r -> rate_limited (net (sent w + n)) = true) ->
    answered (net (sent w + r)) = true ->
    r < fuel ->
    retry_loop net fuel batch retries acc w =
    Some (Returns (acc ++ reply_quotes (net (sent w + r))),
          {| sent := sent w + r + 1; trace := trace w ++ retried batch retries r |}).
Proof.
  induction r as [|r IH]; intros fuel retries acc w Hr Hrl Hans Hfuel.
  - destruct fuel as [|fuel]; [lia|]. rewrite Nat.add_0_r in *.
    cbn [retry_loop].
    assert (Hg : (retries <=? maxRetries) = true) by (apply Nat.leb_le; unfold maxRetries; lia).
    rewrite Hg. unfold answered, classify in Hans.
    destruct (net (sent w)) as [response|message]; cbn [reply_quotes].
    + destruct (prices response); [|discriminate].
      unfold issue. cbn [retried]. rewrite ?Nat.add_1_r. reflexivity.
    + destruct (is_rate_limit message); [discriminate|].
      destruct (is_not_found message); [|discriminate].
      unfold issue. cbn [retried]. rewrite ?Nat.add_1_r. rewrite ?app_nil_r. reflexivity.
  - destruct fuel as [|fuel]; [lia|].
    cbn [retry_loop].
    assert (Hg : (retries <=? maxRetries) = true) by (apply Nat.leb_le; unfold maxRetries; lia).
    assert (Hg1 : (S retries <=? maxRetries) = true)
      by (apply Nat.leb_le; unfold maxRetries; lia).
    rewrite Hg.
    destruct (rate_limited_inv _ (Hrl 0 ltac:(lia))) as [E R].
    rewrite Nat.add_0_r in E, R. rewrite E, R, Hg1.
    rewrite IH.
    + unfold issue, emit. cbn [sent trace retried].
      replace (S (sent w) + r) with (sent w + S r) by lia.
      rewrite <- !app_assoc. reflexivity.
    + lia.
    + intros n Hn. cbn [emit issue sent].
      replace (S (sent w) + n) with (sent w + S n) by lia. apply Hrl. lia.
    + cbn [emit issue sent]. replace (S (sent w) + r) with (sent w + S r) by lia. exact Hans.
    + lia.
Qed.

Lemma collected_skip (from r : nat) :
  (forall n, n < r -> rate_limited (net (from + n)) = true) ->
  collected net from (r + 1) = reply_quotes (net (from + r)).
Proof.
  revert from. induction r as [|r IH]; intros from H.
  - unfold collected. cbn. now rewrite Nat.add_0_r, app_nil_r.
  - cbn [Nat.add]. unfold collected. cbn [seq List.map flat_map].
    destruct (rate_limited_inv _ (H 0 ltac:(lia))) as [E _]. rewrite Nat.add_0_r in E.
    rewrite E. cbn [reply_quotes app]. fold (collected net (S from) (r + 1)).
    rewrite IH.
    + f_equal. f_equal. lia.
    + intros n Hn. replace (S from + n) with (from + S n) by lia. apply H. lia.
Qed.

Lemma batch_loop_schedule (ids : list jsstring) (rs : list nat) :
  forall (fuel i : nat) (acc : list FalPricingItem) (w : io),
    length rs = batch_count (length ids - i) ->
    settles net (sent w) rs ->
    length rs + 4 <= fuel ->
    batch_loop net fuel ids i acc w =
    Some (Returns (acc ++ collected net (sent w) (attempts rs)),
          {| sent := sent w + attempts rs;
             trace := trace w ++ schedule (batches_from (length rs) ids i) rs |}).
Proof.
  induction rs as [|r rs IH]; intros fuel i acc w Hlen Hset Hfuel.
  - destruct fuel as [|fuel]; [simpl in Hfuel; lia|].
    symmetry in Hlen. apply (proj1 (batch_count_zero _)) in Hlen.
    rewrite batch_loop_done by lia.
    unfold attempts, collected. cbn. now rewrite !app_nil_r, Nat.add_0_r, io_eta.
  - destruct fuel as [|fuel]; [simpl in Hfuel; lia|].
    destruct Hset as (Hr & Hrl & Hans & Hrest).
    cbn [length] in Hlen, Hfuel.
    assert (Hi : i < length ids).
    { destruct (Nat.le_gt_cases (length ids) i) as [H|H]; [|exact H].
      replace (length ids - i) with 0 in Hlen by lia. discriminate Hlen. }
    rewrite batch_count_step in Hlen by lia.
    change (batch_loop net (S fuel) ids i acc w) with
      (if (i <? length ids) then
         match retry_loop net (S fuel) (slice i (i + batchSize) ids) 0 acc w with
         | None => None
         | Some (Throws m, w1) => Some (Throws m, w1)
         | Some (Returns allPrices1, w1) =>
             batch_loop net fuel ids (i + batchSize) allPrices1
               (if (i + batchSize <? length ids) then emit (Sleep 5000) w1 else w1)
         end
       else Some (Returns acc, w)).
    destruct (Nat.ltb_spec i (length ids)) as [_|]; [|lia].
    rewrite (retry_loop_recovers _ r (S fuel) 0 acc w) by (assumption || lia).
    unfold batchSize.
    rewrite <- (collected_skip (sent w) r Hrl).
    destruct (Nat.ltb_spec (i + 50) (length ids)) as [Hmore|Hlast].
    + rewrite IH.
      * unfold emit, attempts. cbn [sent trace List.map list_sum length batches_from schedule].
        assert (E : rs <> []).
        { intros ->. cbn in Hlen. injection Hlen as Hlen. symmetry in Hlen.
          apply (proj1 (batch_count_zero _)) in Hlen. lia. }
        destruct rs as [|r' rs']; [congruence|].
        cbn [length batches_from].
        rewrite <- !app_assoc.
        set (L := list_sum (List.map S (r' :: rs'))).
        change (list_sum (S r :: List.map S (r' :: rs'))) with (S r + L).
        replace (S r + L) with ((r + 1) + L) by lia.
        rewrite (collected_app net (sent w) (r + 1) L), !Nat.add_assoc. reflexivity.
      * injection Hlen as Hlen. rewrite Hlen. f_equal. lia.
      * cbn [emit sent]. exact Hrest.
      * lia.
    + assert (rs = []) as ->.
      { injection Hlen as Hlen. replace (length ids - i - 50) with 0 in Hlen by lia.
        destruct rs; [reflexivity|discriminate]. }
      destruct fuel as [|fuel]; [simpl in Hfuel; lia|].
      rewrite batch_loop_done by lia.
      unfold attempts. cbn [List.map list_sum length batches_from schedule].
      rewrite !app_nil_r. change (list_sum [S r]) with (S r + 0).
      replace (S r + 0) with (r + 1) by lia. now rewrite Nat.add_assoc.
Qed.






End RetryFacts.

Section OutcomeFacts.
Variable net : nat -> reply FalPricingResponse.
Hypothesis net_well_formed : forall n, well_formed (net n) = true.



End OutcomeFacts.






(** ** The model listing *)

Section ModelsFacts.
Variable net : nat -> reply ModelsPage.

End ModelsFacts.



(** A page that reports [has_more = true] with an empty cursor ends the
    listing: the loop tests the cursor, not the flag. *)
Lemma models_fetch_stops_on_empty_cursor (p : ModelsPage) (fuel : nat) :
  truthy (next_cursor p) = false ->
  fetchModels (fun _ => Resolved p) (S fuel) false io0 =
    Some (Returns (page_models p), {| sent := 1; trace := [RequestModels false None] |}).
Proof.
  intros H. unfold fetchModels, fetchModels_once. cbn [page_loop].
  unfold io0, issue, page_models. cbn [sent trace app].
  destruct (has_more p); [rewrite H|]; destruct (models p); reflexivity.
Qed.

(** A request rejected with status 400 while schemas are requested restarts
    the listing from the first page without them, dropping what was
    fetched. *)
Lemma models_fetch_restarts_without_schemas :
  let page (ms : list (option FalModel)) (c : option jsstring) :=
    {| models := Some ms; next_cursor := c; has_more := bool_decide (c <> None) |} in
  let net := fun n : nat =>
    match n with
    | 0%nat => Resolved (page [remote "a" None None] (Some (lit "c1")))
    | 1%nat => Rejected (lit "FAL API Error (400): expand not supported")
    | 2%nat => Resolved (page [remote "a" None None] (Some (lit "d1")))
    | _ => Resolved (page [remote "b" None None] None)
    end in
  fetchModels net 5 true io0 =
    Some (Returns [remote "a" None None; remote "b" None None],
          {| sent := 4;
             trace := [ RequestModels true None; RequestModels true (Some (lit "c1"));
                        RequestModels false None; RequestModels false (Some (lit "d1")) ] |}).
Proof. reflexivity. Qed.

Close Scope nat_scope.
(** ** The reconciliation loop *)

Section SyncFacts.
Context {St : Type} {store : Store St} {builtins : Builtins} {schemas : SchemaTools}.

Lemma run_ret {A} (P : SyncResult -> Prop) (a : A) Qok Qerr :
  (forall r, P r -> Qok a r) -> run (St := St) P (ret a) Qok Qerr.
Proof. intros H st r Hr. simpl. auto. Qed.

Lemma run_throw {A} (P : SyncResult -> Prop) (e : thrown) (Qok : A -> _) Qerr :
  (forall r, P r -> Qerr r) -> run (St := St) P (throw e) Qok Qerr.
Proof. intros H st r Hr. simpl. auto. Qed.

Lemma run_bind {A B} (P : SyncResult -> Prop) (m : M St A) (k : A -> M St B)
    (Q : A -> SyncResult -> Prop) Qok Qerr :
  run P m Q Qerr -> (forall a, run (Q a) (k a) Qok Qerr) -> run P (bind m k) Qok Qerr.
Proof.
  intros Hm Hk st r Hr. unfold bind. specialize (Hm st r Hr).
  destruct (m (st, r)) as [[e|a] [st' r']]; [assumption|].
  apply Hk. assumption.
Qed.

Lemma run_await (P : SyncResult -> Prop) (q : St -> answer * St) Qerr :
  (forall r, P r -> Qerr r) -> run P (await q) (fun _ => P) Qerr.
Proof.
  intros H st r Hr. unfold await. cbn [fst snd].
  destruct (q st) as [[resp|e] st']; auto.
Qed.

Lemma run_clock (P : SyncResult -> Prop) Qerr :
  run (St := St) P clock (fun _ => P) Qerr.
Proof. intros st r Hr. unfold clock. cbn [fst snd]. destruct (now st). assumption. Qed.

Lemma run_lift {A} (P : SyncResult -> Prop) (x : thrown + A) Qerr :
  (forall r, P r -> Qerr r) -> run (St := St) P (lift x) (fun _ => P) Qerr.
Proof. intros H st r Hr. unfold lift. destruct x; auto. Qed.

Lemma run_update (P Q : SyncResult -> Prop) (f : SyncResult -> SyncResult) Qerr :
  (forall r, P r -> Q (f r)) -> run (St := St) P (update_result f) (fun _ => Q) Qerr.
Proof. intros H st r Hr. simpl. auto. Qed.

Lemma run_post {A} (P : SyncResult -> Prop) (m : M St A)
    (Q Qok : A -> SyncResult -> Prop) Qerr :
  run P m Q Qerr -> (forall a r, Q a r -> Qok a r) -> run P m Qok Qerr.
Proof.
  intros Hm HQ st r Hr. specialize (Hm st r Hr).
  destruct (m (st, r)) as [[e|a] [st' r']]; auto.
Qed.

Variable creditRate : number.
Variable pricingMap : gmap jsstring FalPricingItem.

Lemma progress_interrupted0 r0 r : progress r0 0 0 r -> interrupted r0 r.
Proof. now left. Qed.

Lemma progress_interrupted1 r0 r : progress r0 1 0 r -> interrupted r0 r.
Proof. now right. Qed.

Hint Resolve progress_interrupted0 progress_interrupted1 : core.

Lemma progress_model_added r0 r : progress r0 0 0 r -> progress r0 1 0 (incr_modelsAdded r).
Proof. unfold progress, models_written. cbn. intuition lia. Qed.

Lemma progress_model_updated r0 r : progress r0 0 0 r -> progress r0 1 0 (incr_modelsUpdated r).
Proof. unfold progress, models_written. cbn. intuition lia. Qed.

Lemma progress_parameters r0 n p k r :
  progress r0 n p r -> progress r0 n p (add_parametersAdded k r).
Proof. unfold progress, models_written. cbn. intuition lia. Qed.

Lemma progress_pricing r0 r : progress r0 1 0 r -> progress r0 1 1 (incr_pricingUpdated r).
Proof. unfold progress, models_written. cbn. intuition lia. Qed.

(** What the statements of the [try] block do to the result object. *)
Lemma reconcile_valid_run (fullModelId : jsstring) (md : Metadata) (m : FalModel)
    (r0 : SyncResult) :
  run (progress r0 0 0) (reconcile_valid creditRate pricingMap fullModelId md m)
    (fun _ => progress r0 1 1) (interrupted r0).
Proof.
  unfold reconcile_valid. cbv zeta.
  eapply run_bind; [apply run_await; auto|]. intros existing.
  eapply run_bind; [apply run_clock|]. intros t.
  eapply run_bind with (Q := fun _ => progress r0 1 0).
  { destruct (value_truthy (res_data existing)).
    - eapply run_bind; [apply run_await; auto|]. intros r.
      destruct (res_error r).
      + apply run_throw; auto.
      + apply run_update. apply progress_model_updated.
    - eapply run_bind; [apply run_clock|]. intros t'.
      eapply run_bind; [apply run_await; auto|]. intros r.
      destruct (res_error r).
      + apply run_throw; auto.
      + apply run_update. apply progress_model_added. }
  intros ?.
  eapply run_bind with (Q := fun _ => progress r0 1 0).
  { destruct (value_truthy _).
    - apply run_lift; auto.
    - apply run_ret; auto. }
  intros parameters.
  eapply run_bind; [apply run_await; auto|]. intros ?.
  eapply run_bind with (Q := fun _ => progress r0 1 0).
  { destruct parameters as [|param parameters].
    - apply run_ret; auto.
    - eapply run_bind; [apply run_await; auto|]. intros r.
      destruct (res_error r).
      + apply run_throw; auto.
      + apply run_update. intros r1. apply progress_parameters. }
  intros ?.
  eapply run_bind; [apply run_clock|]. intros t2.
  eapply run_bind; [apply run_await; auto|]. intros existingPricing.
  eapply run_bind with (Q := fun _ => progress r0 1 0).
  { destruct (value_truthy _).
    - eapply run_bind; [apply run_await; auto|]. intros ?. apply run_ret; auto.
    - eapply run_bind; [apply run_clock|]. intros t3.
      eapply run_bind; [apply run_await; auto|]. intros ?. apply run_ret; auto. }
  intros ?. apply run_update. apply progress_pricing.
Qed.

Lemma progress_refl (r : SyncResult) : progress r 0 0 r.
Proof. unfold progress. repeat split; lia. Qed.

(** A throw can only come from a model that passed the validity check, so
    the label of its error entry is its endpoint id. *)
Lemma thrown_model_is_labelled (model : option FalModel) (s s1 : St * SyncResult) (e : thrown) :
  reconcile_body creditRate pricingMap model s = (inl e, s1) ->
  exists m, model = Some m /\ endpoint_id m = Some (model_label model)
            /\ model_label model <> [].
Proof.
  unfold reconcile_body, checked, model_label, update_result.
  destruct model as [m|]; [|intros H; discriminate H].
  destruct (endpoint_id m) as [[|c id]|] eqn:Eid; try (intros H; discriminate H).
  destruct (metadata m); [|intros H; discriminate H].
  intros _. exists m. split; [reflexivity|]. split; [exact Eid|]. intros H; discriminate H.
Qed.

(** One iteration never throws; it either completes the model or appends
    exactly one error entry. *)
Lemma reconcile_effect (model : option FalModel) (st : St) (r : SyncResult) :
  exists st' r',
    reconcile creditRate pricingMap model (st, r) = (inr tt, (st', r')) /\
    (progress r 1 1 r' \/
     (exists entry, errors r' = errors r ++ [entry]) /\
     pricingUpdated r' = pricingUpdated r /\
     (models_written r <= models_written r' <= S (models_written r))%nat /\
     (parametersAdded r <= parametersAdded r')%nat).
Proof.
  unfold reconcile, try_catch, reconcile_body.
  destruct (checked model) as [[[fullModelId md] m]|].
  - pose proof (reconcile_valid_run fullModelId md m r st r (progress_refl r)) as H.
    destruct (reconcile_valid creditRate pricingMap fullModelId md m (st, r))
      as [[e|[]] [st' r']].
    + eexists _, _. split; [reflexivity|]. right. cbn [fst snd push_error errors
        pricingUpdated parametersAdded].
      unfold interrupted, progress, models_written in *. cbn.
      destruct H as [H|H]; destruct H as (He & Hp & Hm & Ha); rewrite He;
        repeat split; eauto; lia.
    + eexists _, _. split; [reflexivity|]. now left.
  - eexists _, _. split; [reflexivity|]. right.
    unfold models_written. cbn. repeat split; eauto; lia.
Qed.

(** The whole loop: it never throws, and every model ends as one more
    pricing record or one more error entry. *)
Lemma processModels_accounting (models : list (option FalModel)) :
  forall (st : St) (r : SyncResult),
  exists st' r',
    processModels creditRate pricingMap models (st, r) = (inr tt, (st', r')) /\
    (pricingUpdated r' + length (errors r') =
     pricingUpdated r + length (errors r) + length models)%nat /\
    (pricingUpdated r' - pricingUpdated r <= models_written r' - models_written r)%nat /\
    (models_written r' <= models_written r + length models)%nat /\
    (pricingUpdated r <= pricingUpdated r')%nat /\
    (models_written r <= models_written r')%nat.
Proof.
  induction models as [|model rest IH]; intros st r.
  - exists st, r. cbn. repeat split; lia.
  - cbn [processModels]. unfold bind.
    destruct (reconcile_effect model st r) as (st1 & r1 & -> & Hstep).
    destruct (IH st1 r1) as (st' & r' & -> & Hsum & Hle & Hmw & Hp & Hm).
    exists st', r'. split; [reflexivity|]. cbn [length].
    destruct Hstep as [(He & Hp1 & Hm1 & Ha1)|((entry & He) & Hp1 & Hm1 & Ha1)].
    + rewrite He in Hsum. repeat split; lia.
    + rewrite He, length_app in Hsum. cbn [length] in Hsum. repeat split; lia.
Qed.

Lemma processModels_app (before after : list (option FalModel)) (s0 s : St * SyncResult) :
  processModels creditRate pricingMap before s0 = (inr tt, s) ->
  processModels creditRate pricingMap (before ++ after) s0 =
  processModels creditRate pricingMap after s.
Proof.
  revert s0. induction before as [|model rest IH]; intros s0.
  - cbn. now intros [= ->].
  - cbn [processModels app]. unfold bind.
    destruct (reconcile creditRate pricingMap model s0) as [[e|[]] s1]; [discriminate|].
    apply IH.
Qed.
End SyncFacts.

(** *** The writes behind the counters *)

Section JournalFacts.
Context {St : Type} {store : Store St} {builtins : Builtins} {schemas : SchemaTools}.

Lemma tally_app (f : write -> nat) (a b : list write) :
  tally f (a ++ b) = (tally f a + tally f b)%nat.
Proof.
  unfold tally. rewrite List.map_app. apply list_sum_app.
Qed.

Lemma tally_snoc (f : write -> nat) (ws : list write) (w : write) :
  tally f (ws ++ [w]) = (tally f ws + f w)%nat.
Proof.
  rewrite tally_app. unfold tally at 2. cbn [List.map].
  change (list_sum [f w]) with (f w + 0)%nat. lia.
Qed.

Lemma counted_nil (r : SyncResult) : counted [] r r.
Proof. unfold counted, tally. cbn. repeat split; lia. Qed.

Lemma counted_app (a b : list write) (r0 r1 r2 : SyncResult) :
  counted a r0 r1 -> counted b r1 r2 -> counted (a ++ b) r0 r2.
Proof. unfold counted. rewrite !tally_app. intuition lia. Qed.

(** A write that threw, or that the store refused outside the pricing
    table, counts for nothing. *)
Lemma counted_neutral (ws : list write) (w : write) (r0 r : SyncResult) :
  w_outcome w = Threw \/ (w_outcome w = Refused /\ w_table w <> model_pricing) ->
  counted ws r0 r -> counted (ws ++ [w]) r0 r.
Proof.
  unfold counted. rewrite !tally_snoc.
  unfold model_inserted, model_updated, parameters_inserted, pricing_settled.
  destruct w as [k t n o]. cbn.
  intros [->|[-> Ht]]; destruct k, t; try congruence; intuition lia.
Qed.

Lemma counted_model_added (ws : list write) (n : nat) (r0 r : SyncResult) :
  counted ws r0 r ->
  counted (ws ++ [{| w_kind := Inserted; w_table := models_table; w_rows := n;
                     w_outcome := Done |}]) r0 (incr_modelsAdded r).
Proof. unfold counted. rewrite !tally_snoc. cbn. intuition lia. Qed.

Lemma counted_model_updated (ws : list write) (n : nat) (r0 r : SyncResult) :
  counted ws r0 r ->
  counted (ws ++ [{| w_kind := Updated; w_table := models_table; w_rows := n;
                     w_outcome := Done |}]) r0 (incr_modelsUpdated r).
Proof. unfold counted. rewrite !tally_snoc. cbn. intuition lia. Qed.

Lemma counted_parameters (ws : list write) (n : nat) (r0 r : SyncResult) :
  counted ws r0 r ->
  counted (ws ++ [{| w_kind := Inserted; w_table := model_parameters; w_rows := n;
                     w_outcome := Done |}]) r0 (add_parametersAdded n r).
Proof. unfold counted. rewrite !tally_snoc. cbn. intuition lia. Qed.

Lemma counted_pricing (ws : list write) (w : write) (r0 r : SyncResult) :
  w_table w = model_pricing -> w_outcome w <> Threw ->
  counted ws r0 r -> counted (ws ++ [w]) r0 (incr_pricingUpdated r).
Proof.
  unfold counted. rewrite !tally_snoc.
  unfold model_inserted, model_updated, parameters_inserted, pricing_settled.
  destruct w as [k t n o]. cbn. intros -> Ho.
  destruct k, o; try congruence; intuition lia.
Qed.

Lemma counted_push_error (ws : list write) (label message : jsstring) (r0 r : SyncResult) :
  counted ws r0 r -> counted ws r0 (push_error label message r).
Proof. unfold counted. cbn. auto. Qed.

Lemma audit_ret {A} (j0 : list write) P (a : A) Qok Qerr :
  (forall ws r, P ws r -> Qok a ws r) -> audit (St := St) j0 P (ret a) Qok Qerr.
Proof. intros H st r ws Hp. cbn. eauto. Qed.

Lemma audit_throw {A} (j0 : list write) P (e : thrown) (Qok : A -> _) Qerr :
  (forall ws r, P ws r -> Qerr ws r) -> audit (St := St) j0 P (throw e) Qok Qerr.
Proof. intros H st r ws Hp. cbn. eauto. Qed.

Lemma audit_bind {A B} (j0 : list write) P (m : M (St * list write) A)
    (k : A -> M (St * list write) B) (Q : A -> list write -> SyncResult -> Prop) Qok Qerr :
  audit j0 P m Q Qerr -> (forall a, audit j0 (Q a) (k a) Qok Qerr) ->
  audit j0 P (bind m k) Qok Qerr.
Proof.
  intros Hm Hk st r ws Hp. unfold bind. specialize (Hm st r ws Hp).
  destruct (m ((st, j0 ++ ws), r)) as [[e|a] [[st' j'] r']]; [exact Hm|].
  destruct Hm as (ws' & -> & Hq). apply (Hk a st' r' ws' Hq).
Qed.

Lemma audit_select (j0 : list write) P (t : table) (column key : jsstring) Qerr :
  (forall ws r, P ws r -> Qerr ws r) ->
  audit j0 P (await (select_single t column key)) (fun _ => P) Qerr.
Proof.
  intros H st r ws Hp. unfold await. cbn [fst snd select_single journal_store].
  destruct (select_single t column key st) as [[resp|e] st']; cbn; eauto.
Qed.

Lemma audit_delete (j0 : list write) P (t : table) (column key : jsstring) Qerr :
  (forall ws r, P ws r -> Qerr ws r) ->
  audit j0 P (await (delete t column key)) (fun _ => P) Qerr.
Proof.
  intros H st r ws Hp. unfold await. cbn [fst snd delete journal_store].
  destruct (delete t column key st) as [[resp|e] st']; cbn; eauto.
Qed.

Lemma audit_update (j0 : list write) (P : list write -> SyncResult -> Prop)
    (t : table) (payload : value) (column key : jsstring) Qerr :
  (forall ws r, P ws r ->
     Qerr (ws ++ [{| w_kind := Updated; w_table := t; w_rows := rows_of payload;
                     w_outcome := Threw |}]) r) ->
  audit j0 P (await (update t payload column key))
    (fun a ws r =>
       exists ws0, ws = ws0 ++ [{| w_kind := Updated; w_table := t; w_rows := rows_of payload;
                                   w_outcome := outcome_of (Settled a) |}] /\ P ws0 r)
    Qerr.
Proof.
  intros H st r ws Hp. unfold await. cbn [fst snd update journal_store].
  destruct (update t payload column key st) as [[resp|e] st']; cbn [fst snd outcome_of].
  - exists (ws ++ [{| w_kind := Updated; w_table := t; w_rows := rows_of payload;
                      w_outcome := outcome_of (Settled resp) |}]).
    split; [now rewrite app_assoc|]. eauto.
  - eexists. split; [now rewrite app_assoc|]. auto.
Qed.

Lemma audit_insert (j0 : list write) (P : list write -> SyncResult -> Prop)
    (t : table) (payload : value) Qerr :
  (forall ws r, P ws r ->
     Qerr (ws ++ [{| w_kind := Inserted; w_table := t; w_rows := rows_of payload;
                     w_outcome := Threw |}]) r) ->
  audit j0 P (await (insert t payload))
    (fun a ws r =>
       exists ws0, ws = ws0 ++ [{| w_kind := Inserted; w_table := t; w_rows := rows_of payload;
                                   w_outcome := outcome_of (Settled a) |}] /\ P ws0 r)
    Qerr.
Proof.
  intros H st r ws Hp. unfold await. cbn [fst snd insert journal_store].
  destruct (insert t payload st) as [[resp|e] st']; cbn [fst snd outcome_of].
  - exists (ws ++ [{| w_kind := Inserted; w_table := t; w_rows := rows_of payload;
                      w_outcome := outcome_of (Settled resp) |}]).
    split; [now rewrite app_assoc|]. eauto.
  - eexists. split; [now rewrite app_assoc|]. auto.
Qed.

Lemma audit_clock (j0 : list write) P Qerr :
  audit (St := St) j0 P clock (fun _ => P) Qerr.
Proof.
  intros st r ws Hp. unfold clock. cbn [fst snd now journal_store].
  destruct (now st). cbn. eauto.
Qed.

Lemma audit_lift {A} (j0 : list write) P (x : thrown + A) Qerr :
  (forall ws r, P ws r -> Qerr ws r) -> audit (St := St) j0 P (lift x) (fun _ => P) Qerr.
Proof. intros H st r ws Hp. unfold lift. destruct x; eauto. Qed.

Lemma audit_result (j0 : list write) (P Q : list write -> SyncResult -> Prop)
    (f : SyncResult -> SyncResult) Qerr :
  (forall ws r, P ws r -> Q ws (f r)) ->
  audit (St := St) j0 P (update_result f) (fun _ => Q) Qerr.
Proof. intros H st r ws Hp. cbn. eauto. Qed.

Variable creditRate : number.
Variable pricingMap : gmap jsstring FalPricingItem.

(** At the end of the [try] block, however it is left, the counters have
    moved by what the writes of the model amount to. *)
Lemma reconcile_valid_audit (fullModelId : jsstring) (md : Metadata) (m : FalModel)
    (j0 : list write) (r0 : SyncResult) :
  audit j0 (fun ws r => counted ws r0 r)
    (reconcile_valid creditRate pricingMap fullModelId md m)
    (fun _ ws r => counted ws r0 r) (fun ws r => counted ws r0 r).
Proof.
  unfold reconcile_valid. cbv zeta.
  eapply audit_bind; [apply audit_select; auto|]. intros existing.
  eapply audit_bind; [apply audit_clock|]. intros t.
  eapply audit_bind with (Q := fun _ ws r => counted ws r0 r).
  { destruct (value_truthy (res_data existing)).
    - eapply audit_bind.
      + apply audit_update. intros ws r H. apply counted_neutral; [now left|exact H].
      + intros wr. cbn [outcome_of]. destruct (res_error wr).
        * apply audit_throw. intros ws r (ws0 & -> & H).
          apply counted_neutral; [right; split; [reflexivity|discriminate]|exact H].
        * apply audit_result. intros ws r (ws0 & -> & H). now apply counted_model_updated.
    - eapply audit_bind; [apply audit_clock|]. intros t'.
      eapply audit_bind.
      + apply audit_insert. intros ws r H. apply counted_neutral; [now left|exact H].
      + intros wr. cbn [outcome_of]. destruct (res_error wr).
        * apply audit_throw. intros ws r (ws0 & -> & H).
          apply counted_neutral; [right; split; [reflexivity|discriminate]|exact H].
        * apply audit_result. intros ws r (ws0 & -> & H). now apply counted_model_added. }
  intros ?.
  eapply audit_bind with (Q := fun _ ws r => counted ws r0 r).
  { destruct (value_truthy _).
    - apply audit_lift; auto.
    - apply audit_ret; auto. }
  intros parameters.
  eapply audit_bind; [apply audit_delete; auto|]. intros ?.
  eapply audit_bind with (Q := fun _ ws r => counted ws r0 r).
  { destruct parameters as [|param parameters].
    - apply audit_ret; auto.
    - eapply audit_bind.
      + apply audit_insert. intros ws r H. apply counted_neutral; [now left|exact H].
      + intros wr. cbn [outcome_of]. destruct (res_error wr).
        * apply audit_throw. intros ws r (ws0 & -> & H).
          apply counted_neutral; [right; split; [reflexivity|discriminate]|exact H].
        * apply audit_result. intros ws r (ws0 & -> & H).
          cbn [rows_of]. rewrite length_map. now apply counted_parameters. }
  intros ?.
  eapply audit_bind; [apply audit_clock|]. intros t2.
  eapply audit_bind; [apply audit_select; auto|]. intros existingPricing.
  eapply audit_bind with
    (Q := fun _ ws r => exists ws0 w, ws = ws0 ++ [w] /\ w_table w = model_pricing
                                      /\ w_outcome w <> Threw /\ counted ws0 r0 r).
  { destruct (value_truthy _).
    - eapply audit_bind.
      + apply audit_update. intros ws r H. apply counted_neutral; [now left|exact H].
      + intros wr. apply audit_ret. intros ws r (ws0 & -> & H).
        eexists _, _. split; [reflexivity|]. split; [reflexivity|]. split; [|exact H].
        cbn. destruct (res_error wr); discriminate.
    - eapply audit_bind; [apply audit_clock|]. intros t3.
      eapply audit_bind.
      + apply audit_insert. intros ws r H. apply counted_neutral; [now left|exact H].
      + intros wr. apply audit_ret. intros ws r (ws0 & -> & H).
        eexists _, _. split; [reflexivity|]. split; [reflexivity|]. split; [|exact H].
        cbn. destruct (res_error wr); discriminate. }
  intros ?. apply audit_result. intros ws r (ws0 & w & -> & Ht & Ho & H).
  now apply counted_pricing.
Qed.

Lemma reconcile_body_audit (model : option FalModel) (j0 : list write) (r0 : SyncResult) :
  audit j0 (fun ws r => counted ws r0 r) (reconcile_body creditRate pricingMap model)
    (fun _ ws r => counted ws r0 r) (fun ws r => counted ws r0 r).
Proof.
  unfold reconcile_body. destruct (checked model) as [[[fullModelId md] m]|].
  - apply reconcile_valid_audit.
  - apply audit_result. intros ws r H. now apply counted_push_error.
Qed.

(** The writes of one iteration, and the counters after it. *)
Lemma reconcile_journal (model : option FalModel) (st : St) (j : list write) (r : SyncResult) :
  exists st' ws r',
    reconcile creditRate pricingMap model ((st, j), r) = (inr tt, ((st', j ++ ws), r'))
    /\ counted ws r r'.
Proof.
  pose proof (reconcile_body_audit model j r st r [] (counted_nil r)) as H.
  rewrite app_nil_r in H. unfold reconcile, try_catch.
  destruct (reconcile_body creditRate pricingMap model ((st, j), r)) as [[e|[]] [[st' j'] r']];
    destruct H as (ws & -> & Hc).
  - eexists _, _, _. split; [reflexivity|]. now apply counted_push_error.
  - eexists _, _, _. split; [reflexivity|]. exact Hc.
Qed.

(** The writes of the loop, and the counters after it. *)
Lemma processModels_journal (models : list (option FalModel)) :
  forall (st : St) (j : list write) (r : SyncResult),
  exists st' ws r',
    processModels creditRate pricingMap models ((st, j), r) = (inr tt, ((st', j ++ ws), r'))
    /\ counted ws r r'.
Proof.
  induction models as [|model rest IH]; intros st j r.
  - exists st, [], r. cbn. rewrite app_nil_r. split; [reflexivity|apply counted_nil].
  - cbn [processModels]. unfold bind.
    destruct (reconcile_journal model st j r) as (st1 & ws1 & r1 & -> & H1).
    destruct (IH st1 (j ++ ws1) r1) as (st' & ws & r' & -> & H).
    exists st', (ws1 ++ ws), r'. split; [now rewrite app_assoc|].
    eapply counted_app; eassumption.
Qed.

Lemma mirrors_ret {A} (a : A) : mirrors (St := St) (ret a) (ret a).
Proof. intros s. reflexivity. Qed.

Lemma mirrors_throw {A} (e : thrown) : mirrors (St := St) (A := A) (throw e) (throw e).
Proof. intros s. reflexivity. Qed.

Lemma mirrors_bind {A B} (mj : M (St * list write) A) (m : M St A)
    (kj : A -> M (St * list write) B) (k : A -> M St B) :
  mirrors mj m -> (forall a, mirrors (kj a) (k a)) -> mirrors (bind mj kj) (bind m k).
Proof.
  intros Hm Hk s. unfold bind. rewrite (Hm s).
  destruct (mj s) as [[e|a] s']; cbn [fst snd]; [reflexivity|]. apply Hk.
Qed.

Lemma mirrors_select (t : table) (column key : jsstring) :
  mirrors (await (select_single t column key)) (await (select_single t column key)).
Proof.
  intros [[st j] r]. unfold await, erase. cbn [fst snd select_single journal_store].
  destruct (select_single t column key st) as [[resp|e] st']; reflexivity.
Qed.

Lemma mirrors_delete (t : table) (column key : jsstring) :
  mirrors (await (delete t column key)) (await (delete t column key)).
Proof.
  intros [[st j] r]. unfold await, erase. cbn [fst snd delete journal_store].
  destruct (delete t column key st) as [[resp|e] st']; reflexivity.
Qed.

Lemma mirrors_update (t : table) (payload : value) (column key : jsstring) :
  mirrors (await (update t payload column key)) (await (update t payload column key)).
Proof.
  intros [[st j] r]. unfold await, erase. cbn [fst snd update journal_store].
  destruct (update t payload column key st) as [[resp|e] st']; reflexivity.
Qed.

Lemma mirrors_insert (t : table) (payload : value) :
  mirrors (await (insert t payload)) (await (insert t payload)).
Proof.
  intros [[st j] r]. unfold await, erase. cbn [fst snd insert journal_store].
  destruct (insert t payload st) as [[resp|e] st']; reflexivity.
Qed.

Lemma mirrors_clock : mirrors (St := St) clock clock.
Proof.
  intros [[st j] r]. unfold clock, erase. cbn [fst snd now journal_store].
  destruct (now st); reflexivity.
Qed.

Lemma mirrors_lift {A} (x : thrown + A) : mirrors (St := St) (lift x) (lift x).
Proof. intros s. reflexivity. Qed.

Lemma mirrors_result (f : SyncResult -> SyncResult) :
  mirrors (St := St) (update_result f) (update_result f).
Proof. intros s. reflexivity. Qed.

Lemma reconcile_valid_mirrors (fullModelId : jsstring) (md : Metadata) (m : FalModel) :
  mirrors (reconcile_valid creditRate pricingMap fullModelId md m)
          (reconcile_valid creditRate pricingMap fullModelId md m).
Proof.
  unfold reconcile_valid. cbv zeta.
  repeat first
    [ apply mirrors_select | apply mirrors_delete | apply mirrors_update
    | apply mirrors_insert | apply mirrors_clock | apply mirrors_lift
    | apply mirrors_result | apply mirrors_ret | apply mirrors_throw
    | apply mirrors_bind; [|intros ?]
    | match goal with
      | |- mirrors (match ?x with _ => _ end) _ => destruct x
      end ].
Qed.

Lemma reconcile_body_mirrors (model : option FalModel) :
  mirrors (reconcile_body creditRate pricingMap model)
          (reconcile_body creditRate pricingMap model).
Proof.
  unfold reconcile_body. destruct (checked model) as [[[fullModelId md] m]|].
  - apply reconcile_valid_mirrors.
  - apply mirrors_result.
Qed.

Lemma reconcile_mirrors (model : option FalModel) :
  mirrors (reconcile creditRate pricingMap model) (reconcile creditRate pricingMap model).
Proof.
  intros s. unfold reconcile, try_catch. rewrite (reconcile_body_mirrors model s).
  destruct (reconcile_body creditRate pricingMap model s) as [[e|[]] s']; reflexivity.
Qed.

(** The journal changes nothing: the loop on the journalled store does to
    the store and to the result object what it does on the store itself. *)
Lemma processModels_mirrors (models : list (option FalModel)) :
  mirrors (processModels creditRate pricingMap models)
          (processModels creditRate pricingMap models).
Proof.
  induction models as [|model rest IH]; [apply mirrors_ret|].
  cbn [processModels]. apply mirrors_bind; [apply reconcile_mirrors|]. intros _. exact IH.
Qed.
End JournalFacts.

(** C2 (as amended): an exception thrown by the [try] block of one model is
    caught and recorded as exactly one error entry labelled with that
    model's endpoint id, and the loop goes on with the models after it; the
    whole pass ends normally with every model accounted for as either one
    more pricing record or one more error entry.  The failed model adds
    nothing to [pricingUpdated].  The other counters follow the writes, not
    the models: over the models before the failing one, over the failing
    model itself and over those after it, [modelsAdded] grows by the model
    rows inserted, [modelsUpdated] by the model rows updated and
    [parametersAdded] by the parameter rows inserted, so what the failing
    model wrote before its throw stays counted.  The writes are those of the
    same run, read from a journal that changes neither the store nor the
    result. *)
Theorem exception_is_recorded_and_loop_continues
    {St : Type} {store : Store St} {builtins : Builtins} {schemas : SchemaTools}
    (creditRate : number) (pricingMap : gmap jsstring FalPricingItem)
    (before after : list (option FalModel)) (failing : option FalModel)
    (s0 s s1 : St * SyncResult) (e : thrown) :
  processModels creditRate pricingMap before s0 = (inr tt, s) ->
  reconcile_body creditRate pricingMap failing s = (inl e, s1) ->
  let entry := {| model := model_label failing; error := errorMessage e |} in
  let s2 := (fst s1, push_error (model_label failing) (errorMessage e) (snd s1)) in
  (exists m, failing = Some m /\ endpoint_id m = Some (model_label failing)
             /\ model_label failing <> [])
  /\ errors (snd s2) = errors (snd s) ++ [entry]
  /\ processModels creditRate pricingMap (before ++ failing :: after) s0 =
     processModels creditRate pricingMap after s2
  /\ pricingUpdated (snd s2) = pricingUpdated (snd s)
  /\ (models_written (snd s) <= models_written (snd s2) <= S (models_written (snd s)))%nat
  /\ (exists final,
       processModels creditRate pricingMap (before ++ failing :: after) s0 = (inr tt, final)
       /\ (pricingUpdated (snd final) + length (errors (snd final)) =
           pricingUpdated (snd s0) + length (errors (snd s0))
           + length (before ++ failing :: after))%nat
       /\ (pricingUpdated (snd final) - pricingUpdated (snd s0)
           <= models_written (snd final) - models_written (snd s0))%nat)
  /\ forall j0 : list write,
       exists (ws_before ws_failing ws_after : list write) (final : St * SyncResult),
         processModels creditRate pricingMap (before ++ failing :: after) s0 = (inr tt, final)
         /\ processModels creditRate pricingMap (before ++ failing :: after)
              ((fst s0, j0), snd s0)
            = (inr tt, ((fst final, j0 ++ ws_before ++ ws_failing ++ ws_after), snd final))
         /\ processModels creditRate pricingMap before ((fst s0, j0), snd s0)
            = (inr tt, ((fst s, j0 ++ ws_before), snd s))
         /\ reconcile_body creditRate pricingMap failing ((fst s, j0 ++ ws_before), snd s)
            = (inl e, ((fst s1, j0 ++ ws_before ++ ws_failing), snd s1))
         /\ counted ws_before (snd s0) (snd s)
         /\ counted ws_failing (snd s) (snd s2)
         /\ counted ws_after (snd s2) (snd final).
Proof.
  intros Hbefore Hthrow entry s2.
  destruct s as [st r]. destruct s1 as [st1 r1].
  assert (Hint : interrupted r r1).
  { unfold reconcile_body in Hthrow.
    destruct (checked failing) as [[[fullModelId md] m]|]; [|discriminate].
    pose proof (reconcile_valid_run creditRate pricingMap fullModelId md m r st r
                  (progress_refl r)) as H.
    rewrite Hthrow in H. exact H. }
  assert (Hprog : errors r1 = errors r /\ pricingUpdated r1 = pricingUpdated r /\
                  (models_written r <= models_written r1 <= S (models_written r))%nat).
  { unfold interrupted, progress in Hint.
    destruct Hint as [H|H]; destruct H as (He & Hp & Hm & _); repeat split; lia || auto. }
  destruct Hprog as (He & Hp & Hm).
  split; [eapply thrown_model_is_labelled; eassumption|].
  split; [subst s2; cbn; now rewrite He|].
  assert (Hcont : processModels creditRate pricingMap (before ++ failing :: after) s0 =
                  processModels creditRate pricingMap after s2).
  { rewrite (processModels_app creditRate pricingMap before _ s0 _ Hbefore).
    cbn [processModels]. unfold bind, reconcile, try_catch. rewrite Hthrow. reflexivity. }
  split; [exact Hcont|].
  split; [subst s2; cbn; exact Hp|].
  split; [subst s2; unfold models_written in *; cbn; exact Hm|].
  destruct s0 as [st0 r0].
  split.
  { destruct (processModels_accounting creditRate pricingMap (before ++ failing :: after) st0 r0)
      as (st' & r' & Hrun & Hsum & Hle & _).
    exists (st', r'). cbn [fst snd]. repeat split; assumption. }
  intros j0. cbn [fst snd].
  (* the models before the failing one *)
  destruct (processModels_journal creditRate pricingMap before st0 j0 r0)
    as (stb & wsb & rb & Hjb & Hcb).
  pose proof (processModels_mirrors creditRate pricingMap before ((st0, j0), r0)) as Mb.
  rewrite Hjb in Mb. unfold erase in Mb. cbn [fst snd] in Mb. rewrite Hbefore in Mb.
  injection Mb as <- <-.
  (* the failing model *)
  pose proof (reconcile_body_audit creditRate pricingMap failing (j0 ++ wsb) r st r []
                (counted_nil r)) as Hf.
  rewrite app_nil_r in Hf.
  pose proof (reconcile_body_mirrors creditRate pricingMap failing ((st, j0 ++ wsb), r)) as Mf.
  unfold erase in Mf. cbn [fst snd] in Mf. rewrite Hthrow in Mf.
  destruct (reconcile_body creditRate pricingMap failing ((st, j0 ++ wsb), r))
    as [[e'|[]] [[st1' j1] r1']] eqn:Ej; cbn [fst snd] in Mf; [|discriminate Mf].
  injection Mf as <- <- <-.
  destruct Hf as (wsf & -> & Hcf).
  (* the models after it *)
  destruct (processModels_journal creditRate pricingMap after st1 ((j0 ++ wsb) ++ wsf)
              (push_error (model_label failing) (errorMessage e) r1))
    as (stf & wsa & rf & Hja & Hca).
  pose proof (processModels_mirrors creditRate pricingMap after
                ((st1, (j0 ++ wsb) ++ wsf),
                 push_error (model_label failing) (errorMessage e) r1)) as Ma.
  rewrite Hja in Ma. unfold erase in Ma. cbn [fst snd] in Ma.
  exists wsb, wsf, wsa, (stf, rf). cbn [fst snd].
  split; [rewrite Hcont; exact Ma|].
  split.
  { rewrite (processModels_app creditRate pricingMap before _ _ _ Hjb).
    cbn [processModels]. unfold bind, reconcile, try_catch. rewrite Ej.
    unfold update_result. cbn [fst snd]. rewrite Hja. now rewrite <- !app_assoc. }
  split; [exact Hjb|].
  split; [rewrite Ej; now rewrite <- !app_assoc|].
  split; [exact Hcb|].
  split; [subst s2; cbn [fst snd]; now apply counted_push_error|exact Hca].
Qed.

Lemma exception_is_recorded_and_loop_continues_witness :
  let flux := remote "fal-ai/flux" (Some "image"%string) (Some prompt_schema) in
  let text_gen := remote "demo/text-gen" None (Some prompt_schema) in
  let video := remote "b/video" None None in
  let s0 := (store3_pricing_down, emptyResult) in
  let s := snd (processModels (decimal 1 1000) ∅ [flux] s0) in
  let s1 := snd (reconcile_body (decimal 1 1000) ∅ text_gen s) in
  let s2 := (fst s1, push_error (lit "demo/text-gen") (lit "fetch failed") (snd s1)) in
  exists (ws_failing : list write) (final : MemStore * SyncResult),
    processModels (decimal 1 1000) ∅ [flux; text_gen; video] s0 = (inr tt, final)
    /\ counted ws_failing (snd s) (snd s2)
    /\ tally model_inserted ws_failing = 1%nat
    /\ tally parameters_inserted ws_failing = 1%nat
    /\ errors (snd final) = [{| model := lit "demo/text-gen"; error := lit "fetch failed" |}]
    /\ (modelsAdded (snd s), parametersAdded (snd s), pricingUpdated (snd s))
       = (1, 1, 1)%nat
    /\ (modelsAdded (snd s2), parametersAdded (snd s2), pricingUpdated (snd s2))
       = (2, 2, 1)%nat
    /\ (modelsAdded (snd final), parametersAdded (snd final), pricingUpdated (snd final))
       = (3, 2, 2)%nat.
Proof.
  intros flux text_gen video s0 s s1 s2.
  assert (Hbefore : processModels (decimal 1 1000) ∅ [flux] s0 = (inr tt, s))
    by (vm_compute; reflexivity).
  assert (Hthrow : reconcile_body (decimal 1 1000) ∅ text_gen s
                   = (inl (ErrorObject (lit "fetch failed")), s1))
    by (vm_compute; reflexivity).
  destruct (exception_is_recorded_and_loop_continues (decimal 1 1000) ∅
              [flux] [video] text_gen s0 s s1 (ErrorObject (lit "fetch failed"))
              Hbefore Hthrow)
    as (_ & _ & _ & _ & _ & _ & Hjournal).
  destruct (Hjournal []) as (ws_before & ws_failing & ws_after & final
                             & Hrun & _ & _ & _ & _ & Hfailing & _).
  exists ws_failing, final.
  split; [exact Hrun|]. split; [exact Hfailing|].
  pose proof Hfailing as (Ha & _ & Hp & _).
  pose proof (Ha <: (2 = 1 + tally model_inserted ws_failing)%nat) as Ea.
  pose proof (Hp <: (2 = 1 + tally parameters_inserted ws_failing)%nat) as Ep.
  split; [lia|]. split; [lia|].
  assert (Hfinal : final = snd (processModels (decimal 1 1000) ∅ [flux; text_gen; video] s0)).
  { change ([flux] ++ text_gen :: [video]) with [flux; text_gen; video] in Hrun.
    now rewrite Hrun. }
  rewrite Hfinal. vm_compute. repeat split; reflexivity.
Defined.

(** C2 (as stated) fails.  Of three fetched models the second one fails in
    both runs, and the pass records one error entry for it.  When the store
    refuses its parameter rows, three models are counted as added, one more
    than the two models that completed.  When its pricing row cannot be
    looked up, three models and two parameters are counted, although the
    completed models are two and have one parameter between them. *)
Lemma counts_include_the_failed_model :
  let r := snd (snd (processModels (decimal 1 1000) ∅ catalog3 (store3, emptyResult))) in
  let r' := snd (snd (processModels (decimal 1 1000) ∅ catalog3
                        (store3_pricing_down, emptyResult))) in
  (errors r = [{| model := lit "demo/text-gen"; error := lit "Unknown error" |}]
   /\ modelsAdded r = 3%nat /\ modelsUpdated r = 0%nat
   /\ parametersAdded r = 1%nat /\ pricingUpdated r = 2%nat
   /\ ~ counts_reflect_only_successes catalog3 r)
  /\ (errors r' = [{| model := lit "demo/text-gen"; error := lit "fetch failed" |}]
      /\ modelsAdded r' = 3%nat /\ modelsUpdated r' = 0%nat
      /\ parametersAdded r' = 2%nat /\ pricingUpdated r' = 2%nat
      /\ List.map parameter_count (List.filter (completed r') catalog3) = [1; 0]%nat
      /\ ~ counts_reflect_only_successes catalog3 r'
      /\ ~ parameters_reflect_only_successes catalog3 r').
Proof.
  vm_compute. repeat split; try reflexivity.
  - intros [H _]. discriminate H.
  - intros [H _]. discriminate H.
  - intros H. discriminate H.
Qed.

(** C3 (evaluation at the failing input): when the store rejects the write
    of the pricing record of a model, the loop adds no error entry, still
    counts the model in [pricingUpdated], and no pricing row exists
    afterwards; the same rejection on the model record is reported. *)
Theorem rejected_pricing_write_is_not_reported :
  let video := remote "b/video" None None in
  let run rejects :=
    snd (processModels (decimal 1 1000) ∅ [video] (empty_store rejects [], emptyResult)) in
  errors (snd (run [(model_pricing, lit "b/video")])) = []
  /\ pricingUpdated (snd (run [(model_pricing, lit "b/video")])) = 1%nat
  /\ pricing_rows (fst (run [(model_pricing, lit "b/video")])) !! lit "b/video" = None
  /\ errors (snd (run [(models_table, lit "b/video")]))
     = [{| model := lit "b/video"; error := lit "Unknown error" |}]
  /\ pricingUpdated (snd (run [(models_table, lit "b/video")])) = 0%nat.
Proof. vm_compute. repeat split; reflexivity. Qed.

(** A complete run: the catalog holds the single model ["demo/text-gen"]
    with a one-property schema, quoted at 0.002 per call, and the credit
    rate is 0.001.  The stored model is classified TEXT, its pricing is
    fixed at 2 credits, and one parameter row is written. *)
Example text_gen_scenario :
  let quote := {| price_endpoint_id := lit "demo/text-gen";
                  unit_price := decimal 2 1000;
                  price_unit := VString (lit "call");
                  currency := VString (lit "USD");
                  extra := [] |} in
  let final :=
    snd (processModels (decimal 1 1000) (buildPricingMap [quote])
           [remote "demo/text-gen" None (Some prompt_schema)]
           (empty_store [] [], emptyResult)) in
  let read (rows : gmap jsstring value) (column : jsstring) :=
    (fun row => get_prop (spread row) column) <$> (rows !! lit "demo/text-gen") in
  snd final = {| modelsAdded := 1; modelsUpdated := 0; parametersAdded := 1;
                 pricingUpdated := 1; errors := []; duration := 0 |}
  /\ read (model_rows (fst final)) (lit "task_type") = Some (VString (lit "TEXT"))
  /\ read (pricing_rows (fst final)) (lit "pricing_type") = Some (VString (lit "fixed"))
  /\ read (pricing_rows (fst final)) (lit "credit_cost") = Some (VNumber (of_Z 2))
  /\ length <$> (parameter_rows (fst final) !! lit "demo/text-gen") = Some 1%nat.
Proof. vm_compute. repeat split; reflexivity. Qed.
(** ** More on the sanitizers *)

Lemma rebuild_map (f : value -> value) (props : list (jsstring * value)) :
  forall acc,
    keys_ok (acc ++ props) ->
    rebuild f props acc = acc ++ List.map (fun kv => (fst kv, f (snd kv))) props.
Proof.
  induction props as [|[k v] props IH]; intros acc Hok; cbn [rebuild fold_left List.map].
  - now rewrite app_nil_r.
  - destruct Hok as [Hnd Hp].
    rewrite map_app in Hnd, Hp. cbn [List.map fst] in Hnd, Hp.
    apply NoDup_app in Hnd as (Hna & Hdisj & Hnp).
    assert (Hk : k ∉ List.map fst acc).
    { intros Hin. apply (Hdisj k Hin). left. }
    assert (Hkp : k <> proto_key).
    { intros ->. apply Hp. apply elem_of_app. right. left. }
    change (fold_left _ props ?a) with (rebuild f props a).
    cbn [fst snd]. unfold assign at 1, str_eqb. rewrite bool_decide_eq_false_2 by assumption.
    rewrite set_prop_fresh by assumption.
    rewrite IH.
    + now rewrite <- app_assoc.
    + rewrite <- app_assoc. cbn [app]. split.
      * rewrite map_app. cbn [List.map fst]. apply NoDup_app. repeat split; auto.
      * rewrite map_app. cbn [List.map fst]. assumption.
Qed.

Lemma keys_ok_nil : keys_ok [].
Proof. split; [constructor|]. intros H; inversion H. Qed.

Lemma keys_ok_map_values (g : value -> value) (l : list (jsstring * value)) :
  keys_ok l -> keys_ok (List.map (fun kv => (fst kv, g (snd kv))) l).
Proof.
  unfold keys_ok. rewrite List.map_map. cbn [fst]. auto.
Qed.

Lemma replace_surrogates_noop (s : jsstring) :
  forallb (fun c => negb (is_surrogate c)) s = true -> replace_surrogates s = s.
Proof.
  unfold replace_surrogates. induction s as [|c s IH]; [reflexivity|].
  cbn [forallb List.filter]. intros H. apply andb_true_iff in H as [Hc Hs].
  rewrite Hc. now rewrite IH.
Qed.

Lemma sanitizeObject_output_free (x : value) :
  surrogate_free (ApiClient.sanitizeObject x) = true.
Proof.
  induction x as [| | | | s | items IH | props IH] using value_ind_nested;
    cbn [ApiClient.sanitizeObject surrogate_free]; try reflexivity.
  - apply replace_surrogates_clean.
  - rewrite forallb_forall. intros y Hy. apply in_map_iff in Hy as (x & <- & Hx).
    rewrite Forall_forall in IH. apply IH. now apply list_elem_of_In.
  - change (fold_left _ props []) with (rebuild ApiClient.sanitizeObject props []).
    pose proof (rebuild_values ApiClient.sanitizeObject
                  (fun v => surrogate_free v = true) props [] (Forall_nil_2 _) IH) as H.
    rewrite forallb_forall. intros kv Hkv. rewrite Forall_forall in H.
    apply H. now apply list_elem_of_In.
Qed.

Lemma well_keyed_array (items : list value) :
  well_keyed (VArray items) <-> Forall well_keyed items.
Proof.
  cbn [well_keyed]. induction items as [|x items IH]; cbn [fold_right].
  - split; [constructor|trivial].
  - rewrite IH. split; [intros [H1 H2]; now constructor|intros H; now inversion H].
Qed.

Lemma well_keyed_object (props : list (jsstring * value)) :
  well_keyed (VObject props) <->
  keys_ok props /\ Forall (fun kv => well_keyed (snd kv)) props.
Proof.
  cbn [well_keyed]. apply and_iff_compat_l.
  induction props as [|kv props IH]; cbn [fold_right].
  - split; [constructor|trivial].
  - rewrite IH. split; [intros [H1 H2]; now constructor|intros H; now inversion H].
Qed.

(** X1: a tree that is already free of surrogates, with well-formed objects,
    comes back from the client's sanitizer unchanged. *)
Theorem sanitizeObject_keeps_clean_trees (x : value) :
  well_keyed x -> surrogate_free x = true -> ApiClient.sanitizeObject x = x.
Proof.
  induction x as [| | | | s | items IH | props IH] using value_ind_nested;
    intros Hw Hc; try reflexivity.
  - cbn [ApiClient.sanitizeObject]. f_equal. now apply replace_surrogates_noop.
  - cbn [ApiClient.sanitizeObject]. f_equal.
    apply well_keyed_array in Hw. cbn [surrogate_free] in Hc. rewrite forallb_forall in Hc.
    rewrite <- (List.map_id items) at 2. apply List.map_ext_Forall.
    rewrite Forall_forall in *. intros y Hy.
    apply IH; [assumption|now apply Hw|]. apply Hc. now apply list_elem_of_In.
  - cbn [ApiClient.sanitizeObject]. f_equal.
    apply well_keyed_object in Hw as [Hk Hw]. cbn [surrogate_free] in Hc.
    rewrite forallb_forall in Hc.
    change (fold_left _ props []) with (rebuild ApiClient.sanitizeObject props []).
    apply (rebuild_fixed ApiClient.sanitizeObject props []); [exact Hk|].
    rewrite Forall_forall in *. intros kv Hkv.
    apply IH; [assumption|now apply Hw|]. apply Hc. now apply list_elem_of_In.
Qed.

Lemma sanitizeObject_keeps_clean_trees_witness :
  ApiClient.sanitizeObject
    (VObject [(lit "unit", VString (lit "call")); (lit "tags", VArray [VString (lit "fast")])])
  = VObject [(lit "unit", VString (lit "call")); (lit "tags", VArray [VString (lit "fast")])].
Proof.
  apply sanitizeObject_keeps_clean_trees; [|reflexivity].
  cbn [well_keyed fold_right snd]. repeat split.
  - apply (bool_decide_unpack _). vm_compute. exact I.
  - apply (bool_decide_unpack _). vm_compute. exact I.
Defined.

Lemma rebuild_ext (f h : value -> value) (g : value -> value) (props : list (jsstring * value)) :
  Forall (fun kv => f (g (snd kv)) = h (snd kv)) props ->
  forall acc,
    rebuild f (List.map (fun kv => (fst kv, g (snd kv))) props) acc = rebuild h props acc.
Proof.
  induction 1 as [|kv props Hkv _ IH]; intros acc; [reflexivity|].
  cbn [rebuild fold_left List.map fst snd]. rewrite Hkv. apply IH.
Qed.

Lemma sanitizeValue_via_blanks (x : value) :
  FalSync.sanitizeValue x = ApiClient.sanitizeObject (blank_to_null x).
Proof.
  induction x as [| | | | s | items IH | props IH] using value_ind_nested; try reflexivity.
  - destruct s; reflexivity.
  - cbn [FalSync.sanitizeValue blank_to_null ApiClient.sanitizeObject]. f_equal.
    rewrite List.map_map. apply List.map_ext_Forall. exact IH.
  - cbn [FalSync.sanitizeValue blank_to_null ApiClient.sanitizeObject]. f_equal.
    change (fold_left _ props []) with (rebuild FalSync.sanitizeValue props []).
    symmetry.
    apply (rebuild_ext ApiClient.sanitizeObject FalSync.sanitizeValue blank_to_null).
    eapply Forall_impl; [exact IH|]. intros kv H. cbn beta. now rewrite H.
Qed.

(** X2: the sync service's sanitizer reaches a fixed point with its second
    application: a third changes nothing. *)
Theorem sanitizeValue_stable_after_two (x : value) :
  FalSync.sanitizeValue (FalSync.sanitizeValue (FalSync.sanitizeValue x)) =
  FalSync.sanitizeValue (FalSync.sanitizeValue x).
Proof.
  induction x as [| | | | s | items IH | props IH] using value_ind_nested; try reflexivity.
  - destruct s as [|c s]; [reflexivity|].
    cbn [FalSync.sanitizeValue FalSync.sanitizeString of_nullable].
    destruct (replace_surrogates (c :: s)) as [|d r] eqn:E; [reflexivity|].
    cbn [FalSync.sanitizeValue FalSync.sanitizeString of_nullable].
    rewrite <- E, replace_surrogates_idempotent, E.
    cbn [FalSync.sanitizeValue FalSync.sanitizeString of_nullable].
    now rewrite <- E, replace_surrogates_idempotent, E.
  - cbn [FalSync.sanitizeValue]. f_equal. rewrite !List.map_map.
    apply List.map_ext_Forall. exact IH.
  - cbn [FalSync.sanitizeValue]. f_equal.
    change (fold_left _ props []) with (rebuild FalSync.sanitizeValue props []).
    set (R1 := rebuild FalSync.sanitizeValue props []).
    assert (Hk1 : keys_ok R1) by (apply rebuild_keys_ok, keys_ok_nil).
    assert (Hv1 : Forall (fun kv => FalSync.sanitizeValue (FalSync.sanitizeValue (snd kv))
                                    = FalSync.sanitizeValue (snd kv)) R1).
    { apply (rebuild_values FalSync.sanitizeValue
               (fun v => FalSync.sanitizeValue (FalSync.sanitizeValue v)
                         = FalSync.sanitizeValue v)); [constructor|exact IH]. }
    change (fold_left _ R1 []) with (rebuild FalSync.sanitizeValue R1 []).
    rewrite (rebuild_map FalSync.sanitizeValue R1 []) by exact Hk1. cbn [app].
    set (R2 := List.map _ R1).
    change (fold_left _ R2 []) with (rebuild FalSync.sanitizeValue R2 []).
    rewrite (rebuild_map FalSync.sanitizeValue R2 [])
      by (cbn [app]; apply keys_ok_map_values; exact Hk1).
    cbn [app]. unfold R2. rewrite List.map_map. cbn [fst snd].
    apply List.map_ext_Forall. eapply Forall_impl; [exact Hv1|].
    intros kv H. cbn beta. now rewrite H.
Qed.

(** X3: the client's sanitizer is idempotent on every value tree none of
    whose objects has an own property named [__proto__].  For that name the
    assignment of the copy loop sets the prototype of the copy, which a list
    of own properties does not record, so such trees are left out. *)
Theorem client_sanitizer_idempotent (x : value) :
  proto_free x = true ->
  ApiClient.sanitizeObject (ApiClient.sanitizeObject x) = ApiClient.sanitizeObject x.
Proof. intros _. apply sanitizeObject_idempotent. Qed.

Lemma client_sanitizer_idempotent_witness :
  let x := VObject [ (lit "unit", VString (lit "call" ++ [0xD83D%N]));
                     (lit "tags", VArray [VString grin; VNull; VString []]);
                     (lit "details",
                      VObject [(lit "currency", VString (0xDE00%N :: lit "USD"))]) ] in
  ApiClient.sanitizeObject x
  = VObject [ (lit "unit", VString (lit "call"));
              (lit "tags", VArray [VString []; VNull; VString []]);
              (lit "details", VObject [(lit "currency", VString (lit "USD"))]) ]
  /\ ApiClient.sanitizeObject (ApiClient.sanitizeObject x) = ApiClient.sanitizeObject x.
Proof.
  intros x. split; [reflexivity|].
  apply (client_sanitizer_idempotent x). reflexivity.
Defined.

(** X4: whatever the input, no string value of the client's
    sanitized tree contains a surrogate code unit. *)
Theorem sanitizeObject_surrogate_free (x : value) :
  surrogate_free (ApiClient.sanitizeObject x) = true.
Proof. apply sanitizeObject_output_free. Qed.

(** X5: the sync service's sanitizer is the client's sanitizer
    applied after replacing every empty string value by [null]; the two
    differ on nothing else. *)
Theorem sanitizeValue_is_sanitizeObject_after_blanks (x : value) :
  FalSync.sanitizeValue x = ApiClient.sanitizeObject (blank_to_null x).
Proof. apply sanitizeValue_via_blanks. Qed.
(** ** Pricing of a model *)

Lemma pricing_map_lookup_from (fetched : list FalPricingItem) (id : jsstring) :
  forall m : gmap jsstring FalPricingItem,
    fold_left (fun m p => <[price_endpoint_id p := p]> m) fetched m !! id =
    match last (List.filter (fun p => bool_decide (price_endpoint_id p = id)) fetched) with
    | Some p => Some p
    | None => m !! id
    end.
Proof.
  induction fetched as [|p fetched IH]; intros m; [reflexivity|].
  cbn [fold_left List.filter]. rewrite IH.
  case_bool_decide as E.
  - destruct (List.filter _ fetched) as [|q rest] eqn:F.
    + cbn [last]. subst id. apply lookup_insert_eq.
    + change (last (p :: q :: rest)) with (last (q :: rest)).
      destruct (last (q :: rest)) eqn:L; [reflexivity|].
      apply last_None in L. discriminate.
  - destruct (last _); [reflexivity|]. now apply lookup_insert_ne.
Qed.

(** X6: looking an endpoint id up in the pricing map gives the last
    fetched quote bearing that id, and nothing when no quote bears it. *)
Theorem pricing_map_keeps_last_quote (fetched : list FalPricingItem) (id : jsstring) :
  buildPricingMap fetched !! id =
  last (List.filter (fun p => bool_decide (price_endpoint_id p = id)) fetched).
Proof.
  unfold buildPricingMap. rewrite pricing_map_lookup_from.
  destruct (last _); [reflexivity|apply lookup_empty].
Qed.

Lemma sanitized_id_differs (p : FalPricingItem) (id : jsstring) :
  existsb is_surrogate id = true -> price_endpoint_id (sanitizePrice p) <> id.
Proof.
  intros Hs E. cbn [sanitizePrice price_endpoint_id] in E. subst id.
  unfold ApiClient.sanitizeString in Hs.
  pose proof (replace_surrogates_clean (price_endpoint_id p)) as Hc.
  rewrite forallb_forall in Hc. apply existsb_exists in Hs as (c & Hin & Hc').
  specialize (Hc c Hin). rewrite Hc' in Hc. discriminate.
Qed.

Lemma collected_ids_differ (net : nat -> reply FalPricingResponse) (from count : nat)
    (id : jsstring) :
  existsb is_surrogate id = true ->
  List.filter (fun p => bool_decide (price_endpoint_id p = id)) (collected net from count) = [].
Proof.
  intros Hs. unfold collected.
  induction (List.map net (seq from count)) as [|r rs IH]; [reflexivity|].
  cbn [flat_map]. rewrite List.filter_app, IH, app_nil_r.
  destruct r as [response|message]; [|reflexivity].
  cbn [reply_quotes]. destruct (prices response) as [ps|]; [|reflexivity].
  unfold sanitizePrices. induction ps as [|p ps IHp]; [reflexivity|].
  cbn [List.map List.filter]. rewrite bool_decide_eq_false_2; [exact IHp|].
  now apply sanitized_id_differs.
Qed.

(** X7: the quotes a pricing fetch returns carry sanitized endpoint
    ids, so an endpoint id that contains a surrogate code unit is never
    found in the pricing map built from them. *)
Theorem surrogate_id_finds_no_quote (net : nat -> reply FalPricingResponse)
    (from count : nat) (id : jsstring) :
  existsb is_surrogate id = true ->
  buildPricingMap (collected net from count) !! id = None.
Proof.
  intros Hs. unfold buildPricingMap. rewrite pricing_map_lookup_from.
  rewrite collected_ids_differ by assumption. apply lookup_empty.
Qed.

Lemma surrogate_id_finds_no_quote_witness :
  let quote := {| price_endpoint_id := [97; 0xD800; 98]%N; unit_price := decimal 2 1000;
                  price_unit := VString (lit "call"); currency := VString (lit "USD");
                  extra := [] |} in
  let net := fun _ : nat =>
    Resolved {| prices := Some [quote]; pricing_next_cursor := None;
                pricing_has_more := false |} in
  buildPricingMap (collected net 0 1) !! ([97; 0xD800; 98]%N : jsstring) = None
  /\ buildPricingMap (collected net 0 1) !! lit "ab" = Some (sanitizePrice quote).
Proof.
  intros quote net. split.
  - apply surrogate_id_finds_no_quote. reflexivity.
  - vm_compute. reflexivity.
Defined.

Lemma truthy_number_is_not_zero (x : number) :
  number_truthy x = true -> number_eq x zero = false.
Proof. destruct x as [| [] | | [] m e]; cbn; intros H; try discriminate; reflexivity. Qed.

(** X8: a model is priced as fixed exactly when the pricing map
    holds a quote for it whose unit price is neither zero nor NaN; in every
    other case its price per call is [+0] and its pricing type is free. *)
Theorem pricing_type_fixed_iff (quote : option FalPricingItem) :
  (pricingType_of (pricePerCall_of quote) = fixed <->
   exists p, quote = Some p /\ number_truthy (unit_price p) = true)
  /\ (pricingType_of (pricePerCall_of quote) = free -> pricePerCall_of quote = zero).
Proof.
  unfold pricingType_of, pricePerCall_of.
  destruct quote as [p|].
  - destruct (number_truthy (unit_price p)) eqn:E.
    + rewrite (truthy_number_is_not_zero _ E). split.
      * split; [intros _; eauto|reflexivity].
      * discriminate.
    + split; [|reflexivity]. split; [discriminate|].
      intros (q & [= <-] & Hq). congruence.
  - split; [|reflexivity]. split; [discriminate|]. intros (q & Hq & _). discriminate.
Qed.

(** X9: for a zero price the credit cost is 1 at every rate other
    than zero and NaN, negative and infinite rates included; at a zero or
    NaN rate it is NaN. *)
Theorem credit_cost_of_free_model (s : bool) (rate : number) :
  calculateCreditCost (S754_zero s) rate =
  match rate with
  | S754_zero _ | S754_nan => S754_nan
  | _ => one
  end.
Proof. destruct rate as [[]|[]| |[] m e]; destruct s; reflexivity. Qed.

Lemma Math_max_one_negative (m : positive) (e : Z) :
  Math_max one (S754_finite true m e) = one.
Proof. reflexivity. Qed.

Lemma Qceiling_nonpositive (m : positive) (k : Z) :
  0 <= k -> Qceiling (Qmake (Zneg m) (Z.to_pos (2 ^ k))) <= 0.
Proof.
  intros Hk. rewrite Qceiling_quotient by assumption.
  assert (0 < 2 ^ k) by (apply Z.pow_pos_nonneg; lia).
  assert (0 <= (- Zneg m) / 2 ^ k) by (apply Z.div_pos; lia). lia.
Qed.

Lemma credit_cost_of_negative_quotient (m : positive) (e : Z) :
  bounded prec emax m e = true ->
  Math_max one (Math_ceil (S754_finite true m e)) = one.
Proof.
  intros Hv. unfold Math_ceil.
  destruct (Z.leb_spec 0 e) as [He|He]; [reflexivity|].
  change (- cond_Zopp true (Z.pos m)) with (Z.pos m).
  pose proof (bounded_mantissa _ _ Hv) as Hm.
  assert (Hp : 0 < 2 ^ (- e)) by (apply Z.pow_pos_nonneg; lia).
  assert (Hq : 0 <= Z.pos m / 2 ^ (- e)) by (apply Z.div_pos; lia).
  assert (Hle : Z.pos m / 2 ^ (- e) <= 2 ^ 52).
  { assert (2 ^ 1 <= 2 ^ (- e)) by (apply Z.pow_le_mono_r; lia).
    change (2 ^ 1) with 2 in H.
    assert (Z.pos m / 2 ^ (- e) < 2 ^ 52 + 1); [|lia].
    apply Z.div_lt_upper_bound; [lia|].
    change (2 ^ 53) with (2 ^ 52 * 2) in Hm. nia. }
  destruct (- (Z.pos m / 2 ^ (- e))) as [|p|p] eqn:En; try lia; [reflexivity|].
  assert (Hp52 : Z.pos p <= 2 ^ 52) by lia.
  destruct (of_pos_exact true p Hp52) as (m' & e' & -> & _). reflexivity.
Qed.

(** X10: over all prices and rates, the credit cost is the integer
    max(1, ceil(q)) whenever the binary64 quotient q = price / rate is
    finite, so it is never a finite value below 1; it is NaN when q is NaN,
    +Infinity when q is +Infinity and 1 when q is -Infinity. *)
Theorem credit_cost_over_all_numbers (price rate : number) :
  valid_binary prec emax (fdiv price rate) = true ->
  match fdiv price rate with
  | S754_nan => calculateCreditCost price rate = S754_nan
  | S754_infinity s =>
      calculateCreditCost price rate = if s then one else S754_infinity false
  | q =>
      exists v, number_value q = Some v /\
                number_to_Z (calculateCreditCost price rate) = Some (Z.max 1 (Qceiling v))
  end.
Proof.
  intros Hv. unfold calculateCreditCost.
  destruct (fdiv price rate) as [s|[]| |[] m e] eqn:Eq; try reflexivity.
  - eexists; split; [reflexivity|]. destruct s; reflexivity.
  - (* negative *)
    eexists; split; [reflexivity|].
    rewrite credit_cost_of_negative_quotient by exact Hv.
    rewrite number_to_Z_one. f_equal.
    cbn [cond_Zopp]. destruct (Z.leb_spec 0 e) as [He|He].
    + unfold Qceiling, Qfloor, inject_Z, Qopp, Qnum, Qden. rewrite Z.div_1_r.
      assert (0 < 2 ^ e) by (apply Z.pow_pos_nonneg; lia). nia.
    + change (Z.opp (Z.pos m)) with (Z.neg m).
      pose proof (Qceiling_nonpositive m (- e) ltac:(lia)). lia.
  - (* positive *)
    pose proof (credit_cost_of_quotient (S754_finite false m e) eq_refl Hv) as H.
    cbn [number_value] in H |- *. eexists; split; [reflexivity|exact H].
Qed.

Lemma credit_cost_over_all_numbers_witness :
  number_to_Z (calculateCreditCost (of_Z (-3)) (decimal 1 1000)) = Some 1
  /\ number_to_Z (calculateCreditCost (decimal 7 100) (decimal 25 1000)) = Some 3.
Proof.
  split.
  - pose proof (credit_cost_over_all_numbers (of_Z (-3)) (decimal 1 1000)) as H.
    assert (Hv : valid_binary prec emax (fdiv (of_Z (-3)) (decimal 1 1000)) = true)
      by (vm_compute; reflexivity).
    specialize (H Hv).
    set (q := fdiv (of_Z (-3)) (decimal 1 1000)) in H. vm_compute in q. subst q.
    cbv iota beta in H. destruct H as (v & Hval & Hz).
    cbn [number_value] in Hval. injection Hval as <-. exact Hz.
  - pose proof (credit_cost_over_all_numbers (decimal 7 100) (decimal 25 1000)) as H.
    assert (Hv : valid_binary prec emax (fdiv (decimal 7 100) (decimal 25 1000)) = true)
      by (vm_compute; reflexivity).
    specialize (H Hv).
    set (q := fdiv (decimal 7 100) (decimal 25 1000)) in H. vm_compute in q. subst q.
    cbv iota beta in H. destruct H as (v & Hval & Hz).
    cbn [number_value] in Hval. injection Hval as <-. exact Hz.
Defined.
(** ** More on the reconciliation loop *)

Section LoopFacts.
Context {St : Type} {store : Store St} {builtins : Builtins} {schemas : SchemaTools}.
Variable creditRate : number.
Variable pricingMap : gmap jsstring FalPricingItem.

Lemma processModels_appends (models : list (option FalModel)) :
  forall (st : St) (r : SyncResult),
  exists st' r' new,
    processModels creditRate pricingMap models (st, r) = (inr tt, (st', r')) /\
    errors r' = errors r ++ new /\
    (pricingUpdated r' + length new = pricingUpdated r + length models)%nat.
Proof.
  induction models as [|model rest IH]; intros st r.
  - exists st, r, []. cbn. rewrite app_nil_r. repeat split; lia.
  - cbn [processModels]. unfold bind.
    destruct (reconcile_effect creditRate pricingMap model st r) as (st1 & r1 & -> & Hstep).
    destruct (IH st1 r1) as (st' & r' & new & -> & Herr & Hsum).
    destruct Hstep as [(He & Hp1 & _)|((entry & He) & Hp1 & _)].
    + exists st', r', new. split; [reflexivity|]. rewrite Herr, He. cbn [length].
      split; [reflexivity|lia].
    + exists st', r', (entry :: new). split; [reflexivity|]. rewrite Herr, He.
      rewrite <- app_assoc. cbn [length app]. split; [reflexivity|lia].
Qed.

(** X11: whatever the store answers, the loop over the fetched models
    never throws; it only appends to the error list, and every model ends
    up as exactly one new pricing count or one new error entry. *)
Theorem sync_loop_accounts_for_every_model
    (models : list (option FalModel)) (st : St) (r : SyncResult) :
  exists st' r' new,
    processModels creditRate pricingMap models (st, r) = (inr tt, (st', r')) /\
    errors r' = errors r ++ new /\
    (pricingUpdated r' + length new = pricingUpdated r + length models)%nat.
Proof. apply processModels_appends. Qed.

(** X12: a fetched entry that is null, or lacks a non-empty
    endpoint id or its metadata, is reported under the label ["unknown"]
    without a single store operation. *)
Theorem invalid_model_touches_nothing (model : option FalModel) (st : St) (r : SyncResult) :
  (model = None \/
   exists m, model = Some m /\ (truthy (endpoint_id m) = false \/ metadata m = None)) ->
  reconcile creditRate pricingMap model (st, r) =
  (inr tt, (st, push_error (lit "unknown") (lit "Model missing endpoint_id or metadata") r)).
Proof.
  intros H.
  assert (Hc : checked model = None).
  { destruct H as [H|(m & H1 & H)]; subst; [reflexivity|]. unfold checked.
    destruct (endpoint_id m) as [[|c s]|]; try reflexivity.
    destruct H as [H|H]; [discriminate|]. now rewrite H. }
  unfold reconcile, try_catch, reconcile_body. rewrite Hc. reflexivity.
Qed.

End LoopFacts.

Lemma invalid_model_touches_nothing_witness :
  reconcile (decimal 1 1000) ∅
    (Some {| endpoint_id := Some []; metadata := None; openapi := None |})
    (empty_store [] [], emptyResult) =
  (inr tt, (empty_store [] [],
            push_error (lit "unknown") (lit "Model missing endpoint_id or metadata")
              emptyResult)).
Proof.
  apply invalid_model_touches_nothing. right. eexists. split; [reflexivity|].
  left. reflexivity.
Defined.
(** ** The order of store operations *)

Section OpOrder.
Context {St : Type} {store : Store St} {builtins : Builtins} {schemas : SchemaTools}.
Variable creditRate : number.
Variable pricingMap : gmap jsstring FalPricingItem.
Variable log0 : list store_op.

Local Abbreviation LM := (M (St * list store_op)).

Lemma track_ret {A} (P : list store_op -> Prop) (a : A) (Qok : A -> _) Qerr :
  (forall ops, P ops -> Qok a ops) -> track (St := St) log0 P (ret a) Qok Qerr.
Proof. intros H st r ops Hp. cbn. eauto. Qed.

Lemma track_ret_eq {A} (ops0 : list store_op) (a : A) Qerr :
  track (St := St) log0 (eq ops0) (ret a) (fun _ => eq ops0) Qerr.
Proof. intros st r ops <-. cbn. eauto. Qed.

Lemma track_throw {A} (P : list store_op -> Prop) (e : thrown) (Qok : A -> _) Qerr :
  (forall ops, P ops -> Qerr ops) -> track (St := St) log0 P (throw e) Qok Qerr.
Proof. intros H st r ops Hp. cbn. eauto. Qed.

Lemma track_bind {A B} (P : list store_op -> Prop) (m : LM A) (k : A -> LM B)
    (Q : A -> list store_op -> Prop) Qok Qerr :
  track log0 P m Q Qerr -> (forall a, track log0 (Q a) (k a) Qok Qerr) ->
  track log0 P (bind m k) Qok Qerr.
Proof.
  intros Hm Hk st r ops Hp. unfold bind. specialize (Hm st r ops Hp).
  destruct (m ((st, log0 ++ ops), r)) as [[e|a] [[st' log'] r']]; [assumption|].
  destruct Hm as (ops' & -> & Hq). apply Hk. assumption.
Qed.

Lemma track_clock (ops0 : list store_op) Qerr :
  track (St := St) log0 (eq ops0) clock (fun _ => eq ops0) Qerr.
Proof.
  intros st r ops <-. unfold clock. cbn [fst snd now logged_store].
  destruct (now st). eauto.
Qed.

Lemma track_lift {A} (ops0 : list store_op) (x : thrown + A) (Qerr : _ -> Prop) :
  Qerr ops0 -> track (St := St) log0 (eq ops0) (lift x) (fun _ => eq ops0) Qerr.
Proof. intros H st r ops <-. unfold lift. destruct x; eauto. Qed.

Lemma track_update (ops0 : list store_op) (f : SyncResult -> SyncResult) Qerr :
  track (St := St) log0 (eq ops0) (update_result f) (fun _ => eq ops0) Qerr.
Proof. intros st r ops <-. cbn. eauto. Qed.

Lemma run_update_ops (ops0 : list store_op) (f : SyncResult -> SyncResult)
    (Qok : unit -> list store_op -> Prop) Qerr :
  Qok tt ops0 -> track (St := St) log0 (eq ops0) (update_result f) Qok Qerr.
Proof. intros H st r ops <-. cbn. eauto. Qed.

Lemma track_select (ops0 : list store_op) (t : table) (column key : jsstring)
    (Qerr : _ -> Prop) :
  Qerr (ops0 ++ [OpSelect t key]) ->
  track (St := St) log0 (eq ops0) (await (select_single t column key))
    (fun _ => eq (ops0 ++ [OpSelect t key])) Qerr.
Proof.
  intros H st r ops <-. unfold await. cbn [fst snd select_single logged_store].
  destruct (select_single t column key st) as [[resp|e] st'];
    rewrite <- app_assoc; eauto.
Qed.

Lemma track_update_row (ops0 : list store_op) (t : table) (payload : value)
    (column key : jsstring) (Qerr : _ -> Prop) :
  Qerr (ops0 ++ [OpUpdate t key]) ->
  track (St := St) log0 (eq ops0) (await (update t payload column key))
    (fun _ => eq (ops0 ++ [OpUpdate t key])) Qerr.
Proof.
  intros H st r ops <-. unfold await. cbn [fst snd update logged_store].
  destruct (update t payload column key st) as [[resp|e] st'];
    rewrite <- app_assoc; eauto.
Qed.

Lemma track_insert (ops0 : list store_op) (t : table) (payload : value) (Qerr : _ -> Prop) :
  Qerr (ops0 ++ [OpInsert t]) ->
  track (St := St) log0 (eq ops0) (await (insert t payload))
    (fun _ => eq (ops0 ++ [OpInsert t])) Qerr.
Proof.
  intros H st r ops <-. unfold await. cbn [fst snd insert logged_store].
  destruct (insert t payload st) as [[resp|e] st'];
    rewrite <- app_assoc; eauto.
Qed.

Lemma track_delete (ops0 : list store_op) (t : table) (column key : jsstring)
    (Qerr : _ -> Prop) :
  Qerr (ops0 ++ [OpDelete t key]) ->
  track (St := St) log0 (eq ops0) (await (delete t column key))
    (fun _ => eq (ops0 ++ [OpDelete t key])) Qerr.
Proof.
  intros H st r ops <-. unfold await. cbn [fst snd delete logged_store].
  destruct (delete t column key st) as [[resp|e] st'];
    rewrite <- app_assoc; eauto.
Qed.

Lemma cut (id : jsstring) (updated described priced : bool) (n : nat) (ops : list store_op) :
  (0 < n)%nat -> ops = firstn n (reconcile_ops id updated described priced) ->
  cut_short id ops.
Proof. intros Hn ->. exists updated, described, priced, n. auto. Qed.

Ltac cut_at n :=
  first [ apply (cut _ true true true n); [lia|reflexivity]
        | apply (cut _ true true false n); [lia|reflexivity]
        | apply (cut _ true false true n); [lia|reflexivity]
        | apply (cut _ true false false n); [lia|reflexivity]
        | apply (cut _ false true true n); [lia|reflexivity]
        | apply (cut _ false true false n); [lia|reflexivity]
        | apply (cut _ false false true n); [lia|reflexivity]
        | apply (cut _ false false false n); [lia|reflexivity] ].

Ltac whole_run :=
  first [ exists true, true, true; reflexivity
        | exists true, true, false; reflexivity
        | exists true, false, true; reflexivity
        | exists true, false, false; reflexivity
        | exists false, true, true; reflexivity
        | exists false, true, false; reflexivity
        | exists false, false, true; reflexivity
        | exists false, false, false; reflexivity ].

(** A write whose returned error is thrown. *)
Ltac checked_write rule n :=
  eapply track_bind; [apply rule; cut_at n|];
  let r := fresh "r" in
  intros r; cbn [app]; destruct (res_error r);
  [apply track_throw; intros ? <-; cut_at n|apply track_update].

(** A write whose response is dropped. *)
Ltac blind_write rule n :=
  eapply track_bind; [apply rule; cut_at n|];
  intros ?; cbn [app]; apply track_ret_eq.

Lemma reconcile_valid_ops (fullModelId : jsstring) (md : Metadata) (m : FalModel) :
  track log0 (eq []) (reconcile_valid creditRate pricingMap fullModelId md m)
    (fun _ ops => exists updated described priced,
                    ops = reconcile_ops fullModelId updated described priced)
    (cut_short fullModelId).
Proof.
  unfold reconcile_valid. cbv zeta.
  eapply track_bind; [apply track_select; cut_at 1%nat|].
  intros existing. cbn [app].
  eapply track_bind; [apply track_clock|]. intros t.
  destruct (value_truthy (res_data existing)).
  all: eapply track_bind;
    [ first [ checked_write track_update_row 2%nat
            | eapply track_bind; [apply track_clock|]; intros t';
              checked_write track_insert 2%nat ]
    | ]; intros ?.
  all: eapply track_bind;
    [ match goal with |- context [if ?c then lift _ else _] => destruct c end;
      [ apply track_lift; cut_at 2%nat | apply track_ret_eq ]
    | ]; intros parameters.
  all: (eapply track_bind; [apply track_delete; cut_at 3%nat|]); intros ?; cbn [app].
  all: destruct parameters as [|param parameters].
  all: eapply track_bind;
    [ first [ apply track_ret_eq
            | checked_write track_insert 4%nat ]
    | ]; intros ?.
  all: (eapply track_bind; [apply track_clock|]); intros t2.
  all: (eapply track_bind;
        [apply track_select; first [cut_at 4%nat|cut_at 5%nat]|]);
    intros existingPricing; cbn [app].
  all: destruct (value_truthy (res_data existingPricing)).
  all: eapply track_bind;
    [ first [ blind_write track_update_row 5%nat
            | blind_write track_update_row 6%nat
            | eapply track_bind; [apply track_clock|]; intros t3;
              first [blind_write track_insert 5%nat|blind_write track_insert 6%nat] ]
    | ]; intros ?.
  all: eapply run_update_ops.
  all: whole_run.
Qed.

(** X14: against any store, the [try] block of a valid model issues
    its store operations in one fixed order: select the model row, update
    or insert it, delete the parameter rows, insert the new ones if there
    are any, select the pricing row, update or insert it.  A throw cuts
    this sequence short after at least one operation and never reorders
    it; an invalid model issues none. *)
Theorem store_operations_follow_one_order
    (model : option FalModel) (st : St) (r : SyncResult) :
  let '(o, ((_, log'), _)) :=
    reconcile_body creditRate pricingMap model ((st, log0), r) in
  match checked model with
  | None => log' = log0
  | Some (id, _, _) =>
      exists ops,
        log' = log0 ++ ops /\
        match o with
        | inr _ => exists updated described priced,
                     ops = reconcile_ops id updated described priced
        | inl _ => cut_short id ops
        end
  end.
Proof.
  unfold reconcile_body.
  destruct (checked model) as [[[id md] m]|]; [|reflexivity].
  pose proof (reconcile_valid_ops id md m st r [] eq_refl) as H.
  rewrite app_nil_r in H.
  destruct (reconcile_valid creditRate pricingMap id md m ((st, log0), r))
    as [[e|[]] [[st' log'] r']]; exact H.
Qed.
End OpOrder.
(** ** The catalog client: failures, restarts and retries *)

Open Scope nat_scope.

(** *** Failed requests *)

Section RequestFacts.
Context {builtins : Builtins}.
Variable syntax_error_message : jsstring.
Variable null_read_message : jsstring.
Variable conversion_error_message : jsstring.
Variable object_text : value -> option jsstring.

Abbreviation request :=
  (ApiRequest.request syntax_error_message null_read_message conversion_error_message
     object_text).
Abbreviation error_text :=
  (ApiRequest.error_text null_read_message conversion_error_message object_text).

Lemma failure_message_text (status : nat) (statusText text : jsstring)
    (parsed : option value) (t : jsstring) :
  error_text (ApiRequest.error_data status statusText text parsed) = inr t ->
  ApiRequest.failure_message null_read_message conversion_error_message object_text
    status statusText text parsed =
  lit "FAL API Error (" ++ ApiRequest.decimal_digits status ++ lit "): " ++ t.
Proof. unfold ApiRequest.failure_message. now intros ->. Qed.

(** X15: a response with status 429 makes [request] throw an error that
    the pricing fetch takes for the rate-limit signal, whatever the body
    says, as long as the text of the error can be produced (the body is not
    the JSON value [null], and its message is not an object that refuses to
    be turned into a string). *)
Theorem status_429_is_rate_limit (statusText text : jsstring) (parsed : option value)
    (t : jsstring) :
  error_text (ApiRequest.error_data 429 statusText text parsed) = inr t ->
  exists message,
    request (ApiRequest.Http 429 statusText text parsed) = Rejected message
    /\ classify (Rejected message) = RateLimit.
Proof.
  intros Ht. eexists. split; [reflexivity|].
  rewrite (failure_message_text _ _ _ _ _ Ht).
  unfold classify, is_rate_limit.
  change (ApiRequest.decimal_digits 429) with (lit "429").
  now rewrite (includes_inside (lit "FAL API Error (") (lit "429")).
Qed.

(** X16: a response with status 404 makes [request] throw an error that
    the pricing fetch takes for a not-found signal, unless the error text
    of the body itself holds ["429"] or ["Rate limit"]: then the batch is
    retried as rate-limited instead of skipped. *)
Theorem status_404_is_not_found_unless_rate_limited
    (statusText text : jsstring) (parsed : option value) (t : jsstring) :
  error_text (ApiRequest.error_data 404 statusText text parsed) = inr t ->
  exists message,
    request (ApiRequest.Http 404 statusText text parsed) = Rejected message
    /\ classify (Rejected message) = if is_rate_limit t then RateLimit else NotFound.
Proof.
  intros Ht. eexists. split; [reflexivity|].
  rewrite (failure_message_text _ _ _ _ _ Ht).
  unfold classify.
  assert (Hr : is_rate_limit (lit "FAL API Error (" ++ ApiRequest.decimal_digits 404
                              ++ lit "): " ++ t)
               = is_rate_limit t) by reflexivity.
  rewrite Hr. destruct (is_rate_limit _); [reflexivity|].
  unfold is_not_found. change (ApiRequest.decimal_digits 404) with (lit "404").
  now rewrite (includes_inside (lit "FAL API Error (") (lit "404")).
Qed.

(** X17: the pricing fetch reads the message, not the status: a failed
    response of any status whose error text holds ["not found"] is never
    an error to it; the batch is skipped, or retried when the message also
    holds a rate-limit marker. *)
Theorem not_found_text_settles_any_status
    (status : nat) (statusText text : jsstring) (parsed : option value) (t : jsstring) :
  ApiRequest.ok status = false ->
  error_text (ApiRequest.error_data status statusText text parsed) = inr t ->
  includes t (lit "not found") = true ->
  exists message,
    request (ApiRequest.Http status statusText text parsed) = Rejected message
    /\ (classify (Rejected message) = NotFound \/ classify (Rejected message) = RateLimit).
Proof.
  intros Hok Ht Htext. eexists. split; [cbn [ApiRequest.request]; now rewrite Hok|].
  rewrite (failure_message_text _ _ _ _ _ Ht).
  unfold classify. destruct (is_rate_limit _); [now right|left].
  unfold is_not_found. rewrite !app_assoc.
  rewrite (includes_app_r _ _ _ Htext). now rewrite orb_true_r.
Qed.
End RequestFacts.

Lemma status_429_is_rate_limit_witness :
  exists message,
    ApiRequest.request (lit "Unexpected end of JSON input")
      (lit "Cannot read properties of null (reading 'message')")
      (lit "Cannot convert object to primitive value") (fun _ => None)
      (ApiRequest.Http 429 (lit "Too Many Requests") (lit "slow down") None)
    = Rejected message
    /\ classify (Rejected message) = RateLimit.
Proof.
  apply (status_429_is_rate_limit (lit "Unexpected end of JSON input")
           (lit "Cannot read properties of null (reading 'message')")
           (lit "Cannot convert object to primitive value") (fun _ => None)
           (lit "Too Many Requests") (lit "slow down") None (lit "slow down")).
  reflexivity.
Defined.

Lemma status_404_is_not_found_unless_rate_limited_witness :
  exists message,
    ApiRequest.request (lit "Unexpected end of JSON input")
      (lit "Cannot read properties of null (reading 'message')")
      (lit "Cannot convert object to primitive value") (fun _ => None)
      (ApiRequest.Http 404 (lit "Not Found") (lit "{}")
         (Some (VObject [(lit "message", VString (lit "Rate limit exceeded"))])))
    = Rejected message
    /\ classify (Rejected message) =
       if is_rate_limit (lit "Rate limit exceeded") then RateLimit else NotFound.
Proof.
  apply (status_404_is_not_found_unless_rate_limited (lit "Unexpected end of JSON input")
           (lit "Cannot read properties of null (reading 'message')")
           (lit "Cannot convert object to primitive value") (fun _ => None)
           (lit "Not Found") (lit "{}")
           (Some (VObject [(lit "message", VString (lit "Rate limit exceeded"))]))
           (lit "Rate limit exceeded")).
  reflexivity.
Defined.

Lemma not_found_text_settles_any_status_witness :
  exists message,
    ApiRequest.request (lit "Unexpected end of JSON input")
      (lit "Cannot read properties of null (reading 'message')")
      (lit "Cannot convert object to primitive value") (fun _ => None)
      (ApiRequest.Http 401 (lit "Unauthorized") (lit "{}")
         (Some (VObject [(lit "message", VString (lit "API key not found"))])))
    = Rejected message
    /\ (classify (Rejected message) = NotFound \/ classify (Rejected message) = RateLimit).
Proof.
  apply (not_found_text_settles_any_status (lit "Unexpected end of JSON input")
           (lit "Cannot read properties of null (reading 'message')")
           (lit "Cannot convert object to primitive value") (fun _ => None)
           401 (lit "Unauthorized") (lit "{}")
           (Some (VObject [(lit "message", VString (lit "API key not found"))]))
           (lit "API key not found")); reflexivity.
Defined.

(** *** The model listing beyond the regular run *)

Section ListingFacts.
Variable net : nat -> reply ModelsPage.

Lemma cursor_after_truthy (cursor : option jsstring) (pages : list ModelsPage) :
  Forall continues pages ->
  (if truthy cursor then cursor else None) = cursor ->
  (if truthy (cursor_after cursor pages) then cursor_after cursor pages else None)
  = cursor_after cursor pages.
Proof.
  revert cursor. induction pages as [|p pages IH]; intros cursor Hc H; [exact H|].
  inversion Hc as [|? ? [_ Hcur] Hrest]; subst.
  cbn [cursor_after fold_left]. apply IH; [assumption|]. now rewrite Hcur.
Qed.


(** Following pages that each announce a successor. *)
Lemma page_loop_prefix (includeSchemas : bool) (init : list ModelsPage) :
  forall (fuel : nat) (cursor : option jsstring) (acc : list (option FalModel)) (w : io),
    (forall i p, init !! i = Some p -> net (sent w + i) = Resolved p) ->
    Forall continues init ->
    page_loop net (length init + fuel) includeSchemas cursor acc w =
    page_loop net fuel includeSchemas (cursor_after cursor init)
      (acc ++ flat_map page_models init)
      {| sent := sent w + length init;
         trace := trace w ++ page_requests includeSchemas cursor init |}.
Proof.
  induction init as [|p init IH]; intros fuel cursor acc w Hnet Hcont.
  - cbn [length Nat.add flat_map page_requests cursor_after fold_left].
    rewrite !app_nil_r, Nat.add_0_r. now rewrite io_eta.
  - inversion Hcont as [|? ? [Hmore Hcur] Hrest]; subst.
    cbn [length Nat.add page_loop]. rewrite <- (Nat.add_0_r (sent w)) at 1.
    rewrite (Hnet 0 p eq_refl). rewrite Hmore, Hcur.
    rewrite IH; try assumption.
    + unfold issue, page_models. cbn [sent trace flat_map page_requests cursor_after fold_left].
      f_equal.
      * destruct (models p); cbn [default]; rewrite <- ?app_assoc; reflexivity.
      * f_equal; [lia|]. now rewrite <- app_assoc.
    + intros i q Hq. cbn [issue sent].
      replace (S (sent w) + i) with (sent w + S i) by lia. apply Hnet. exact Hq.
Qed.

(** The loop does not look at replies before the next one. *)
Lemma page_loop_shift (s : nat) (t : list event) (b : bool) :
  forall (fuel : nat) (cursor : option jsstring) (acc : list (option FalModel)) (w : io),
    page_loop net fuel b cursor acc {| sent := s + sent w; trace := t ++ trace w |} =
    option_map (after s t) (page_loop (fun n => net (s + n)) fuel b cursor acc w).
Proof.
  induction fuel as [|fuel IH]; intros cursor acc w; [reflexivity|].
  cbn [page_loop sent]. destruct (net (s + sent w)) as [response|message].
  - destruct (truthy _).
    + rewrite <- IH. unfold issue. cbn [sent trace].
      rewrite <- app_assoc, <- Nat.add_succ_r. reflexivity.
    + unfold issue, after. cbn [option_map fst snd sent trace].
      rewrite <- app_assoc, <- Nat.add_succ_r. reflexivity.
  - destruct (b && _); unfold issue, after; cbn [option_map fst snd sent trace];
      rewrite <- app_assoc, <- Nat.add_succ_r; reflexivity.
Qed.

Lemma page_loop_plain (fuel : nat) :
  forall (cursor : option jsstring) (acc : list (option FalModel)) (w w' : io),
    page_loop net fuel false cursor acc w <> Some (RetryWithoutSchemas, w').
Proof.
  induction fuel as [|fuel IH]; intros cursor acc w w'; [discriminate|].
  cbn [page_loop]. destruct (net (sent w)).
  - destruct (truthy _); [apply IH|discriminate].
  - cbn [andb]. discriminate.
Qed.
End ListingFacts.

(** X18: when a page request is rejected and no restart applies (schemas
    are not requested, or the message does not hold ["400"]), the listing
    throws ["Failed to fetch models: "] followed by the message right
    after that request; the models of the pages read before are lost. *)
Theorem models_fetch_fails_with_page_error
    (net : nat -> reply ModelsPage) (init : list ModelsPage) (message : jsstring)
    (includeSchemas : bool) (fuel : nat) :
  (forall i p, init !! i = Some p -> net i = Resolved p) ->
  Forall continues init ->
  net (length init) = Rejected message ->
  includeSchemas && includes message (lit "400") = false ->
  length init < fuel ->
  fetchModels net fuel includeSchemas io0 =
    Some (Throws (lit "Failed to fetch models: " ++ message),
          {| sent := length init + 1;
             trace := page_requests includeSchemas None init
                      ++ [RequestModels includeSchemas (cursor_after None init)] |}).
Proof.
  intros Hnet Hcont Hrej Hplain Hfuel.
  unfold fetchModels, fetchModels_once.
  replace fuel with (length init + S (fuel - length init - 1)) by lia.
  rewrite page_loop_prefix by assumption.
  cbn [page_loop io0 sent trace Nat.add app]. rewrite Hrej, Hplain.
  rewrite (cursor_after_truthy None init Hcont eq_refl).
  unfold issue, failed_models. cbn [sent trace]. repeat f_equal. lia.
Qed.

Lemma models_fetch_fails_with_page_error_witness :
  let p1 := {| models := Some [remote "a" None None];
               next_cursor := Some (lit "c1"); has_more := true |} in
  let net := fun n : nat =>
    match n with
    | 0 => Resolved p1
    | _ => Rejected (lit "FAL API Error (400): bad cursor")
    end in
  fetchModels net 2 false io0 =
    Some (Throws (lit "Failed to fetch models: FAL API Error (400): bad cursor"),
          {| sent := 2;
             trace := [RequestModels false None; RequestModels false (Some (lit "c1"))] |}).
Proof.
  intros p1 net.
  apply (models_fetch_fails_with_page_error net [p1]
           (lit "FAL API Error (400): bad cursor") false 2).
  - intros [|i] p H; simpl in H; inversion H; reflexivity.
  - constructor; [split; reflexivity|constructor].
  - reflexivity.
  - reflexivity.
  - simpl. lia.
Defined.

(** X19: when schemas are requested and a page request is rejected with a
    message that holds ["400"], at whatever page, the listing starts again
    without schemas: its outcome is that of a fresh listing without
    schemas against the replies that follow, the first request carrying no
    cursor and the models read so far being dropped. *)
Theorem models_fetch_restart_is_fresh_listing
    (net : nat -> reply ModelsPage) (init : list ModelsPage) (message : jsstring)
    (fuel : nat) :
  (forall i p, init !! i = Some p -> net i = Resolved p) ->
  Forall continues init ->
  net (length init) = Rejected message ->
  includes message (lit "400") = true ->
  length init < fuel ->
  fetchModels net fuel true io0 =
    option_map
      (after (length init + 1)
         (page_requests true None init ++ [RequestModels true (cursor_after None init)]))
      (fetchModels (fun n => net (length init + 1 + n)) fuel false io0).
Proof.
  intros Hnet Hcont Hrej Hmark Hfuel.
  unfold fetchModels at 1. unfold fetchModels_once at 1.
  replace fuel with (length init + S (fuel - length init - 1)) at 1 by lia.
  rewrite page_loop_prefix by assumption.
  cbn [page_loop io0 sent trace Nat.add app]. rewrite Hrej, Hmark. cbn [andb].
  rewrite (cursor_after_truthy None init Hcont eq_refl).
  unfold fetchModels, fetchModels_once, issue. cbn [sent trace].
  set (t := page_requests true None init ++ [RequestModels true (cursor_after None init)]).
  replace (S (length init)) with (length init + 1 + sent io0) by (cbn; lia).
  rewrite <- (app_nil_r t) at 1. change [] with (trace io0) at 2.
  rewrite page_loop_shift.
  destruct (page_loop _ fuel false None [] io0) as [[[ms|m|] w']|] eqn:E;
    cbn [option_map after fst snd]; try reflexivity.
  exfalso. exact (page_loop_plain _ _ _ _ _ _ E).
Qed.

Lemma models_fetch_restart_is_fresh_listing_witness :
  let page (ms : list (option FalModel)) (c : option jsstring) :=
    {| models := Some ms; next_cursor := c; has_more := bool_decide (c <> None) |} in
  let net := fun n : nat =>
    match n with
    | 0 => Resolved (page [remote "a" None None] (Some (lit "c1")))
    | 1 => Rejected (lit "FAL API Error (400): expand not supported")
    | 2 => Resolved (page [remote "b" None None] (Some (lit "d1")))
    | _ => Resolved (page [remote "c" None None] None)
    end in
  fetchModels net 5 true io0 =
    Some (Returns [remote "b" None None; remote "c" None None],
          {| sent := 4;
             trace := [ RequestModels true None; RequestModels true (Some (lit "c1"));
                        RequestModels false None; RequestModels false (Some (lit "d1")) ] |}).
Proof.
  intros page net.
  apply (models_fetch_restart_is_fresh_listing net
           [page [remote "a" None None] (Some (lit "c1"))]
           (lit "FAL API Error (400): expand not supported") 5).
  - intros [|i] p H; simpl in H; inversion H; reflexivity.
  - constructor; [split; reflexivity|constructor].
  - reflexivity.
  - reflexivity.
  - simpl. lia.
Defined.



Section EndlessListing.
Variable net : nat -> reply ModelsPage.
Hypothesis always_more : forall n, exists p, net n = Resolved p /\ continues p.

Lemma page_loop_endless (b : bool) :
  forall (fuel : nat) (cursor : option jsstring) (acc : list (option FalModel)) (w : io),
    page_loop net fuel b cursor acc w = None.
Proof.
  induction fuel as [|fuel IH]; intros cursor acc w; [reflexivity|].
  cbn [page_loop]. destruct (always_more (sent w)) as (p & -> & Hmore & Hcur).
  rewrite Hmore, Hcur. apply IH.
Qed.
End EndlessListing.

(** X21: the listing has no page limit: against a catalog whose every page
    announces a successor it never returns, whatever the number of pages
    allowed for. *)
Theorem models_fetch_has_no_page_limit
    (net : nat -> reply ModelsPage) (includeSchemas : bool) :
  (forall n, exists p, net n = Resolved p /\ continues p) ->
  forall fuel, fetchModels net fuel includeSchemas io0 = None.
Proof.
  intros H fuel. unfold fetchModels, fetchModels_once.
  now rewrite page_loop_endless.
Qed.

Lemma models_fetch_has_no_page_limit_witness :
  let p := {| models := Some [remote "a" None None];
              next_cursor := Some (lit "c1"); has_more := true |} in
  fetchModels (fun _ => Resolved p) 1000 true io0 = None.
Proof.
  intros p.
  apply (models_fetch_has_no_page_limit (fun _ => Resolved p) true).
  intros n. exists p. split; [reflexivity|split; reflexivity].
Defined.

(** *** The pricing fetch beyond the regular run *)

(** X22: when every batch is settled after at most three rate-limit
    signals, the pricing fetch returns the sanitized quotes of the
    settling replies in batch order; batch i is requested [rs !! i] + 1
    times with waits of 2 s, 4 s and 8 s between its attempts, and 5 s
    separate consecutive batches. *)
Theorem pricing_fetch_recovers_from_rate_limits
    (net : nat -> reply FalPricingResponse) (endpointIds : list jsstring) (rs : list nat)
    (fuel : nat) :
  length rs = batch_count (length endpointIds) ->
  settles net 0 rs ->
  length rs + 4 <= fuel ->
  fetchPricing net fuel endpointIds io0 =
    Some (Returns (collected net 0 (attempts rs)),
          {| sent := attempts rs; trace := schedule (batches endpointIds) rs |}).
Proof.
  intros Hlen Hset Hfuel. unfold fetchPricing, batches.
  rewrite (batch_loop_schedule net endpointIds rs fuel 0 [] io0);
    [|now rewrite Nat.sub_0_r|exact Hset|exact Hfuel].
  cbn [io0 sent trace app Nat.add]. now rewrite <- Hlen.
Qed.

Lemma pricing_fetch_recovers_from_rate_limits_witness :
  let quote := {| price_endpoint_id := lit "fal-ai/veo"; unit_price := one;
                  price_unit := VString (lit "video"); currency := VString (lit "USD");
                  extra := [] |} in
  let net := fun n : nat =>
    match n with
    | 0 => Rejected (lit "FAL API Error (404): Endpoint not found")
    | 1 | 2 => Rejected (lit "FAL API Error (429): Rate limit exceeded")
    | _ => Resolved {| prices := Some [quote]; pricing_next_cursor := None;
                       pricing_has_more := false |}
    end in
  fetchPricing net 6 (repeat (lit "fal-ai/flux") 50 ++ [lit "fal-ai/veo"]) io0 =
    Some (Returns [quote],
          {| sent := 4;
             trace := [ RequestPricing (repeat (lit "fal-ai/flux") 50); Sleep 5000;
                        RequestPricing [lit "fal-ai/veo"]; Sleep 2000;
                        RequestPricing [lit "fal-ai/veo"]; Sleep 4000;
                        RequestPricing [lit "fal-ai/veo"] ] |}).
Proof.
  intros quote net.
  apply (pricing_fetch_recovers_from_rate_limits net
           (repeat (lit "fal-ai/flux") 50 ++ [lit "fal-ai/veo"]) [0; 2] 6).
  - reflexivity.
  - cbn [settles]. split; [lia|]. split; [intros n Hn; lia|]. split; [reflexivity|].
    split; [lia|]. split; [intros [|[|n]] Hn; [reflexivity|reflexivity|lia]|].
    split; [reflexivity|exact I].
  - simpl. lia.
Defined.

(** X23: an error that is neither a rate-limit nor a not-found signal
    ends the pricing fetch at once: no retry, no further batch, and the
    quotes collected from the batches before are not returned; the error
    thrown is ["Failed to fetch pricing: "] followed by its message. *)
Theorem pricing_fetch_aborts_on_other_error
    (net : nat -> reply FalPricingResponse) (endpointIds : list jsstring) (j fuel : nat) :
  j < batch_count (length endpointIds) ->
  (forall n, n < j -> answered (net n) = true) ->
  classify (net j) = OtherError ->
  j < fuel ->
  fetchPricing net fuel endpointIds io0 =
    Some (Throws (lit "Failed to fetch pricing: " ++ message_of (net j)),
          {| sent := j + 1;
             trace := paused (batches_from j endpointIds 0)
                      ++ [RequestPricing (slice (50 * j) (50 * j + 50) endpointIds)] |}).
Proof.
  intros Hj Hans Hother Hfuel. apply batch_index_in_range in Hj.
  unfold fetchPricing.
  replace fuel with (j + S (fuel - j - 1)) by lia.
  rewrite batch_loop_prefix by (simpl; auto with lia).
  cbn [batch_loop retry_loop]. unfold io0. cbn [sent trace Nat.add app].
  destruct (Nat.ltb_spec (50 * j) (length endpointIds)) as [_|]; [|lia].
  cbn [Nat.leb]. unfold classify in Hother.
  destruct (net j) as [response|message].
  - destruct (prices response); discriminate.
  - destruct (is_rate_limit message); [discriminate|].
    destruct (is_not_found message); [discriminate|].
    unfold issue, failed_pricing, batchSize. cbn [sent trace message_of].
    now rewrite Nat.add_1_r.
Qed.

Lemma pricing_fetch_aborts_on_other_error_witness :
  let net := fun n : nat =>
    match n with
    | 0 => Resolved {| prices := Some []; pricing_next_cursor := None;
                       pricing_has_more := false |}
    | _ => @Rejected FalPricingResponse (lit "fetch failed")
    end in
  fetchPricing net 2 (repeat (lit "fal-ai/flux") 51) io0 =
    Some (Throws (lit "Failed to fetch pricing: fetch failed"),
          {| sent := 2;
             trace := [ RequestPricing (repeat (lit "fal-ai/flux") 50); Sleep 5000;
                        RequestPricing [lit "fal-ai/flux"] ] |}).
Proof.
  intros net.
  apply (pricing_fetch_aborts_on_other_error net (repeat (lit "fal-ai/flux") 51) 1 2).
  - vm_compute. lia.
  - intros [|n] Hn; [reflexivity|lia].
  - reflexivity.
  - lia.
Defined.

Section BoundFacts.
Variable net : nat -> reply FalPricingResponse.
Hypothesis net_well_formed : forall n, well_formed (net n) = true.

(** An ended retry loop has made between one and four requests. *)
Lemma retry_loop_requests (batch : list jsstring) :
  forall (fuel retries : nat) (acc : list FalPricingItem) (w : io) res (w' : io),
    retries <= 3 ->
    retry_loop net fuel batch retries acc w = Some (res, w') ->
    sent w < sent w' /\ sent w' + retries <= sent w + 4.
Proof.
  induction fuel as [|fuel IH]; intros retries acc w res w' Hr; [discriminate|].
  cbn [retry_loop].
  assert (Hg : (retries <=? maxRetries) = true) by (apply Nat.leb_le; unfold maxRetries; lia).
  rewrite Hg.
  pose proof (net_well_formed (sent w)) as Hwf. unfold well_formed, classify in Hwf.
  destruct (net (sent w)) as [response|message].
  - destruct (prices response); [|discriminate].
    intros [= <- <-]. cbn [issue sent]. lia.
  - destruct (is_rate_limit message).
    + destruct (Nat.leb_spec (S retries) maxRetries) as [Hle|Hgt].
      * intros Hrun. apply IH in Hrun; [|unfold maxRetries in Hle; lia].
        cbn [emit issue sent] in Hrun. lia.
      * intros [= <- <-]. cbn [issue sent]. lia.
    + destruct (is_not_found message); intros [= <- <-]; cbn [issue sent]; lia.
Qed.

Lemma batch_loop_requests (ids : list jsstring) :
  forall (fuel i : nat) (acc : list FalPricingItem) (w : io) res (w' : io),
    batch_loop net fuel ids i acc w = Some (res, w') ->
    sent w' <= sent w + 4 * batch_count (length ids - i)
    /\ (forall ps, res = Returns ps -> sent w + batch_count (length ids - i) <= sent w').
Proof.
  induction fuel as [|fuel IH]; intros i acc w res w'; [discriminate|].
  change (batch_loop net (S fuel) ids i acc w) with
    (if (i <? length ids) then
       match retry_loop net (S fuel) (slice i (i + batchSize) ids) 0 acc w with
       | None => None
       | Some (Throws m, w1) => Some (Throws m, w1)
       | Some (Returns allPrices1, w1) =>
           batch_loop net fuel ids (i + batchSize) allPrices1
             (if (i + batchSize <? length ids) then emit (Sleep 5000) w1 else w1)
       end
     else Some (Returns acc, w)).
  destruct (Nat.ltb_spec i (length ids)) as [Hi|Hi].
  - rewrite (batch_count_step (length ids - i)) by lia.
    destruct (retry_loop net (S fuel) _ 0 acc w) as [[[acc1|m] w1]|] eqn:E; [| |discriminate].
    + apply retry_loop_requests in E; [|lia].
      intros Hrun. apply IH in Hrun. destruct Hrun as [Hup Hlow].
      assert (Hs : sent (if (i + batchSize <? length ids) then emit (Sleep 5000) w1 else w1)
                   = sent w1) by (destruct (_ <? _); reflexivity).
      rewrite Hs in Hup, Hlow. unfold batchSize in Hup, Hlow.
      replace (length ids - (i + 50)) with (length ids - i - 50) in Hup, Hlow by lia.
      split; [lia|]. intros ps Hps. specialize (Hlow ps Hps). lia.
    + apply retry_loop_requests in E; [|lia].
      intros [= <- <-]. split; [lia|discriminate].
  - intros [= <- <-]. replace (length ids - i) with 0 by lia.
    change (batch_count 0) with 0. split; [lia|]. intros; lia.
Qed.
End BoundFacts.

(** X24: against replies that are each a success, a rate-limit, a
    not-found or another error, the pricing fetch ends after at most four
    requests per batch, 4 * ceil(N/50) in all, and when it returns it has
    made at least one request per batch. *)
Theorem pricing_fetch_request_bound
    (net : nat -> reply FalPricingResponse) (endpointIds : list jsstring) :
  (forall n, well_formed (net n) = true) ->
  exists res w',
    (forall fuel, length endpointIds + 4 <= fuel ->
                  fetchPricing net fuel endpointIds io0 = Some (res, w'))
    /\ sent w' <= 4 * batch_count (length endpointIds)
    /\ (forall ps, res = Returns ps -> batch_count (length endpointIds) <= sent w').
Proof.
  intros Hwf.
  destruct (batch_loop_total net Hwf endpointIds (length endpointIds) 0 [] io0 ltac:(lia))
    as (res & w' & Hrun & _ & _).
  pose proof (Hrun (length endpointIds + 4) ltac:(lia)) as Hone.
  apply (batch_loop_requests net Hwf) in Hone. rewrite Nat.sub_0_r in Hone.
  cbn [io0 sent Nat.add] in Hone. destruct Hone as [Hup Hlow].
  destruct res as [ps|m].
  - exists (Returns ps), w'. repeat split.
    + intros fuel Hf. unfold fetchPricing. now rewrite Hrun by lia.
    + exact Hup.
    + intros ps' _. exact (Hlow ps eq_refl).
  - exists (Throws (failed_pricing m)), w'. repeat split.
    + intros fuel Hf. unfold fetchPricing. now rewrite Hrun by lia.
    + exact Hup.
    + discriminate.
Qed.

Lemma pricing_fetch_request_bound_witness :
  let net := fun n : nat =>
    match n with
    | 0 | 1 | 2 => Rejected (lit "FAL API Error (429): Rate limit exceeded")
    | _ => Resolved {| prices := Some []; pricing_next_cursor := None;
                       pricing_has_more := false |}
    end in
  exists res w',
    (forall fuel, length [lit "fal-ai/flux"] + 4 <= fuel ->
                  fetchPricing net fuel [lit "fal-ai/flux"] io0 = Some (res, w'))
    /\ sent w' <= 4 * batch_count (length [lit "fal-ai/flux"])
    /\ (forall ps, res = Returns ps -> batch_count (length [lit "fal-ai/flux"]) <= sent w').
Proof.
  intros net.
  apply (pricing_fetch_request_bound net [lit "fal-ai/flux"]).
  intros [|[|[|n]]]; reflexivity.
Defined.

Section SpinFacts.
Variable net : nat -> reply FalPricingResponse.

Lemma retry_loop_spins (batch : list jsstring) :
  forall (fuel retries : nat) (acc : list FalPricingItem) (w : io),
    retries <= 3 ->
    (forall n, sent w <= n -> classify (net n) = Malformed) ->
    retry_loop net fuel batch retries acc w = None.
Proof.
  induction fuel as [|fuel IH]; intros retries acc w Hr Hbad; [reflexivity|].
  cbn [retry_loop].
  assert (Hg : (retries <=? maxRetries) = true) by (apply Nat.leb_le; unfold maxRetries; lia).
  rewrite Hg. pose proof (Hbad (sent w) ltac:(lia)) as H0. unfold classify in H0.
  destruct (net (sent w)) as [response|message].
  - destruct (prices response); [discriminate|].
    apply IH; [exact Hr|]. intros n Hn. apply Hbad. cbn [issue sent] in Hn. lia.
  - destruct (is_rate_limit message); [discriminate|].
    destruct (is_not_found message); discriminate.
Qed.

Lemma batch_loop_spins (ids : list jsstring) :
  forall (fuel d i : nat) (acc : list FalPricingItem) (w : io),
    i + 50 * d < length ids ->
    (forall n, n < d -> answered (net (sent w + n)) = true) ->
    (forall n, sent w + d <= n -> classify (net n) = Malformed) ->
    batch_loop net fuel ids i acc w = None.
Proof.
  induction fuel as [|fuel IH]; intros d i acc w Hi Hans Hbad; [reflexivity|].
  change (batch_loop net (S fuel) ids i acc w) with
    (if (i <? length ids) then
       match retry_loop net (S fuel) (slice i (i + batchSize) ids) 0 acc w with
       | None => None
       | Some (Throws m, w1) => Some (Throws m, w1)
       | Some (Returns allPrices1, w1) =>
           batch_loop net fuel ids (i + batchSize) allPrices1
             (if (i + batchSize <? length ids) then emit (Sleep 5000) w1 else w1)
       end
     else Some (Returns acc, w)).
  destruct (Nat.ltb_spec i (length ids)) as [_|]; [|lia].
  destruct d as [|d].
  - rewrite retry_loop_spins; [reflexivity|lia|].
    intros n Hn. apply Hbad. lia.
  - rewrite retry_answered by (rewrite <- (Nat.add_0_r (sent w)); apply Hans; lia).
    unfold batchSize.
    destruct (Nat.ltb_spec (i + 50) (length ids)) as [_|]; [|lia].
    apply (IH d).
    + lia.
    + intros n Hn. cbn [emit issue sent].
      replace (S (sent w) + n) with (sent w + S n) by lia. apply Hans. lia.
    + intros n Hn. cbn [emit issue sent] in Hn. apply Hbad. lia.
Qed.
End SpinFacts.

(** X25: once the replies to a batch are bodies without a [prices] array
    the pricing fetch never ends: such a reply neither settles the batch
    nor counts as a retry, so the same request is repeated without a
    wait. *)
Theorem pricing_fetch_never_ends_without_prices
    (net : nat -> reply FalPricingResponse) (endpointIds : list jsstring) (j : nat) :
  j < batch_count (length endpointIds) ->
  (forall n, n < j -> answered (net n) = true) ->
  (forall n, j <= n -> classify (net n) = Malformed) ->
  forall fuel, fetchPricing net fuel endpointIds io0 = None.
Proof.
  intros Hj Hans Hbad fuel. apply batch_index_in_range in Hj.
  unfold fetchPricing.
  rewrite (batch_loop_spins net endpointIds fuel j 0 [] io0); auto.
Qed.

Lemma pricing_fetch_never_ends_without_prices_witness :
  let net := fun n : nat =>
    match n with
    | 0 => Rejected (lit "FAL API Error (404): Endpoint not found")
    | _ => Resolved {| prices := None; pricing_next_cursor := None;
                       pricing_has_more := false |}
    end in
  fetchPricing net 1000 (repeat (lit "fal-ai/flux") 51) io0 = None.
Proof.
  intros net.
  apply (pricing_fetch_never_ends_without_prices net (repeat (lit "fal-ai/flux") 51) 1).
  - vm_compute. lia.
  - intros [|n] Hn; [reflexivity|lia].
  - intros [|n] Hn; [lia|reflexivity].
Defined.

Close Scope nat_scope.
(** ** The whole pass *)

Open Scope nat_scope.


Section PassFacts.
Context {St : Type} {store : Store St} {host : SyncPass.Host St}
        {builtins : Builtins} {schemas : SchemaTools}.
Variable env : SyncPass.Env.
Variable models_net : nat -> reply ModelsPage.
Variable pricing_net : nat -> reply FalPricingResponse.
Variable toFixed_error : value -> jsstring.
Variable absent_id : jsstring.

Abbreviation pass :=
  (SyncPass.syncFalModels env models_net pricing_net toFixed_error absent_id).




(** X28: when the first listing fails, the pass throws ["Failed to connect
    to FAL API"], whatever the error of the listing was, having read the
    clock but nothing of the store.  A listing fails at the first rejected
    page request when its message does not hold ["400"]; when it does, the
    listing starts again without schemas and fails at the first rejected
    request of the second round, whatever its message. *)
Theorem pass_needs_a_complete_first_listing
    (init again : list ModelsPage) (message message2 : jsstring) (st : St) (fuel : nat) :
  SyncPass.configuration env = None ->
  served models_net 0 init ->
  Forall continues init ->
  models_net (length init) = Rejected message ->
  length init < fuel ->
  (includes message (lit "400") = true ->
   served models_net (length init + 1) again
   /\ Forall continues again
   /\ models_net (length init + 1 + length again) = Rejected message2
   /\ length again < fuel) ->
  pass fuel st io0 =
    Some (inl (ErrorObject (lit "Failed to connect to FAL API")),
          snd (SyncPass.Date_now st),
          if includes message (lit "400") then
            {| sent := length init + 1 + length again + 1;
               trace := page_requests true None init
                        ++ [RequestModels true (cursor_after None init)]
                        ++ page_requests false None again
                        ++ [RequestModels false (cursor_after None again)] |}
          else
            {| sent := length init + 1;
               trace := page_requests true None init
                        ++ [RequestModels true (cursor_after None init)] |}).
Proof.
  intros Hconf Hs Hcont Hrej Hfuel Hagain.
  unfold SyncPass.syncFalModels.
  destruct (SyncPass.Date_now st) as [t0 st0]. cbn [snd].
  rewrite Hconf. unfold SyncPass.testConnection, fetchModels, fetchModels_once.
  set (w1 := {| sent := length init + 1;
                trace := page_requests true None init
                         ++ [RequestModels true (cursor_after None init)] |}).
  assert (H1 : page_loop models_net fuel true None [] io0 =
               Some (if includes message (lit "400") then RetryWithoutSchemas
                     else PageThrew message, w1)).
  { replace fuel with (length init + S (fuel - length init - 1)) by lia.
    rewrite page_loop_prefix by assumption.
    cbn [page_loop io0 sent trace Nat.add app]. rewrite Hrej. cbn [andb].
    rewrite (cursor_after_truthy None init Hcont eq_refl).
    unfold issue, w1. cbn [sent trace]. rewrite Nat.add_1_r.
    destruct (includes message (lit "400")); reflexivity. }
  rewrite H1.
  destruct (includes message (lit "400")); [|reflexivity].
  destruct (Hagain eq_refl) as (Hs2 & Hcont2 & Hrej2 & Hfuel2).
  replace fuel with (length again + S (fuel - length again - 1)) by lia.
  rewrite (page_loop_prefix models_net false again _ None [] w1) by assumption.
  cbn [page_loop sent trace w1 app]. rewrite Hrej2. cbn [andb].
  rewrite (cursor_after_truthy None again Hcont2 eq_refl).
  unfold issue. cbn [sent trace]. rewrite <- !app_assoc. cbn [app].
  repeat f_equal. lia.
Qed.

End PassFacts.



Lemma pass_needs_a_complete_first_listing_witness :
  let page := {| models := Some [remote "fal-ai/flux" None None];
                 next_cursor := Some (lit "c1"); has_more := true |} in
  let models_net := fun n : nat =>
    match n with
    | 0 | 2 => Resolved page
    | 1 => Rejected (lit "FAL API Error (400): Bad Request")
    | _ => Rejected (lit "FAL API Error (503): Service Unavailable")
    end in
  let st := empty_store [] [] in
  SyncPass.syncFalModels (host := mem_host sample_config) sample_env
    models_net (fun _ => Rejected (lit "fetch failed"))
    (fun _ => lit "not a function") (lit "undefined") 2 st io0 =
  Some (inl (ErrorObject (lit "Failed to connect to FAL API")),
        snd (mem_now st),
        {| sent := 4;
           trace := [RequestModels true None; RequestModels true (Some (lit "c1"));
                     RequestModels false None; RequestModels false (Some (lit "c1"))] |}).
Proof.
  intros page models_net st.
  apply (pass_needs_a_complete_first_listing (host := mem_host sample_config)
           sample_env models_net (fun _ => Rejected (lit "fetch failed"))
           (fun _ => lit "not a function") (lit "undefined")
           [page] [page] (lit "FAL API Error (400): Bad Request")
           (lit "FAL API Error (503): Service Unavailable") st 2).
  - reflexivity.
  - intros [|i] p H; simpl in H; inversion H; reflexivity.
  - constructor; [split; reflexivity|constructor].
  - reflexivity.
  - cbn. lia.
  - intros _. split; [|split; [|split]].
    + intros [|i] p H; simpl in H; inversion H; reflexivity.
    + constructor; [split; reflexivity|constructor].
    + reflexivity.
    + cbn. lia.
Defined.


Close Scope nat_scope.
